(** * wuprankings: the name-matching engine, the ranking and the availability
      aggregators

    A shallow embedding of the matching and aggregation code of the
    repository (the Express server and the two serverless handlers
    [api/rankings.js] and [api/available.js], which carry the same functions)
    together with the properties the specification states about it.

    Conventions of the embedding.
    - A JavaScript string is a sequence of UTF-16 code units.  The model keeps
      the code units 0..255 (the Latin-1 range), one [ascii] each, which is
      where player names and CSV cells live; [String.prototype.toLowerCase],
      the regular-expression classes [\w], [\s] and [String.prototype.trim]
      are written out for exactly this range.  Functions work on
      [list ascii]; records carry [string] and convert at the boundary.
    - A JavaScript number is NaN, an infinity or a finite double ([jsnum]).
      A finite double is kept as the integer that counts its multiples of
      2^-1074, the smallest positive double; a parsed decimal and a sum are
      rounded to the nearest double, ties to even, and overflow to an
      infinity, as IEEE 754 has it.  The two zeros are one value: the
      program adds, subtracts, compares and prints numbers as JSON, and
      none of these tells -0 from 0.
    - A JavaScript [Map] that is only read by key is a [gmap]; a [Map] whose
      iteration order is observed is an association list in insertion
      order.  A plain object that is read by key, the player directory of
      the roster provider, is a [gmap] together with the members it
      inherits from [Object.prototype]. *)

From Stdlib Require Import ZArith Strings.Ascii Sorted SpecFloat.
From stdpp Require Import base list strings gmap.

Local Open Scope string_scope.
Local Open Scope list_scope.

(** ** Code units and character classes *)

Abbreviation chars := (list ascii).

Definition code (c : ascii) : N := Ascii.N_of_ascii c.

Definition inRange (lo hi : N) (c : ascii) : bool :=
  ((lo <=? code c) && (code c <=? hi))%N.

(** [toLowerCase] on one code unit: A-Z, and the Latin-1 capitals
    U+00C0..U+00DE except the multiplication sign U+00D7. *)
Definition isUpperChar (c : ascii) : bool :=
  inRange 65 90 c || inRange 192 214 c || inRange 216 222 c.

Definition toLowerChar (c : ascii) : ascii :=
  if isUpperChar c then Ascii.ascii_of_N (code c + 32) else c.

(** The class [\w] of a regular expression without the [u] and [i] flags:
    [A-Za-z0-9_]. *)
Definition isWordChar (c : ascii) : bool :=
  inRange 48 57 c || inRange 65 90 c || (code c =? 95)%N || inRange 97 122 c.

(** The class [\s], which is also what [trim] and [parseFloat] strip:
    TAB, LF, VT, FF, CR, SPACE and NO-BREAK SPACE. *)
Definition isSpaceChar (c : ascii) : bool :=
  inRange 9 13 c || (code c =? 32)%N || (code c =? 160)%N.

Definition chr (s : string) : chars := String.list_ascii_of_string s.
Definition str (l : chars) : string := String.string_of_list_ascii l.

Definition space : ascii := " "%char.

(** ** String primitives used by the source *)

(** [s.toLowerCase()] *)
Definition toLowerCase (s : chars) : chars := map toLowerChar s.

(** [s.replace(/x/g, '')] for a single literal character [x]. *)
Definition removeChar (x : ascii) (s : chars) : chars :=
  List.filter (fun c => negb (Ascii.eqb c x)) s.

(** [s.replace(/x/g, y)] for single literal characters [x] and [y]. *)
Definition replaceChar (x y : ascii) (s : chars) : chars :=
  map (fun c => if Ascii.eqb c x then y else c) s.

(** [stripPrefix t s] is [Some r] when [s = t ++ r]. *)
Fixpoint stripPrefix (t s : chars) : option chars :=
  match t, s with
  | [], _ => Some s
  | a :: t', b :: s' => if Ascii.eqb a b then stripPrefix t' s' else None
  | _ :: _, [] => None
  end.

(** The alternatives of [/\b(jr|sr|ii|iii|iv)\b/], in the order the regular
    expression tries them. *)
Definition suffixTokens : list chars :=
  [chr "jr"; chr "sr"; chr "ii"; chr "iii"; chr "iv"].

Definition isWordOpt (c : option ascii) : bool :=
  match c with Some c => isWordChar c | None => false end.

(** The assertion [\b] between the code unit before a position and the one
    at it: exactly one of the two is a word character (the ends of the
    string count as non-word). *)
Definition wordBoundary (prev next : option ascii) : bool :=
  xorb (isWordOpt prev) (isWordOpt next).

(** One alternative followed by the closing [\b]: the length of the match. *)
Definition matchAlternative (t s : chars) : option nat :=
  match stripPrefix t s with
  | Some r => if wordBoundary (last t) (head r) then Some (length t) else None
  | None => None
  end.

Fixpoint firstAlternative (ts : list chars) (s : chars) : option nat :=
  match ts with
  | [] => None
  | t :: ts' =>
      match matchAlternative t s with
      | Some n => Some n
      | None => firstAlternative ts' s
      end
  end.

(** A match of [/\b(jr|sr|ii|iii|iv)\b/] starting at the current position,
    [prev] being the code unit just before it. *)
Definition matchSuffixAt (prev : option ascii) (s : chars) : option nat :=
  if wordBoundary prev (head s) then firstAlternative suffixTokens s else None.

(** [s.replace(/\b(jr|sr|ii|iii|iv)\b/g, '')]: the scan of a global replace.
    At each position the expression is tried; a match is dropped and the
    scan resumes after it ([skip] counts the code units of the match still
    to be passed), otherwise the code unit is copied. *)
Fixpoint replaceSuffixes (prev : option ascii) (skip : nat) (s : chars) : chars :=
  match s with
  | [] => []
  | c :: r =>
      match skip with
      | S k => replaceSuffixes (Some c) k r
      | O =>
          match matchSuffixAt prev s with
          | Some n => replaceSuffixes (Some c) (pred n) r
          | None => c :: replaceSuffixes (Some c) 0 r
          end
      end
  end.

(** [s.replace(/\s+/g, ' ')]: [inRun] tells that the previous code unit was
    white space, whose run has already been replaced by one space. *)
Fixpoint collapseSpaces (inRun : bool) (s : chars) : chars :=
  match s with
  | [] => []
  | c :: r =>
      if isSpaceChar c
      then (if inRun then collapseSpaces true r else space :: collapseSpaces true r)
      else c :: collapseSpaces false r
  end.

Fixpoint trimStart (s : chars) : chars :=
  match s with
  | [] => []
  | c :: r => if isSpaceChar c then trimStart r else s
  end.

(** [trimEnd] drops a white-space code unit when nothing but white space
    follows it. *)
Fixpoint trimEnd (s : chars) : chars :=
  match s with
  | [] => []
  | c :: r =>
      match trimEnd r with
      | [] => if isSpaceChar c then [] else [c]
      | r' => c :: r'
      end
  end.

(** [s.trim()] *)
Definition trim (s : chars) : chars := trimEnd (trimStart s).

(** [hay.includes(needle)] *)
Fixpoint includes (hay needle : chars) : bool :=
  match stripPrefix needle hay with
  | Some _ => true
  | None => match hay with [] => false | _ :: h' => includes h' needle end
  end.

(** [s.split(sep)[0]] for a non-empty separator: the text before the first
    occurrence of [sep], the whole of [s] when there is none. *)
Fixpoint splitHead (sep s : chars) : chars :=
  match stripPrefix sep s with
  | Some _ => []
  | None => match s with [] => [] | c :: r => c :: splitHead sep r end
  end.

(** ** The name normalizer *)

(** [normalizeName], stage by stage as the source chains them. *)
Definition normalizeChars (name : chars) : chars :=
  trim
    (collapseSpaces false
       (replaceSuffixes None 0
          (replaceChar "-"%char space
             (removeChar "'"%char
                (removeChar "."%char
                   (toLowerCase name)))))).

Definition normalizeName (name : string) : string :=
  str (normalizeChars (chr name)).

(** The suffix step read run by run instead of position by position: the
    text is cut into maximal runs of [\w] code units, and a run that is one
    of the alternatives is dropped as a whole.  The scan is shown to compute
    this, which is how the later stages are reasoned about. *)
Definition isSuffixToken (w : chars) : bool :=
  List.existsb (fun t => bool_decide (t = w)) suffixTokens.

Definition keepWord (w : chars) : chars :=
  if isSuffixToken w then [] else w.

(** [w] is the run of word characters read so far. *)
Fixpoint dropSuffixWords (w : chars) (s : chars) : chars :=
  match s with
  | [] => keepWord w
  | c :: r =>
      if isWordChar c
      then dropSuffixWords (w ++ [c]) r
      else keepWord w ++ c :: dropSuffixWords [] r
  end.

(** ** JavaScript numbers *)

(** [Fin k] is the finite number k * 2^-1074.  The doubles are the [Fin k]
    whose [k] is, in absolute value, below 2^53, or a multiple of 2^s
    between 2^(52+s) and 2^(53+s), and below 2^2098 (which is 2^1024 counted
    in units of 2^-1074). *)
Inductive jsnum : Type :=
  | NaN
  | Inf (negative : bool)
  | Fin (k : Z).

Definition isNaN (a : jsnum) : bool :=
  match a with NaN => true | _ => false end.

(** The integer nearest to [n / d], the even one of the two when [n / d] is
    midway between them ([0 <= n], [0 < d]). *)
Definition nearestEven (n d : Z) : Z :=
  let q := (n / d)%Z in
  match (2 * (n mod d) ?= d)%Z with
  | Lt => q
  | Gt => (q + 1)%Z
  | Eq => if Z.even q then q else (q + 1)%Z
  end.

(** The doubles from 2^(52+s) to 2^(53+s) units are the multiples of 2^s
    units; below 2^53 units they are the whole numbers of units.  [spacing x]
    is that [s] for the doubles around [x] units. *)
Definition spacing (x : Z) : Z := Z.max 0 (Z.log2 x - 52).

(** The magnitude, in units, of the double nearest to [n / d] units, with
    no bound on the exponent ([0 <= n], [0 < d]). *)
Definition roundMagnitude (n d : Z) : Z :=
  let s := spacing (n / d) in
  (nearestEven n (d * 2 ^ s) * 2 ^ s)%Z.

(** 2^1024, in units: a rounded magnitude that reaches it has overflowed. *)
Definition overflowAt : Z := (2 ^ 2098)%Z.

Definition signedDouble (negative : bool) (magnitude : Z) : jsnum :=
  if (overflowAt <=? magnitude)%Z then Inf negative
  else Fin (if negative then (- magnitude)%Z else magnitude).

(** The double nearest to [n / d] units, ties to even ([0 < d]). *)
Definition roundDouble (n d : Z) : jsnum :=
  signedDouble (n <? 0)%Z (roundMagnitude (Z.abs n) d).

(** [a + b] *)
Definition jsnum_add (a b : jsnum) : jsnum :=
  match a, b with
  | NaN, _ | _, NaN => NaN
  | Inf s, Inf s' => if Bool.eqb s s' then Inf s else NaN
  | Inf s, Fin _ | Fin _, Inf s => Inf s
  | Fin p, Fin q => roundDouble (p + q) 1
  end.

Definition jsnum_neg (a : jsnum) : jsnum :=
  match a with
  | NaN => NaN
  | Inf s => Inf (negb s)
  | Fin k => Fin (- k)
  end.

(** [a - b] *)
Definition jsnum_sub (a b : jsnum) : jsnum := jsnum_add a (jsnum_neg b).

(** [a >= b] *)
Definition jsnum_geb (a b : jsnum) : bool :=
  match a, b with
  | NaN, _ | _, NaN => false
  | Inf false, _ => true
  | _, Inf true => true
  | Inf true, _ => false
  | _, Inf false => false
  | Fin p, Fin q => (q <=? p)%Z
  end.

(** [a === b] on numbers *)
Definition jsnum_eqb (a b : jsnum) : bool :=
  match a, b with
  | Inf s, Inf s' => Bool.eqb s s'
  | Fin p, Fin q => (p =? q)%Z
  | _, _ => false
  end.

(** ** [Array.prototype.sort] *)

(** How [sort] reads the number a comparator returns: negative keeps the
    first argument first, positive puts it after the second, and zero or NaN
    leaves the pair as it is. *)
Definition sortSign (v : jsnum) : comparison :=
  match v with
  | NaN => Eq
  | Inf true => Lt
  | Inf false => Gt
  | Fin k => (k ?= 0)%Z
  end.

(** [sort] is stable, and for a comparator that orders the elements
    consistently its result is determined.  The model inserts each element,
    from the last to the first, in front of the first element that it need
    not follow.  (For a comparator that is not consistent, as the
    difference of totals is once a total is NaN, the result is left to the
    implementation; the model gives one such result, and what is proved of
    that case holds of every arrangement.) *)
Fixpoint insertBy {A : Type} (cmp : A -> A -> comparison) (x : A) (l : list A) : list A :=
  match l with
  | [] => [x]
  | y :: l' =>
      match cmp x y with
      | Gt => y :: insertBy cmp x l'
      | _ => x :: l
      end
  end.

Definition sortBy {A : Type} (cmp : A -> A -> comparison) (l : list A) : list A :=
  foldr (insertBy cmp) [] l.

(** ** [parseFloat] *)

Definition isDigit (c : ascii) : bool := inRange 48 57 c.

Fixpoint takeDigits (s : chars) : chars :=
  match s with
  | c :: r => if isDigit c then c :: takeDigits r else []
  | [] => []
  end.

Fixpoint dropDigits (s : chars) : chars :=
  match s with
  | c :: r => if isDigit c then dropDigits r else s
  | [] => []
  end.

Definition digitsValue (ds : chars) : Z :=
  fold_left (fun acc c => 10 * acc + Z.of_N (code c - 48))%Z ds 0%Z.

(** An optional sign: whether it is a minus, and the text after it. *)
Definition readSign (s : chars) : bool * chars :=
  match s with
  | c :: r =>
      if Ascii.eqb c "-"%char then (true, r)
      else if Ascii.eqb c "+"%char then (false, r)
      else (false, s)
  | [] => (false, s)
  end.

(** The exponent part [e], sign, digits; it counts only with a digit. *)
Definition readExponent (s : chars) : Z :=
  match s with
  | c :: r =>
      if Ascii.eqb c "e"%char || Ascii.eqb c "E"%char
      then
        let '(neg, r') := readSign r in
        let v := digitsValue (takeDigits r') in
        if neg then (- v)%Z else v
      else 0%Z
  | [] => 0%Z
  end.

(** The double nearest to the decimal [m] * 10^[e], with its sign
    ([0 <= m]). *)
Definition decimalToDouble (negative : bool) (m e : Z) : jsnum :=
  let n := if negative then (- m)%Z else m in
  if (0 <=? e)%Z
  then roundDouble (n * 10 ^ e * 2 ^ 1074) 1
  else roundDouble (n * 2 ^ 1074) (10 ^ (- e)).

(** [parseFloat(s)]: leading white space is skipped and the longest prefix
    that reads as a decimal literal (sign, "Infinity" or digits with an
    optional fraction and exponent) is taken; NaN when there is none.  The
    result is the double nearest to the decimal read. *)
Definition parseFloat (s : chars) : jsnum :=
  let '(neg, s1) := readSign (trimStart s) in
  match stripPrefix (chr "Infinity") s1 with
  | Some _ => Inf neg
  | None =>
      let int := takeDigits s1 in
      let s2 := dropDigits s1 in
      let '(frac, s3) :=
        match s2 with
        | c :: r => if Ascii.eqb c "."%char then (takeDigits r, dropDigits r) else ([], s2)
        | [] => ([], s2)
        end in
      match int ++ frac with
      | [] => NaN
      | mantissa =>
          decimalToDouble neg (digitsValue mantissa)
            (readExponent s3 - Z.of_nat (length frac))
      end
  end.

(** The number a decimal numeral denotes, as a CSV cell with that text is
    read. *)
Definition num (text : string) : jsnum := parseFloat (chr text).

(** A number in the binary64 format of the Standard Library's IEEE 754
    specification, against which the rounding above is checked on
    examples. *)
Definition toSpecFloat (a : jsnum) : spec_float :=
  match a with
  | NaN => S754_nan
  | Inf negative => S754_infinity negative
  | Fin k => binary_normalize 53 1024 k (-1074) false
  end.

(** ** Truthiness *)

(** [v || d] for a property [v] that is a string when present. *)
Definition orElse (v : option string) (d : string) : string :=
  match v with
  | Some s => if String.eqb s "" then d else s
  | None => d
  end.

Definition trimS (s : string) : string := str (trim (chr s)).
Definition lower (s : string) : chars := toLowerCase (chr s).

(** ** The projection catalog *)

Module Projection.
Record t : Type := mk { player : string; position : string; fantasy : jsnum; team : string }.
End Projection.

(** A parsed CSV row: the five columns the loader reads, absent when the
    file has no such column. *)
Module Row.
Record t : Type :=
  mk { player : option string; fantasy : option string; FPTS : option string;
       points : option string; team : option string }.
End Row.

(** [records.set(key, value)] on a [Map] kept in insertion order: an
    existing key keeps its place and takes the new value. *)
Fixpoint mapSet (key : string) (value : Projection.t) (records : list Projection.t)
  : list Projection.t :=
  match records with
  | [] => [value]
  | r :: rest =>
      if String.eqb (Projection.player r) key
      then value :: rest
      else r :: mapSet key value rest
  end.

(** [row.fantasy || row.FPTS || row.points || '0'] *)
Definition pointsText (row : Row.t) : string :=
  orElse (Row.fantasy row) (orElse (Row.FPTS row) (orElse (Row.points row) "0")).

(** The ['data'] callback of [loadCsvProjections]. *)
Definition onData (position : string) (records : list Projection.t) (row : Row.t)
  : list Projection.t :=
  let player := trimS (orElse (Row.player row) "") in
  let fantasy := parseFloat (chr (pointsText row)) in
  if negb (String.eqb player "") && negb (isNaN fantasy)
  then
    let team := trimS (orElse (Row.team row) "") in
    mapSet player (Projection.mk player position fantasy team) records
  else records.

(** [loadCsvProjections(filename, position)], [rows] being the rows the CSV
    parser emits for the file. *)
Definition loadCsvProjections (rows : list Row.t) (position : string) : list Projection.t :=
  fold_left (onData position) rows [].

Module Projections.
Record t : Type :=
  mk { qbs : list Projection.t; rbs : list Projection.t; wrs : list Projection.t;
       tes : list Projection.t; ks : list Projection.t; dsts : list Projection.t }.
End Projections.

Module CsvFiles.
Record t : Type :=
  mk { QB : list Row.t; RB : list Row.t; WR : list Row.t;
       TE : list Row.t; K : list Row.t; DST : list Row.t }.
End CsvFiles.

Definition loadAllProjections (files : CsvFiles.t) : Projections.t :=
  Projections.mk
    (loadCsvProjections (CsvFiles.QB files) "QB")
    (loadCsvProjections (CsvFiles.RB files) "RB")
    (loadCsvProjections (CsvFiles.WR files) "WR")
    (loadCsvProjections (CsvFiles.TE files) "TE")
    (loadCsvProjections (CsvFiles.K files) "K")
    (loadCsvProjections (CsvFiles.DST files) "DST").

(** [Object.values(projections)], also the [allMaps] of the availability
    handler. *)
Definition allMaps (projections : Projections.t) : list (list Projection.t) :=
  [Projections.qbs projections; Projections.rbs projections;
   Projections.wrs projections; Projections.tes projections;
   Projections.ks projections; Projections.dsts projections].

(** ** The alias table and the name index *)

Definition DEFAULT_LEAGUE_ID : string := "1257482024906657792".

Definition NAME_ALIASES : gmap string string :=
  list_to_map
    [("josh palmer", "joshua palmer");
     ("joshua palmer", "josh palmer");
     ("hollywood brown", "marquise brown");
     ("marquise brown", "hollywood brown");
     ("chig okonkwo", "chigoziem okonkwo");
     ("chigoziem okonkwo", "chig okonkwo");
     ("cam ward", "cameron ward");
     ("cameron ward", "cam ward")].

(** [NAME_ALIASES.get(key)] as the source uses it, under [if (alias)]: an
    alias that is there and not the empty string. *)
Definition aliasOf (key : string) : option string :=
  match NAME_ALIASES !! key with
  | Some alias => if String.eqb alias "" then None else Some alias
  | None => None
  end.

Module Candidate.
Record t : Type := mk { player : string; position : string; fantasy : jsnum }.
End Candidate.

Abbreviation NameIndex := (gmap string (list Candidate.t)).

(** [nameIndex.get(key) || []] *)
Definition candidates (index : NameIndex) (key : string) : list Candidate.t :=
  default [] (index !! key).

(** [if (!index.has(k)) index.set(k, []); index.get(k).push(c)] *)
Definition pushCandidate (c : Candidate.t) (index : NameIndex) (k : string) : NameIndex :=
  <[k := candidates index k ++ [c]]> index.

Definition indexRecord (index : NameIndex) (p : Projection.t) : NameIndex :=
  let key := normalizeName (Projection.player p) in
  let keys := key :: match aliasOf key with Some alias => [alias] | None => [] end in
  fold_left
    (pushCandidate
       (Candidate.mk (Projection.player p) (Projection.position p) (Projection.fantasy p)))
    keys index.

Definition buildNameIndex (projectionsMaps : list (list Projection.t)) : NameIndex :=
  fold_left (fun index map => fold_left indexRecord map index) projectionsMaps ∅.

(** ** Rosters and the matching engine *)

Module Entry.
Record t : Type := mk { id : string; name : string; position : string; isStarter : bool }.
End Entry.

Module Roster.
Record t : Type := mk { rosterId : string; teamName : string; entries : list Entry.t }.
End Roster.

Module Matched.
Record t : Type := mk { name : string; position : string; projected : jsnum; isStarter : bool }.
End Matched.

(** [cands.find(m => m.position === position)] *)
Definition findByPosition (cands : list Candidate.t) (position : string)
  : option Candidate.t :=
  List.find (fun m => String.eqb (Candidate.position m) position) cands.

(** The value of [match] when the loop body of [estimateTeamPoints] reaches
    [if (match)]. *)
Definition resolveMatch (nameIndex : NameIndex) (entry : Entry.t) : option Candidate.t :=
  let key := normalizeName (Entry.name entry) in
  let match1 := findByPosition (candidates nameIndex key) (Entry.position entry) in
  let match2 :=
    match match1 with
    | Some m => Some m
    | None =>
        match aliasOf key with
        | Some alias => findByPosition (candidates nameIndex alias) (Entry.position entry)
        | None => None
        end
    end in
  match match2 with
  | Some m => Some m
  | None =>
      match nameIndex !! key with
      | Some (first :: _) => Some first
      | _ => None
      end
  end.

(** The test inside the loop over [dstMap.values()]. *)
Definition dstMatches (entry : Entry.t) (d : Projection.t) : bool :=
  includes (lower (Projection.player d)) (chr "d/st")
  && (let teamName := splitHead (chr " D/ST") (chr (Projection.player d)) in
      includes (lower (Entry.name entry)) (toLowerCase teamName)
      || (negb (String.eqb (Projection.team d) "")
          && includes (lower (Entry.name entry)) (lower (Projection.team d)))).

(** The loop over [dstMap.values()] with its [break]. *)
Definition dstScan (entry : Entry.t) (dstMap : list Projection.t) : option Projection.t :=
  List.find (dstMatches entry) dstMap.

Definition isDefense (position : string) : bool :=
  String.eqb position "DEF" || String.eqb position "DST".

Definition matched (entry : Entry.t) (projected : jsnum) : Matched.t :=
  Matched.mk (Entry.name entry) (Entry.position entry) projected (Entry.isStarter entry).

(** One turn of the loop of [estimateTeamPoints], on [(total, details)]. *)
Definition estimateEntry (nameIndex : NameIndex) (dstMap : list Projection.t)
  (acc : jsnum * list Matched.t) (entry : Entry.t) : jsnum * list Matched.t :=
  let '(total, details) := acc in
  match resolveMatch nameIndex entry with
  | Some m =>
      (jsnum_add total (Candidate.fantasy m),
       details ++ [matched entry (Candidate.fantasy m)])
  | None =>
      if isDefense (Entry.position entry)
      then
        match dstScan entry dstMap with
        | Some d =>
            (jsnum_add total (Projection.fantasy d),
             details ++ [matched entry (Projection.fantasy d)])
        | None => (total, details)
        end
      else (total, details ++ [matched entry (Fin 0)])
  end.

Definition estimateTeamPoints (roster : Roster.t) (nameIndex : NameIndex)
  (dstMap : list Projection.t) : jsnum * list Matched.t :=
  fold_left (estimateEntry nameIndex dstMap) (Roster.entries roster) (Fin 0, []).

(** ** The ranking aggregator *)

Module TeamResult.
Record t : Type := mk { teamName : string; totalProjected : jsnum; players : list Matched.t }.
End TeamResult.

Module Ranked.
Record t : Type :=
  mk { rank : nat; teamName : string; totalProjected : jsnum; players : list Matched.t }.
End Ranked.

Definition teamResult (nameIndex : NameIndex) (dstMap : list Projection.t)
  (roster : Roster.t) : TeamResult.t :=
  let '(total, details) := estimateTeamPoints roster nameIndex dstMap in
  TeamResult.mk (Roster.teamName roster) total details.

(** [(a, b) => b.totalProjected - a.totalProjected] *)
Definition byTotalDescending (a b : TeamResult.t) : comparison :=
  sortSign (jsnum_sub (TeamResult.totalProjected b) (TeamResult.totalProjected a)).

(** [results.map((r, idx) => ({ rank: idx + 1, ...r }))] *)
Definition withRank (results : list TeamResult.t) : list Ranked.t :=
  imap
    (fun idx r =>
       Ranked.mk (idx + 1) (TeamResult.teamName r) (TeamResult.totalProjected r)
         (TeamResult.players r))
    results.

(** The body of the rankings handler once projections and rosters are
    there. *)
Definition rankings (projections : Projections.t) (rosters : list Roster.t) : list Ranked.t :=
  let nameIndex := buildNameIndex (allMaps projections) in
  let results := map (teamResult nameIndex (Projections.dsts projections)) rosters in
  withRank (sortBy byTotalDescending results).

Definition unrank (r : Ranked.t) : TeamResult.t :=
  TeamResult.mk (Ranked.teamName r) (Ranked.totalProjected r) (Ranked.players r).

(** ** The availability aggregator *)

Module Available.
Record t : Type := mk { player : string; position : string; projected : jsnum; team : string }.
End Available.

Module Rostered.
Record t : Type :=
  mk { rosteredByPos : gmap string (gset string); rosteredDstTeams : list chars }.
End Rostered.

(** The body of the loop over the entries of every roster. *)
Definition noteEntry (acc : Rostered.t) (entry : Entry.t) : Rostered.t :=
  let pos := Entry.position entry in
  let set := default ∅ (Rostered.rosteredByPos acc !! pos) in
  let key := normalizeName (Entry.name entry) in
  let set1 := {[key]} ∪ set in
  let set2 := match aliasOf key with Some alias => {[alias]} ∪ set1 | None => set1 end in
  Rostered.mk
    (<[pos := set2]> (Rostered.rosteredByPos acc))
    (if String.eqb pos "DST" || String.eqb pos "DEF"
     then Rostered.rosteredDstTeams acc ++ [lower (Entry.name entry)]
     else Rostered.rosteredDstTeams acc).

Definition noteRosters (rosters : list Roster.t) : Rostered.t :=
  fold_left (fun acc r => fold_left noteEntry (Roster.entries r) acc)
    rosters (Rostered.mk ∅ []).

(** The franchise name [isDstRostered] compares: the lower-cased name up to
    its first " d/st". *)
Definition dstTeamName (dstPlayerName : string) : chars :=
  let lowered := lower dstPlayerName in
  if includes lowered (chr " d/st") then splitHead (chr " d/st") lowered else lowered.

Definition isDstRostered (rosteredDstTeams : list chars) (dstPlayerName teamCode : string)
  : bool :=
  let teamName := dstTeamName dstPlayerName in
  List.existsb
    (fun rosterName =>
       includes rosterName teamName
       || (negb (String.eqb teamCode "") && includes rosterName (lower teamCode)))
    rosteredDstTeams.

(** [taken], with the defense branch folded in. *)
Definition isTaken (rostered : Rostered.t) (rec : Projection.t) : bool :=
  if String.eqb (Projection.position rec) "DST"
  then isDstRostered (Rostered.rosteredDstTeams rostered)
         (Projection.player rec) (Projection.team rec)
  else
    match Rostered.rosteredByPos rostered !! Projection.position rec with
    | Some set =>
        let key := normalizeName (Projection.player rec) in
        bool_decide (key ∈ set)
        || match aliasOf key with
           | Some alias => bool_decide (alias ∈ set)
           | None => false
           end
    | None => false
    end.

Definition toAvailable (rec : Projection.t) : Available.t :=
  Available.mk (Projection.player rec) (Projection.position rec)
    (Projection.fantasy rec) (Projection.team rec).

(** [(a, b) => b.projected - a.projected] *)
Definition byProjectedDescending (a b : Available.t) : comparison :=
  sortSign (jsnum_sub (Available.projected b) (Available.projected a)).

(** The body of the availability handler once projections and rosters are
    there: the [available] array of the response. *)
Definition available (projections : Projections.t) (rosters : list Roster.t)
  : list Available.t :=
  let rostered := noteRosters rosters in
  let unsorted :=
    map toAvailable
      (List.filter (fun rec => negb (isTaken rostered rec)) (concat (allMaps projections))) in
  sortBy byProjectedDescending unsorted.

(** ** Resolving the league identifier *)

(** What a handler does with a request before any I/O: answer 400, or go on
    with a league identifier. *)
Inductive Resolution : Type :=
  | Status400 (error : string)
  | Proceed (leagueId : string).

(** The handlers that compute in place ([/api/rankings] and [/api/available]
    of the server, [api/available.js], the self-contained [api/rankings.js]):
    query parameter, then environment, then [DEFAULT_LEAGUE_ID]. *)
Definition resolveLeagueId (query env : option string) : Resolution :=
  let leagueId :=
    orElse (Some (trimS (orElse query "")))
      (orElse (Some (trimS (orElse env ""))) DEFAULT_LEAGUE_ID) in
  if String.eqb leagueId "" then Status400 "Missing LEAGUE_ID" else Proceed leagueId.

(** The handlers that delegate to [computeRankings] (the wrapper
    [api/rankings.js] and the slim server):
    [process.env.LEAGUE_ID || String(req.query.leagueId || '').trim()]. *)
Definition resolveLeagueId_delegating (query env : option string) : Resolution :=
  let leagueId := orElse env (trimS (orElse query "")) in
  if String.eqb leagueId "" then Status400 "Missing LEAGUE_ID" else Proceed leagueId.

(** ** The specification's wording, for comparison with the code *)

(** *** The normalizer

    The steps of the contract, each written on its own terms: a table of
    capital and small letters, the characters to remove and to replace
    given as such, words and fields cut out of the text. *)

(** The capital letters among the code units 0..255 with their small
    letters: A to Z, and the accented capitals U+00C0 to U+00DE (the
    multiplication sign U+00D7 is not a letter), whose small letters stand
    32 places further. *)
Definition capitalLetters : list (ascii * ascii) :=
  zip (chr "ABCDEFGHIJKLMNOPQRSTUVWXYZ") (chr "abcdefghijklmnopqrstuvwxyz")
  ++ map (fun n => (Ascii.ascii_of_nat n, Ascii.ascii_of_nat (n + 32)))
       (seq 192 23 ++ seq 216 7).

Definition spec_lowerChar (c : ascii) : ascii :=
  match List.find (fun p => Ascii.eqb (fst p) c) capitalLetters with
  | Some p => snd p
  | None => c
  end.

(** The text without the characters [xs]. *)
Definition without (xs : chars) (s : chars) : chars :=
  flat_map (fun c => if bool_decide (c ∈ xs) then [] else [c]) s.

(** The text with [y] for every [x]. *)
Definition replacing (x y : ascii) (s : chars) : chars :=
  flat_map (fun c => if bool_decide (c = x) then [y] else [c]) s.

Definition spec_suffixTokens : list string := ["jr"; "sr"; "ii"; "iii"; "iv"].

(** The text without the whole words that are suffix tokens, a word being a
    maximal run of characters for which [isWord] holds; [w] is the part of
    the current word already read. *)
Fixpoint withoutTokens (isWord : ascii -> bool) (w s : chars) : chars :=
  let kept := if bool_decide (str w ∈ spec_suffixTokens) then [] else w in
  match s with
  | [] => kept
  | c :: r =>
      if isWord c
      then withoutTokens isWord (w ++ [c]) r
      else kept ++ c :: withoutTokens isWord [] r
  end.

(** White space: TAB, LF, VT, FF, CR, SPACE and NO-BREAK SPACE. *)
Definition whiteSpace : chars := map Ascii.ascii_of_nat [9; 10; 11; 12; 13; 32; 160].

Definition isWhiteSpace (c : ascii) : bool := bool_decide (c ∈ whiteSpace).

(** The fields of a text: its maximal runs of characters that are not white
    space; [w] is the part of the current field already read. *)
Fixpoint fields (w s : chars) : list chars :=
  match s with
  | [] => match w with [] => [] | _ => [w] end
  | c :: r =>
      if isWhiteSpace c
      then match w with [] => fields [] r | _ => w :: fields [] r end
      else fields (w ++ [c]) r
  end.

(** The fields put together again with one space between neighbours: the
    text with its white-space runs collapsed to one space, and trimmed. *)
Fixpoint unwords (ws : list chars) : chars :=
  match ws with
  | [] => []
  | [w] => w
  | w :: rest => w ++ space :: unwords rest
  end.

(** The contract of the normalizer for a given notion of word. *)
Definition normalizeBy (isWord : ascii -> bool) (name : string) : string :=
  let lowered := map spec_lowerChar (chr name) in
  let unpunctuated := without (chr ".'") lowered in
  let spaced := replacing "-"%char space unpunctuated in
  let unsuffixed := withoutTokens isWord [] spaced in
  str (unwords (fields [] unsuffixed)).

(** The letters a-z and A-Z, the digits and the underscore. *)
Definition isAsciiWordChar (c : ascii) : bool :=
  bool_decide
    (c ∈ chr "ABCDEFGHIJKLMNOPQRSTUVWXYZabcdefghijklmnopqrstuvwxyz0123456789_").

(** A character of a word as a reader takes it: a letter of any alphabet
    the code units 0..255 hold (the accented letters U+00C0 to U+00FF less
    the multiplication and division signs, and the ordinal indicators and
    the micro sign), a digit or an underscore. *)
Definition isLetterOrDigit (c : ascii) : bool :=
  isAsciiWordChar c
  || bool_decide
       (c ∈ map Ascii.ascii_of_nat
              ([170; 181; 186] ++ seq 192 23 ++ seq 216 31 ++ seq 248 8)).

(** The normalizer as the specification words it. *)
Definition spec_normalize (name : string) : string := normalizeBy isLetterOrDigit name.

(** A name written with the characters of ASCII only. *)
Definition isAsciiName (name : string) : Prop :=
  Forall (fun c => (code c < 128)%N) (chr name).

(** "Iván Smith", with the accented letter U+00E1 as one code unit. *)
Definition ivanSmith : string :=
  String "I"%char (String "v"%char (String "225"%char "n Smith")).

(** *** The loader, the matching policy and the defense rule *)

(** The points text: the first of the columns [fantasy], [FPTS], [points]
    that is present and not empty, ["0"] when there is none. *)
Definition spec_pointsText (row : Row.t) : string :=
  let nonEmpty (column : option string) :=
    match column with Some s => negb (String.eqb s "") | None => false end in
  match List.find nonEmpty [Row.fantasy row; Row.FPTS row; Row.points row] with
  | Some (Some s) => s
  | _ => "0"
  end.

(** An ordered policy: the first step that finds something decides. *)
Fixpoint firstSuccess {A : Type} (steps : list (option A)) : option A :=
  match steps with
  | [] => None
  | Some a :: _ => Some a
  | None :: rest => firstSuccess rest
  end.

(** Step 1: the first candidate under the normalized name whose position is
    the entry's. *)
Definition spec_step1 (nameIndex : NameIndex) (entry : Entry.t) : option Candidate.t :=
  List.find (fun m => bool_decide (Candidate.position m = Entry.position entry))
    (candidates nameIndex (normalizeName (Entry.name entry))).

(** Step 2: the same among the candidates under the alias of that key, if it
    has one. *)
Definition spec_step2 (nameIndex : NameIndex) (entry : Entry.t) : option Candidate.t :=
  match NAME_ALIASES !! normalizeName (Entry.name entry) with
  | Some alias =>
      List.find (fun m => bool_decide (Candidate.position m = Entry.position entry))
        (candidates nameIndex alias)
  | None => None
  end.

(** Step 3: the first candidate under the original key, whatever its
    position. *)
Definition spec_step3 (nameIndex : NameIndex) (entry : Entry.t) : option Candidate.t :=
  head (candidates nameIndex (normalizeName (Entry.name entry))).

Definition spec_resolve (nameIndex : NameIndex) (entry : Entry.t) : option Candidate.t :=
  firstSuccess
    [spec_step1 nameIndex entry; spec_step2 nameIndex entry; spec_step3 nameIndex entry].

(** The franchise name of a defense record: the name without a trailing
    " D/ST", in whatever case the suffix is written. *)
Definition spec_franchise (player : string) : chars :=
  let name := chr player in
  match stripPrefix (rev (chr " d/st")) (rev (toLowerCase name)) with
  | Some _ => take (length name - 5) name
  | None => name
  end.

(** [needle] occurs in [hay]. *)
Definition occursIn (needle hay : chars) : Prop :=
  exists before after : chars, hay = before ++ needle ++ after.

(** A text in small letters, for comparisons that set letter case aside. *)
Definition small (s : string) : chars := map spec_lowerChar (chr s).

(** [t] is the part of [s] before its first [sep], and the whole of [s]
    when [sep] does not occur in it. *)
Definition textBefore (sep s t : chars) : Prop :=
  (exists rest : chars,
      s = t ++ sep ++ rest
      /\ forall before after, s = before ++ sep ++ after -> length t <= length before)
  \/ (~ occursIn sep s /\ t = s).

(** The defense test of the specification: the franchise name, or the team
    code when there is one, occurs in the display name, case aside. *)
Definition spec_defenseMatch (displayName : string) (d : Projection.t) : Prop :=
  occursIn (map spec_lowerChar (spec_franchise (Projection.player d))) (small displayName)
  \/ (Projection.team d <> ""
      /\ occursIn (small (Projection.team d)) (small displayName)).



(** The same with the suffix in whatever letter case. *)
Definition usualDefenseName (player : string) : Prop :=
  exists franchise : chars,
    small player = franchise ++ chr " d/st" /\ "/"%char ∉ franchise.

(** The name forms of a player: the normalized name and its alias. *)
Definition nameForms (name : string) : list string :=
  let key := normalizeName name in
  key :: match aliasOf key with Some alias => [alias] | None => [] end.

(** An entry and a record name the same player under normalization and
    aliasing: they share a name form. *)
Definition sharesNameForm (entry : Entry.t) (rec : Projection.t) : Prop :=
  exists form : string,
    form ∈ nameForms (Entry.name entry) /\ form ∈ nameForms (Projection.player rec).

Definition isDefenseEntry (entry : Entry.t) : Prop :=
  Entry.position entry = "DST" \/ Entry.position entry = "DEF".

(** Correspondence as the specification has it: by name alone, under
    normalization and aliasing, and for a defense record by the defense
    test against a defense entry. *)
Definition spec_corresponds (entry : Entry.t) (rec : Projection.t) : Prop :=
  if String.eqb (Projection.position rec) "DST"
  then isDefenseEntry entry /\ spec_defenseMatch (Entry.name entry) rec
  else sharesNameForm entry rec.

Definition spec_rostered (rosters : list Roster.t) (rec : Projection.t) : Prop :=
  exists (r : Roster.t) (entry : Entry.t),
    r ∈ rosters /\ entry ∈ Roster.entries r /\ spec_corresponds entry rec.

(** The defense test as the availability check has it: the part of the
    record's name, in small letters, before its first " d/st", or else the
    team code when there is one, occurs in the display name, case aside. *)
Definition availabilityDefenseMatch (displayName : string) (rec : Projection.t) : Prop :=
  (exists franchise : chars,
      textBefore (chr " d/st") (small (Projection.player rec)) franchise
      /\ occursIn franchise (small displayName))
  \/ (Projection.team rec <> ""
      /\ occursIn (small (Projection.team rec)) (small displayName)).

(** Correspondence as the availability check has it: an entry that stands
    for a record other than a defense is listed under the record's
    position, and the defense test is the one above. *)
Definition corresponds (entry : Entry.t) (rec : Projection.t) : Prop :=
  if String.eqb (Projection.position rec) "DST"
  then isDefenseEntry entry /\ availabilityDefenseMatch (Entry.name entry) rec
  else Entry.position entry = Projection.position rec /\ sharesNameForm entry rec.

Definition rostered (rosters : list Roster.t) (rec : Projection.t) : Prop :=
  exists (r : Roster.t) (entry : Entry.t),
    r ∈ rosters /\ entry ∈ Roster.entries r /\ corresponds entry rec.

(** The candidates a record contributes under the key [k]: one for each of
    its name forms that is [k]. *)
Definition contributes (k : string) (p : Projection.t) : list Candidate.t :=
  flat_map
    (fun k' =>
       if bool_decide (k' = k)
       then [Candidate.mk (Projection.player p) (Projection.position p) (Projection.fantasy p)]
       else [])
    (nameForms (Projection.player p)).

(** ** Auxiliary notions for the proofs *)

(** The names noted for a position: [rosteredByPos.get(pos)], empty when
    the position has no set yet. *)
Definition rosteredNames (acc : Rostered.t) (pos : string) : gset string :=
  default ∅ (Rostered.rosteredByPos acc !! pos).

(** What a player of the details shares with the roster entry it stands
    for. *)
Definition entryFacts (e : Entry.t) : string * string * bool :=
  (Entry.name e, Entry.position e, Entry.isStarter e).

Definition matchedFacts (m : Matched.t) : string * string * bool :=
  (Matched.name m, Matched.position m, Matched.isStarter m).

(** The run of word characters at the head of [s], and what follows it
    (used to state the scan invariants). *)
Fixpoint wordAhead (s : chars) : chars :=
  match s with
  | [] => []
  | c :: r => if isWordChar c then c :: wordAhead r else []
  end.

Fixpoint afterWord (s : chars) : chars :=
  match s with
  | [] => []
  | c :: r => if isWordChar c then afterWord r else s
  end.

(** A code unit the first four stages leave alone. *)
Definition settled (c : ascii) : bool :=
  Ascii.eqb (toLowerChar c) c
  && negb (Ascii.eqb c "."%char)
  && negb (Ascii.eqb c "'"%char)
  && negb (Ascii.eqb c "-"%char).

(** No run of word characters of [w ++ s] that ends in [s] is a suffix
    token, [w] being the part of the current run already read. *)
Fixpoint suffixFree (w s : chars) : bool :=
  match s with
  | [] => negb (isSuffixToken w)
  | c :: r =>
      if isWordChar c
      then suffixFree (w ++ [c]) r
      else negb (isSuffixToken w) && suffixFree [] r
  end.

(** White space occurs only as single spaces ([afterSpace]: the code unit
    before was one). *)
Fixpoint spacedOnce (afterSpace : bool) (s : chars) : bool :=
  match s with
  | [] => true
  | c :: r =>
      if isSpaceChar c
      then Ascii.eqb c space && negb afterSpace && spacedOnce true r
      else spacedOnce false r
  end.

Definition startsTrimmed (s : chars) : bool :=
  match s with [] => true | c :: _ => negb (isSpaceChar c) end.

(** ** A small catalog and league for the concrete cases *)

Definition sampleCatalog : Projections.t :=
  Projections.mk [] [Projection.mk "John Doe" "RB" (num "9.5") "NYJ"]
    [Projection.mk "Josh Palmer" "WR" (num "12.4") "BUF"] [] []
    [Projection.mk "Denver D/ST" "DST" (num "7.5") "DEN"].

Definition sampleRosters : list Roster.t :=
  [Roster.mk "1" "Team 1" [Entry.mk "1" "John Doe" "WR" true];
   Roster.mk "2" "Team 2"
     [Entry.mk "2" "Joshua Palmer" "WR" true; Entry.mk "DEN" "Denver Broncos" "DST" true];
   Roster.mk "3" "Team 3" [Entry.mk "3" "John Doe" "RB" false]].

(** ** The roster provider's answers and [fetchSleeperLeagueRosters] *)

(** A league member: [user_id] as [String(u.user_id)] renders it,
    [metadata.team_name] (absent when the member has no metadata or no team
    name in it) and [display_name]. *)
Module User.
Record t : Type :=
  mk { user_id : string; team_name : option string; display_name : option string }.
End User.

(** A roster of the provider: [roster_id] and [owner_id] as rendered in a
    string, the player identifiers and the starters among them. *)
Module SleeperRoster.
Record t : Type :=
  mk { roster_id : string; owner_id : string;
       players : option (list string); starters : option (list string) }.
End SleeperRoster.

Module Player.
Record t : Type :=
  mk { first_name : option string; last_name : option string;
       full_name : option string; position : option string }.
End Player.

(** The three answers the function waits for.  The player directory is a
    plain object, whose properties are the player identifiers; a property
    holds a player, or a value that tests false (null). *)
Module Sleeper.
Record t : Type :=
  mk { users : list User.t; rosters : list SleeperRoster.t;
       players : gmap string (option Player.t) }.
End Sleeper.

(** The names every plain object inherits from [Object.prototype]. *)
Definition objectPrototypeKeys : list string :=
  ["constructor"; "__defineGetter__"; "__defineSetter__"; "hasOwnProperty";
   "__lookupGetter__"; "__lookupSetter__"; "isPrototypeOf"; "propertyIsEnumerable";
   "toString"; "valueOf"; "__proto__"; "toLocaleString"].

(** [players[pid]], as [if (!p) continue] and the reads of [p.first_name],
    [p.last_name], [p.full_name] and [p.position] see it: the property of
    the directory itself when it has one; otherwise, for a name of
    [Object.prototype], the inherited member, a function or the prototype,
    which tests true and has none of the four properties; nothing for any
    other name. *)
Definition directoryGet (directory : gmap string (option Player.t)) (pid : string)
  : option Player.t :=
  match directory !! pid with
  | Some own => own
  | None =>
      if bool_decide (pid ∈ objectPrototypeKeys)
      then Some (Player.mk None None None None)
      else None
  end.

(** [usersById]: a later member with the same identifier replaces an
    earlier one. *)
Definition usersById (users : list User.t) : gmap string User.t :=
  fold_left (fun byId u => <[User.user_id u := u]> byId) users ∅.

(** [parts.join(sep)] *)
Fixpoint join (sep : string) (parts : list string) : string :=
  match parts with
  | [] => ""
  | [p] => p
  | p :: rest => String.append p (String.append sep (join sep rest))
  end.

(** [[a, b].filter(Boolean)] on properties that are strings when present. *)
Definition filterBoolean (parts : list (option string)) : list string :=
  flat_map
    (fun v => match v with
              | Some s => if String.eqb s "" then [] else [s]
              | None => []
              end)
    parts.

(** [fullName] *)
Definition fullName (p : Player.t) (pid : string) : string :=
  orElse
    (Some (trimS (join " " (filterBoolean [Player.first_name p; Player.last_name p]))))
    (orElse (Player.full_name p) (orElse (Player.last_name p) pid)).

(** [(p.position === 'DEF' ? 'DST' : p.position) || 'FLEX'] *)
Definition entryPosition (p : Player.t) : string :=
  orElse
    (match Player.position p with
     | Some pos => if String.eqb pos "DEF" then Some "DST" else Some pos
     | None => None
     end)
    "FLEX".

(** The entries of one roster: the identifiers for which [players[pid]]
    gives something that tests true, in order. *)
Definition rosterEntries (directory : gmap string (option Player.t)) (r : SleeperRoster.t)
  : list Entry.t :=
  let allIds := default [] (SleeperRoster.players r) in
  let startersSet : gset string := list_to_set (default [] (SleeperRoster.starters r)) in
  omap
    (fun pid =>
       match directoryGet directory pid with
       | Some p =>
           Some (Entry.mk pid (fullName p pid) (entryPosition p)
                   (bool_decide (pid ∈ startersSet)))
       | None => None
       end)
    allIds.

(** [owner?.metadata?.team_name || owner?.display_name || `Team ${r.roster_id}`] *)
Definition rosterTeamName (byId : gmap string User.t) (r : SleeperRoster.t) : string :=
  let owner := byId !! SleeperRoster.owner_id r in
  orElse (owner ≫= User.team_name)
    (orElse (owner ≫= User.display_name)
       (String.append "Team " (SleeperRoster.roster_id r))).

(** [fetchSleeperLeagueRosters], on the answers of the three requests. *)
Definition fetchSleeperLeagueRosters (data : Sleeper.t) : list Roster.t :=
  let byId := usersById (Sleeper.users data) in
  map
    (fun r =>
       Roster.mk (SleeperRoster.roster_id r) (rosterTeamName byId r)
         (rosterEntries (Sleeper.players data) r))
    (Sleeper.rosters data).

(** ** Further notions for the properties of the remaining code *)

(** An identifier for which the directory gives an entry: a property of the
    directory that holds a player, or, when the directory has no property
    of that name, a name of [Object.prototype]. *)
Definition yieldsEntry (directory : gmap string (option Player.t)) (pid : string) : bool :=
  match directory !! pid with
  | Some (Some _) => true
  | Some None => false
  | None => bool_decide (pid ∈ objectPrototypeKeys)
  end.

(** [records.get(key)] on the ordered [Map] of a position. *)
Definition mapGet (key : string) (records : list Projection.t) : option Projection.t :=
  List.find (fun r => String.eqb (Projection.player r) key) records.

(** The index entry a record leaves. *)
Definition candidateOf (p : Projection.t) : Candidate.t :=
  Candidate.mk (Projection.player p) (Projection.position p) (Projection.fantasy p).

(** An entry the loop of [estimateTeamPoints] passes without a push: a
    defense that no step and no defense record matches. *)
Definition isDropped (nameIndex : NameIndex) (dstMap : list Projection.t)
  (entry : Entry.t) : bool :=
  match resolveMatch nameIndex entry with
  | Some _ => false
  | None =>
      isDefense (Entry.position entry)
      && match dstScan entry dstMap with Some _ => false | None => true end
  end.

(** The first four stages of the normalizer, which work code unit by code
    unit. *)
Definition earlyStages (s : chars) : chars :=
  replaceChar "-"%char space
    (removeChar "'"%char (removeChar "."%char (toLowerCase s))).

(** What the loader stores for an admitted row. *)
Definition wellLoaded (position : string) (r : Projection.t) : Prop :=
  Projection.player r <> ""
  /\ trimS (Projection.player r) = Projection.player r
  /\ Projection.position r = position
  /\ Projection.fantasy r <> NaN
  /\ trimS (Projection.team r) = Projection.team r.


(** A number as sums leave it: a double, which rounding does not change. *)
Definition canonical (t : jsnum) : Prop :=
  match t with Fin k => roundDouble k 1 = Fin k | _ => True end.

(** A number that is at least 0, as the data model has the points. *)
Definition nonnegative (a : jsnum) : bool := jsnum_geb a (Fin 0).

(** The points the loop of [estimateTeamPoints] gives an entry it keeps. *)
Definition pointsFor (nameIndex : NameIndex) (dstMap : list Projection.t)
  (entry : Entry.t) : jsnum :=
  match resolveMatch nameIndex entry with
  | Some m => Candidate.fantasy m
  | None =>
      if isDefense (Entry.position entry)
      then match dstScan entry dstMap with
           | Some d => Projection.fantasy d
           | None => Fin 0
           end
      else Fin 0
  end.
(** * Properties *)

Example normalizeName_cam_ward : normalizeName "Cam Ward" = "cam ward".
Proof. reflexivity. Qed.
Example normalizeName_swift : normalizeName "D'Andre Swift Jr." = "dandre swift".
Proof. reflexivity. Qed.
Example normalizeName_chase : normalizeName "Ja-Marr Chase" = "ja marr chase".
Proof. reflexivity. Qed.
Example normalizeName_iii : normalizeName "  Robert  Griffin III " = "robert griffin".
Proof. reflexivity. Qed.
Example normalizeName_inner : normalizeName "Junior Srii" = "junior srii".
Proof. reflexivity. Qed.
Example normalizeName_white_space :
  normalizeName (String "009"%char (String "160"%char "Cam   Ward ")) = "cam ward".
Proof. reflexivity. Qed.

(** ** Facts about code units *)

Ltac each_code c := destruct c as [[] [] [] [] [] [] [] []].

Lemma chr_str (l : chars) : chr (str l) = l.
Proof. apply String.list_ascii_of_string_of_list_ascii. Qed.

Lemma str_chr (s : string) : str (chr s) = s.
Proof. apply String.string_of_list_ascii_of_string. Qed.

Lemma space_not_word c : isSpaceChar c = true -> isWordChar c = false.
Proof. each_code c; vm_compute; congruence. Qed.

Lemma toLowerChar_settles c :
  let c' := toLowerChar c in
  Ascii.eqb c' "."%char = false ->
  Ascii.eqb c' "'"%char = false ->
  settled (if Ascii.eqb c' "-"%char then space else c') = true.
Proof. each_code c; vm_compute; congruence. Qed.

Lemma settled_lower c : settled c = true -> toLowerChar c = c.
Proof. each_code c; vm_compute; congruence. Qed.

Lemma settled_keep c x :
  settled c = true -> x = "."%char \/ x = "'"%char \/ x = "-"%char ->
  Ascii.eqb c x = false.
Proof.
  intros Hc [-> | [-> | ->]]; revert Hc; each_code c; vm_compute; congruence.
Qed.

(** ** The suffix scan removes exactly the word runs that are tokens *)

Lemma stripPrefix_app t r : stripPrefix t (t ++ r) = Some r.
Proof. induction t as [|a t IH]; simpl; [done|]. by rewrite Ascii.eqb_refl. Qed.

Lemma stripPrefix_Some t s r : stripPrefix t s = Some r -> s = t ++ r.
Proof.
  revert s. induction t as [|a t IH]; intros [|b s]; simpl; try congruence.
  destruct (Ascii.eqb a b) eqn:E; [|done].
  apply Ascii.eqb_eq in E as ->. intros H. by rewrite (IH _ H).
Qed.

Lemma word_split s : s = wordAhead s ++ afterWord s.
Proof. induction s as [|c r IH]; simpl; [done|]. destruct (isWordChar c); simpl; congruence. Qed.

Lemma wordAhead_word s : Forall (fun c => isWordChar c = true) (wordAhead s).
Proof.
  induction s as [|c r IH]; simpl; [constructor|].
  destruct (isWordChar c) eqn:E; by constructor.
Qed.

Lemma afterWord_ends s : isWordOpt (head (afterWord s)) = false.
Proof. induction s as [|c r IH]; simpl; [done|]. by destruct (isWordChar c) eqn:E. Qed.

(** A text splits in one way only into a run of word characters and a rest
    that does not start with one. *)
Lemma word_split_unique (t w r r' : chars) :
  Forall (fun c => isWordChar c = true) t ->
  Forall (fun c => isWordChar c = true) w ->
  isWordOpt (head r) = false -> isWordOpt (head r') = false ->
  t ++ r = w ++ r' -> t = w /\ r = r'.
Proof.
  revert w. induction t as [|a t IH]; intros [|b w] Ht Hw Hr Hr' E; simpl in *.
  - done.
  - subst r. simpl in Hr. inversion Hw; congruence.
  - subst r'. simpl in Hr'. inversion Ht; congruence.
  - inversion Ht; inversion Hw; subst. injection E as -> E.
    destruct (IH w) as [-> ->]; auto.
Qed.

Lemma last_word (t : chars) :
  t <> [] -> Forall (fun c => isWordChar c = true) t -> isWordOpt (last t) = true.
Proof.
  induction t as [|a [|b t] IH]; intros Hne Ht; [done| |].
  - simpl. by inversion Ht.
  - inversion Ht; subst. change (last (a :: b :: t)) with (last (b :: t)). by apply IH.
Qed.

Lemma matchAlternative_word (t w r : chars) :
  t <> [] ->
  Forall (fun c => isWordChar c = true) t ->
  Forall (fun c => isWordChar c = true) w ->
  isWordOpt (head r) = false ->
  matchAlternative t (w ++ r) = if bool_decide (t = w) then Some (length w) else None.
Proof.
  intros Hne Ht Hw Hr. unfold matchAlternative, wordBoundary.
  rewrite (last_word t Hne Ht). simpl.
  destruct (stripPrefix t (w ++ r)) as [r'|] eqn:E.
  - apply stripPrefix_Some in E.
    destruct (isWordOpt (head r')) eqn:Hr'; simpl.
    + rewrite bool_decide_eq_false_2; [done|]. intros ->.
      apply app_inv_head in E. congruence.
    + symmetry in E. destruct (word_split_unique t w r' r) as [-> _]; auto.
      by rewrite bool_decide_eq_true_2.
  - rewrite bool_decide_eq_false_2; [done|]. intros ->.
    by rewrite stripPrefix_app in E.
Qed.

Lemma firstAlternative_word (ts : list chars) (w r : chars) :
  Forall (fun t => t <> [] /\ Forall (fun c => isWordChar c = true) t) ts ->
  Forall (fun c => isWordChar c = true) w ->
  isWordOpt (head r) = false ->
  firstAlternative ts (w ++ r)
  = if List.existsb (fun t => bool_decide (t = w)) ts then Some (length w) else None.
Proof.
  intros Hts Hw Hr. induction Hts as [|t ts [Hne Ht] _ IH]; simpl; [done|].
  rewrite matchAlternative_word by done.
  by destruct (bool_decide (t = w)).
Qed.

Lemma suffixTokens_words :
  Forall (fun t => t <> [] /\ Forall (fun c => isWordChar c = true) t) suffixTokens.
Proof. repeat constructor; done. Qed.

Lemma firstAlternative_suffix (s : chars) :
  firstAlternative suffixTokens s
  = if isSuffixToken (wordAhead s) then Some (length (wordAhead s)) else None.
Proof.
  rewrite (word_split s) at 1.
  apply firstAlternative_word;
    auto using suffixTokens_words, wordAhead_word, afterWord_ends.
Qed.

(** The three situations of the scan: at the start of a run, inside a run
    that stays, inside a run that is being dropped. *)
Lemma replaceSuffixes_runs (s : chars) :
  (forall prev, isWordOpt prev = false ->
     replaceSuffixes prev 0 s = dropSuffixWords [] s)
  /\ (forall prev w, isWordOpt prev = true ->
        isSuffixToken (w ++ wordAhead s) = false ->
        w ++ replaceSuffixes prev 0 s = dropSuffixWords w s)
  /\ (forall prev w, isSuffixToken (w ++ wordAhead s) = true ->
        replaceSuffixes prev (length (wordAhead s)) s = dropSuffixWords w s).
Proof.
  induction s as [|c r (IH0 & IH1 & IH2)].
  - simpl. split; [done|]. split; intros prev w; rewrite app_nil_r; unfold keepWord.
    + by intros _ ->.
    + by intros ->.
  - split; [|split].
    + intros prev Hp. cbn [replaceSuffixes dropSuffixWords].
      unfold matchSuffixAt, wordBoundary. rewrite Hp. cbn [head isWordOpt xorb].
      destruct (isWordChar c) eqn:Hc.
      * rewrite firstAlternative_suffix. cbn [wordAhead]. rewrite Hc.
        destruct (isSuffixToken (c :: wordAhead r)) eqn:Htok.
        -- cbn [length pred]. by apply IH2.
        -- by apply (IH1 (Some c) [c]).
      * unfold keepWord. simpl. f_equal. by apply IH0.
    + intros prev w Hp Htok. cbn [replaceSuffixes dropSuffixWords].
      unfold matchSuffixAt, wordBoundary. rewrite Hp. cbn [head isWordOpt].
      cbn [wordAhead] in Htok.
      destruct (isWordChar c) eqn:Hc; cbn [xorb negb].
      * rewrite <- (IH1 (Some c) (w ++ [c])); [by rewrite <- app_assoc|done|].
        by rewrite <- app_assoc.
      * rewrite app_nil_r in Htok. rewrite firstAlternative_suffix.
        cbn [wordAhead]. rewrite Hc. unfold keepWord. rewrite Htok.
        change (isSuffixToken []) with false. cbv iota.
        f_equal. f_equal. by apply IH0.
    + intros prev w Htok. cbn [wordAhead] in *. cbn [dropSuffixWords].
      destruct (isWordChar c) eqn:Hc.
      * cbn [length replaceSuffixes]. apply IH2. by rewrite <- app_assoc.
      * rewrite app_nil_r in Htok. unfold keepWord. rewrite Htok.
        cbn [length replaceSuffixes app].
        assert (matchSuffixAt prev (c :: r) = None) as ->.
        { unfold matchSuffixAt. destruct (wordBoundary prev (head (c :: r))); [|done].
          rewrite firstAlternative_suffix. cbn [wordAhead]. by rewrite Hc. }
        f_equal. by apply IH0.
Qed.

Lemma replaceSuffixes_dropSuffixWords (s : chars) :
  replaceSuffixes None 0 s = dropSuffixWords [] s.
Proof. by apply replaceSuffixes_runs. Qed.

(** ** What each stage of the normalizer establishes and preserves *)

Lemma trimEnd_cons c r :
  trimEnd (c :: r)
  = match trimEnd r with [] => if isSpaceChar c then [] else [c] | _ => c :: trimEnd r end.
Proof. simpl. by destruct (trimEnd r). Qed.

Lemma dropSuffixWords_Forall (P : ascii -> Prop) (s w : chars) :
  Forall P w -> Forall P s -> Forall P (dropSuffixWords w s).
Proof.
  revert w. induction s as [|c r IH]; intros w Hw Hs; simpl.
  - unfold keepWord. by destruct (isSuffixToken w).
  - inversion Hs; subst. destruct (isWordChar c).
    + apply IH; [|done]. apply Forall_app. by split; [|constructor].
    + apply Forall_app. split.
      * unfold keepWord. by destruct (isSuffixToken w).
      * constructor; [done|]. by apply IH.
Qed.

Lemma collapseSpaces_Forall (P : ascii -> Prop) (b : bool) (s : chars) :
  P space -> Forall P s -> Forall P (collapseSpaces b s).
Proof.
  intros Hsp Hs. revert b. induction Hs as [|c r Hc _ IH]; intros b; simpl; [done|].
  destruct (isSpaceChar c); [destruct b|]; auto.
Qed.

Lemma trimStart_Forall (P : ascii -> Prop) (s : chars) :
  Forall P s -> Forall P (trimStart s).
Proof.
  induction 1 as [|c r Hc Hr IH]; simpl; [done|].
  destruct (isSpaceChar c); auto.
Qed.

Lemma trimEnd_Forall (P : ascii -> Prop) (s : chars) :
  Forall P s -> Forall P (trimEnd s).
Proof.
  induction 1 as [|c r Hc Hr IH]; [done|]. rewrite trimEnd_cons.
  destruct (trimEnd r); [destruct (isSpaceChar c)|]; auto.
Qed.

Lemma early_stages_settled (s : chars) :
  Forall (fun c => settled c = true)
    (replaceChar "-"%char space
       (removeChar "'"%char (removeChar "."%char (toLowerCase s)))).
Proof.
  induction s as [|c r IH]; [constructor|].
  pose proof (toLowerChar_settles c) as Hc. simpl in Hc.
  unfold replaceChar, removeChar, toLowerCase in *. simpl.
  destruct (Ascii.eqb (toLowerChar c) ".") eqn:E1; simpl; [done|].
  destruct (Ascii.eqb (toLowerChar c) "'") eqn:E2; simpl; [done|].
  constructor; auto.
Qed.

Lemma settled_early_stages (s : chars) :
  Forall (fun c => settled c = true) s ->
  replaceChar "-"%char space
    (removeChar "'"%char (removeChar "."%char (toLowerCase s))) = s.
Proof.
  induction 1 as [|c r Hc Hr IH]; [done|].
  unfold replaceChar, removeChar, toLowerCase in *. simpl.
  rewrite (settled_lower c Hc), (settled_keep c "."%char) by auto. simpl.
  rewrite (settled_keep c "'"%char) by auto. simpl.
  rewrite (settled_keep c "-"%char) by auto. by f_equal.
Qed.

(** *** Suffix tokens *)

Lemma suffixFree_word (w v s : chars) :
  Forall (fun c => isWordChar c = true) w ->
  suffixFree v (w ++ s) = suffixFree (v ++ w) s.
Proof.
  intros Hw. revert v. induction Hw as [|c w Hc _ IH]; intros v; simpl.
  - by rewrite app_nil_r.
  - rewrite Hc, IH. by rewrite <- app_assoc.
Qed.

Lemma suffixFree_keepWord (w : chars) : isSuffixToken (keepWord w) = false.
Proof. unfold keepWord. by destruct (isSuffixToken w) eqn:E. Qed.

Lemma keepWord_word (w : chars) :
  Forall (fun c => isWordChar c = true) w ->
  Forall (fun c => isWordChar c = true) (keepWord w).
Proof. unfold keepWord. by destruct (isSuffixToken w). Qed.

Lemma dropSuffixWords_suffixFree (s w : chars) :
  Forall (fun c => isWordChar c = true) w ->
  suffixFree [] (dropSuffixWords w s) = true.
Proof.
  revert w. induction s as [|c r IH]; intros w Hw; simpl.
  - rewrite <- (app_nil_r (keepWord w)), suffixFree_word by by apply keepWord_word.
    simpl. by rewrite suffixFree_keepWord.
  - destruct (isWordChar c) eqn:Hc.
    + apply IH. apply Forall_app. by split; [|constructor].
    + rewrite suffixFree_word by by apply keepWord_word.
      simpl. rewrite Hc, suffixFree_keepWord. by apply IH.
Qed.

Lemma suffixFree_fixed (s w : chars) :
  suffixFree w s = true -> dropSuffixWords w s = w ++ s.
Proof.
  revert w. induction s as [|c r IH]; intros w; simpl; unfold keepWord.
  - destruct (isSuffixToken w); [done|]. by rewrite app_nil_r.
  - destruct (isWordChar c).
    + intros H. rewrite (IH _ H). by rewrite <- app_assoc.
    + destruct (isSuffixToken w); [done|]. simpl. intros H. by rewrite (IH _ H).
Qed.

Lemma collapseSpaces_suffixFree (s w : chars) (b : bool) :
  (b = true -> w = []) ->
  suffixFree w s = true -> suffixFree w (collapseSpaces b s) = true.
Proof.
  revert w b. induction s as [|c r IH]; intros w b Hb; simpl; [done|].
  destruct (isSpaceChar c) eqn:Hs.
  - rewrite (space_not_word c Hs). intros [Hw Hr]%andb_prop.
    destruct b; simpl.
    + rewrite (Hb eq_refl). by apply IH.
    + rewrite Hw. by apply IH.
  - simpl. destruct (isWordChar c).
    + apply IH. congruence.
    + intros [Hw Hr]%andb_prop. rewrite Hw. apply IH; [done|]. done.
Qed.

Lemma trimStart_suffixFree (s : chars) :
  suffixFree [] s = true -> suffixFree [] (trimStart s) = true.
Proof.
  induction s as [|c r IH]; simpl; [done|].
  destruct (isSpaceChar c) eqn:Hs; [|done].
  rewrite (space_not_word c Hs). simpl. done.
Qed.

Lemma trimEnd_suffixFree (s w : chars) :
  suffixFree w s = true -> suffixFree w (trimEnd s) = true.
Proof.
  revert w. induction s as [|c r IH]; intros w; [done|].
  rewrite trimEnd_cons. simpl.
  destruct (isWordChar c) eqn:Hc.
  - intros H. specialize (IH _ H).
    destruct (trimEnd r) eqn:E.
    + destruct (isSpaceChar c) eqn:Hs; [by rewrite (space_not_word c Hs) in Hc|].
      simpl. by rewrite Hc.
    + simpl. by rewrite Hc.
  - intros [Hw Hr]%andb_prop. specialize (IH _ Hr).
    destruct (trimEnd r) eqn:E.
    + destruct (isSpaceChar c); simpl; [done|]. by rewrite Hc, Hw.
    + simpl. by rewrite Hc, Hw.
Qed.

(** *** White space *)

Lemma collapseSpaces_spacedOnce (s : chars) (b : bool) :
  spacedOnce b (collapseSpaces b s) = true.
Proof.
  revert b. induction s as [|c r IH]; intros b; simpl; [done|].
  destruct (isSpaceChar c) eqn:Hs.
  - destruct b; [done|]. simpl. apply IH.
  - simpl. rewrite Hs. apply IH.
Qed.

Lemma spacedOnce_fixed (s : chars) (b : bool) :
  spacedOnce b s = true -> collapseSpaces b s = s.
Proof.
  revert b. induction s as [|c r IH]; intros b; simpl; [done|].
  destruct (isSpaceChar c).
  - intros [[Hc Hb]%andb_prop Hr]%andb_prop.
    apply Ascii.eqb_eq in Hc as ->. destruct b; [done|]. by rewrite (IH _ Hr).
  - intros Hr. by rewrite (IH _ Hr).
Qed.

Lemma spacedOnce_weaken (s : chars) :
  spacedOnce true s = true -> spacedOnce false s = true.
Proof.
  destruct s as [|c r]; simpl; [done|].
  destruct (isSpaceChar c); [|done]. rewrite andb_false_r. done.
Qed.

Lemma trimStart_spacedOnce (s : chars) :
  spacedOnce false s = true -> spacedOnce false (trimStart s) = true.
Proof.
  induction s as [|c r IH]; [done|]. intros H. simpl in *.
  destruct (isSpaceChar c) eqn:Hs; [|by simpl; rewrite Hs].
  apply andb_prop in H as [_ Hr]. by apply IH, spacedOnce_weaken.
Qed.

Lemma trimEnd_spacedOnce (s : chars) (b : bool) :
  spacedOnce b s = true -> spacedOnce b (trimEnd s) = true.
Proof.
  revert b. induction s as [|c r IH]; intros b; [done|].
  rewrite trimEnd_cons. simpl.
  destruct (isSpaceChar c) eqn:Hs.
  - intros [Hcb Hr]%andb_prop. specialize (IH _ Hr).
    destruct (trimEnd r); [done|]. simpl. by rewrite Hs, Hcb.
  - intros Hr. specialize (IH _ Hr).
    destruct (trimEnd r); simpl; by rewrite Hs.
Qed.

Lemma trimStart_starts (s : chars) : startsTrimmed (trimStart s) = true.
Proof.
  induction s as [|c r IH]; simpl; [done|].
  destruct (isSpaceChar c) eqn:Hs; [done|]. simpl. by rewrite Hs.
Qed.

Lemma trimEnd_starts (s : chars) :
  startsTrimmed s = true -> startsTrimmed (trimEnd s) = true.
Proof.
  destruct s as [|c r]; [done|]. rewrite trimEnd_cons. simpl. intros Hc.
  destruct (trimEnd r); [|done]. destruct (isSpaceChar c) eqn:E; simpl in *; by rewrite ?E.
Qed.

Lemma startsTrimmed_fixed (s : chars) : startsTrimmed s = true -> trimStart s = s.
Proof. destruct s as [|c r]; simpl; [done|]. by destruct (isSpaceChar c). Qed.

Lemma trimEnd_idem (s : chars) : trimEnd (trimEnd s) = trimEnd s.
Proof.
  induction s as [|c r IH]; [done|]. rewrite trimEnd_cons.
  destruct (trimEnd r) as [|d r'] eqn:E.
  - destruct (isSpaceChar c) eqn:Hs; [done|]. simpl. by rewrite Hs.
  - rewrite trimEnd_cons, IH. done.
Qed.

Lemma trim_idem (s : chars) : trim (trim s) = trim s.
Proof.
  unfold trim.
  rewrite (startsTrimmed_fixed (trimEnd (trimStart s))).
  - apply trimEnd_idem.
  - apply trimEnd_starts, trimStart_starts.
Qed.

(** ** The normalizer against the steps of its contract *)

Lemma spec_lowerChar_toLowerChar (c : ascii) : spec_lowerChar c = toLowerChar c.
Proof. each_code c; reflexivity. Qed.

Lemma isWhiteSpace_isSpaceChar (c : ascii) : isWhiteSpace c = isSpaceChar c.
Proof. each_code c; reflexivity. Qed.

Lemma isAsciiWordChar_isWordChar (c : ascii) : isAsciiWordChar c = isWordChar c.
Proof. each_code c; reflexivity. Qed.

Lemma isLetterOrDigit_ascii (c : ascii) :
  (code c < 128)%N -> isLetterOrDigit c = isAsciiWordChar c.
Proof. each_code c; intros H; try reflexivity; by vm_compute in H. Qed.

Lemma spec_lowerChar_ascii (c : ascii) : (code c < 128)%N -> (code (spec_lowerChar c) < 128)%N.
Proof. each_code c; intros H; try exact H; by vm_compute in H. Qed.

Lemma without_removeChar (s : chars) :
  without (chr ".'") s = removeChar "'"%char (removeChar "."%char s).
Proof.
  induction s as [|c s IH]; [done|].
  cbn [without flat_map]. fold (without (chr ".'") s). rewrite IH.
  unfold removeChar. cbn [List.filter].
  case_bool_decide as H.
  - apply elem_of_cons in H as [->|H]; [done|].
    apply list_elem_of_singleton in H as ->. done.
  - apply not_elem_of_cons in H as [H1 H2]. apply not_elem_of_cons in H2 as [H2 _].
    destruct (Ascii.eqb_spec c "."%char); [done|]. cbn [negb List.filter].
    by destruct (Ascii.eqb_spec c "'"%char).
Qed.

Lemma replacing_replaceChar (x y : ascii) (s : chars) :
  replacing x y s = replaceChar x y s.
Proof.
  induction s as [|c s IH]; [done|].
  cbn [replacing flat_map replaceChar map]. fold (replacing x y s). rewrite IH.
  case_bool_decide as H.
  - subst c. by rewrite Ascii.eqb_refl.
  - by destruct (Ascii.eqb_spec c x).
Qed.

Lemma spec_token_isSuffixToken (w : chars) :
  bool_decide (str w ∈ spec_suffixTokens) = isSuffixToken w.
Proof.
  assert (forall t : string, str w = t <-> chr t = w) as Hst.
  { intros t. split; [intros <-; apply chr_str|intros <-; apply str_chr]. }
  unfold isSuffixToken, spec_suffixTokens, suffixTokens. cbn [existsb].
  rewrite orb_false_r.
  apply eq_true_iff_eq. rewrite bool_decide_eq_true, !orb_true_iff, !bool_decide_eq_true.
  rewrite !elem_of_cons, elem_of_nil, !Hst. tauto.
Qed.

Lemma withoutTokens_ext (f g : ascii -> bool) (s w : chars) :
  Forall (fun c => f c = g c) s -> withoutTokens f w s = withoutTokens g w s.
Proof.
  intros H. revert w. induction H as [|c s Hc Hs IH]; intros w; [done|].
  cbn [withoutTokens]. rewrite Hc. destruct (g c); [apply IH|]. by rewrite IH.
Qed.

Lemma withoutTokens_dropSuffixWords (s w : chars) :
  withoutTokens isAsciiWordChar w s = dropSuffixWords w s.
Proof.
  revert w. induction s as [|c s IH]; intros w;
    cbn [withoutTokens dropSuffixWords]; unfold keepWord;
    rewrite spec_token_isSuffixToken; [done|].
  rewrite isAsciiWordChar_isWordChar. destruct (isWordChar c); [apply IH|].
  by rewrite IH.
Qed.

(** Collapsing and trimming leave the fields, one space apart. *)
Lemma trimEnd_fixed (w : chars) :
  Forall (fun c => isSpaceChar c = false) w -> trimEnd w = w.
Proof.
  induction 1 as [|c w Hc Hw IH]; [done|]. rewrite trimEnd_cons, IH, Hc.
  by destruct w.
Qed.

Lemma trimEnd_app (a x : chars) : trimEnd x <> [] -> trimEnd (a ++ x) = a ++ trimEnd x.
Proof.
  intros Hx. induction a as [|c a IH]; [done|].
  cbn [app]. rewrite trimEnd_cons, IH.
  destruct (a ++ trimEnd x) eqn:E; [|done].
  apply app_eq_nil in E as [_ E]. done.
Qed.

Lemma trimEnd_space (w : chars) : trimEnd (w ++ [space]) = trimEnd w.
Proof.
  induction w as [|c w IH]; [done|]. cbn [app]. by rewrite !trimEnd_cons, IH.
Qed.

Lemma trimEnd_starts_word (c : ascii) (x : chars) :
  isSpaceChar c = false -> trimEnd (c :: x) <> [].
Proof. intros Hc. rewrite trimEnd_cons, Hc. by destruct (trimEnd x). Qed.

Lemma fields_nonempty (s w : chars) : w <> [] -> fields w s <> [].
Proof.
  revert w. induction s as [|c s IH]; intros w Hw; cbn [fields].
  - by destruct w.
  - destruct (isWhiteSpace c); [by destruct w|].
    apply IH. by destruct w.
Qed.

Lemma unwords_cons (w : chars) (ws : list chars) :
  ws <> [] -> unwords (w :: ws) = w ++ space :: unwords ws.
Proof. by destruct ws. Qed.

Lemma collapse_fields (s w : chars) :
  Forall (fun c => isSpaceChar c = false) w -> w <> [] ->
  trimEnd (w ++ collapseSpaces false s) = unwords (fields w s)
  /\ trimEnd (w ++ space :: collapseSpaces true s) = unwords (w :: fields [] s).
Proof.
  revert w. induction s as [|c s IH]; intros w Hw Hne.
  - cbn [collapseSpaces fields]. rewrite app_nil_r. split.
    + rewrite trimEnd_fixed by done. by destruct w.
    + change (w ++ [space]) with (w ++ [space]).
      rewrite trimEnd_space, trimEnd_fixed by done. done.
  - destruct (IH w Hw Hne) as [IH1 IH2].
    cbn [collapseSpaces fields]. rewrite isWhiteSpace_isSpaceChar.
    destruct (isSpaceChar c) eqn:Hc.
    + split; [|done]. rewrite IH2. by destruct w.
    + assert (Forall (fun c => isSpaceChar c = false) (w ++ [c])) as Hw'
        by (apply Forall_app; split; [done|by constructor]).
      assert (w ++ [c] <> []) as Hne' by (by destruct w).
      destruct (IH (w ++ [c]) Hw' Hne') as [IH1' _].
      split.
      * rewrite <- IH1'. by rewrite <- app_assoc.
      * destruct (IH [c]) as [IHc _]; [by constructor|done|].
        cbn [app] in IHc.
        rewrite unwords_cons by (by apply fields_nonempty).
        change (fields [c] s) with (fields ([] ++ [c]) s). cbn [app].
        rewrite <- IHc.
        change (w ++ space :: c :: collapseSpaces false s)
          with (w ++ [space] ++ c :: collapseSpaces false s).
        rewrite app_assoc, trimEnd_app by (by apply trimEnd_starts_word).
        by rewrite <- app_assoc.
Qed.

Lemma trimStart_collapse (b : bool) (s : chars) :
  trimStart (collapseSpaces b s) = collapseSpaces false (trimStart s).
Proof.
  revert b. induction s as [|c s IH]; intros b; [done|].
  cbn [collapseSpaces trimStart]. destruct (isSpaceChar c) eqn:Hc.
  - destruct b; [apply IH|]. cbn [trimStart]. change (isSpaceChar space) with true.
    cbv iota. apply IH.
  - cbn [trimStart collapseSpaces]. by rewrite Hc.
Qed.

Lemma fields_trimStart (s : chars) : fields [] (trimStart s) = fields [] s.
Proof.
  induction s as [|c s IH]; [done|]. cbn [trimStart fields].
  rewrite isWhiteSpace_isSpaceChar. destruct (isSpaceChar c) eqn:Hc; [done|].
  cbn [fields]. by rewrite isWhiteSpace_isSpaceChar, Hc.
Qed.

Lemma trim_collapse_fields (s : chars) :
  trim (collapseSpaces false s) = unwords (fields [] s).
Proof.
  unfold trim. rewrite trimStart_collapse, <- fields_trimStart.
  pose proof (trimStart_starts s) as Hst.
  destruct (trimStart s) as [|c r]; [done|].
  cbn [startsTrimmed] in Hst. apply negb_true_iff in Hst.
  cbn [collapseSpaces fields]. rewrite isWhiteSpace_isSpaceChar, Hst.
  destruct (collapse_fields r [c]) as [H _]; [by constructor|done|].
  exact H.
Qed.

(** The normalizer computes the contract read with words of the letters
    a-z and A-Z, digits and underscores. *)
Lemma normalizeName_normalizeBy (name : string) :
  normalizeName name = normalizeBy isAsciiWordChar name.
Proof.
  unfold normalizeName, normalizeChars, normalizeBy. f_equal.
  rewrite <- trim_collapse_fields, withoutTokens_dropSuffixWords,
    <- replaceSuffixes_dropSuffixWords, replacing_replaceChar, without_removeChar.
  by rewrite (map_ext _ _ spec_lowerChar_toLowerChar).
Qed.

Lemma ascii_normalize (name : string) :
  isAsciiName name -> normalizeBy isLetterOrDigit name = normalizeBy isAsciiWordChar name.
Proof.
  unfold isAsciiName, normalizeBy. intros H. do 3 f_equal.
  apply withoutTokens_ext.
  assert (forall l, Forall (fun c => (code c < 128)%N) l ->
            Forall (fun c => isLetterOrDigit c = isAsciiWordChar c) l) as Hall.
  { intros l Hl. eapply Forall_impl; [exact Hl|]. apply isLetterOrDigit_ascii. }
  apply Hall. unfold replacing, without.
  apply Forall_flat_map, Forall_flat_map, Forall_map.
  eapply Forall_impl; [exact H|]. intros c Hc. cbn beta.
  case_bool_decide; [constructor|]. apply Forall_singleton.
  case_bool_decide; apply Forall_singleton; [done|]. by apply spec_lowerChar_ascii.
Qed.

(** A normalized text is settled, free of suffix tokens, single-spaced and
    trimmed, and such a text is left as it is. *)
Lemma normalizeChars_normal (x : chars) :
  let y := normalizeChars x in
  Forall (fun c => settled c = true) y
  /\ suffixFree [] y = true
  /\ spacedOnce false y = true
  /\ trim y = y.
Proof.
  unfold normalizeChars. rewrite replaceSuffixes_dropSuffixWords.
  pose proof (early_stages_settled x) as Hz.
  set (z := replaceChar _ _ _) in *. simpl.
  split; [|split; [|split]].
  - apply trimEnd_Forall, trimStart_Forall, collapseSpaces_Forall; [done|].
    by apply dropSuffixWords_Forall.
  - apply trimEnd_suffixFree, trimStart_suffixFree, collapseSpaces_suffixFree; [done|].
    by apply dropSuffixWords_suffixFree.
  - apply trimEnd_spacedOnce, trimStart_spacedOnce, collapseSpaces_spacedOnce.
  - apply trim_idem.
Qed.

Lemma normal_fixed (y : chars) :
  Forall (fun c => settled c = true) y ->
  suffixFree [] y = true ->
  spacedOnce false y = true ->
  trim y = y ->
  normalizeChars y = y.
Proof.
  intros H1 H2 H3 H4. unfold normalizeChars.
  rewrite settled_early_stages, replaceSuffixes_dropSuffixWords by done.
  rewrite suffixFree_fixed by done. simpl.
  by rewrite spacedOnce_fixed.
Qed.

Lemma normalizeChars_idem (x : chars) :
  normalizeChars (normalizeChars x) = normalizeChars x.
Proof.
  destruct (normalizeChars_normal x) as (H1 & H2 & H3 & H4).
  by apply normal_fixed.
Qed.

(** ** The normalizer: contract and idempotence *)

(** C8, as the code has it. For every input string the normalizer yields
    the key obtained by lower-casing, removing periods and apostrophes,
    replacing hyphens with spaces, removing the suffix tokens jr, sr, ii, iii
    and iv where they stand as whole words, joining what white space
    separates with single spaces, and trimming; where a word is a maximal
    run of the letters a-z and A-Z, digits and underscores, so that any
    other character, an accented letter included, ends a word.  For a name
    written in ASCII this is the key of the specification; and "Cam Ward"
    gives "cam ward", "D'Andre Swift Jr." gives "dandre swift" and
    "Ja-Marr Chase" gives "ja marr chase". *)
Theorem normalizeName_contract :
  (forall name : string, normalizeName name = normalizeBy isAsciiWordChar name)
  /\ (forall name : string, isAsciiName name -> normalizeName name = spec_normalize name)
  /\ normalizeName "Cam Ward" = "cam ward"
  /\ normalizeName "D'Andre Swift Jr." = "dandre swift"
  /\ normalizeName "Ja-Marr Chase" = "ja marr chase".
Proof.
  split; [apply normalizeName_normalizeBy|]. split; [|repeat split; reflexivity].
  intros name H. unfold spec_normalize.
  by rewrite ascii_normalize, normalizeName_normalizeBy.
Qed.

Lemma normalizeName_contract_witness :
  spec_normalize "  Robert  Griffin III " = "robert griffin".
Proof.
  rewrite <- (proj1 (proj2 normalizeName_contract) "  Robert  Griffin III ").
  - reflexivity.
  - unfold isAsciiName. repeat constructor.
Defined.

(** C8, the counterexample to the claim as stated: in "Iván Smith" the
    letters "iv" are no whole word, and the specification keeps them; the
    normalizer, for which the accented letter ends a word, removes them. *)
Lemma accented_letter_ends_a_word :
  normalizeName ivanSmith = String "225"%char "n smith"
  /\ spec_normalize ivanSmith
     = String "i"%char (String "v"%char (String "225"%char "n smith")).
Proof. split; reflexivity. Qed.

(** C9. The normalizer is a function of its argument alone, and applying it
    twice gives what applying it once gives. *)
Theorem normalizeName_idempotent (x : string) :
  normalizeName (normalizeName x) = normalizeName x.
Proof.
  unfold normalizeName, chr, str.
  rewrite String.list_ascii_of_string_of_list_ascii.
  f_equal. apply normalizeChars_idem.
Qed.

(** ** The alias table *)

Lemma NAME_ALIASES_nonempty (key alias : string) :
  NAME_ALIASES !! key = Some alias -> alias <> "".
Proof.
  intros H%elem_of_list_to_map_2.
  repeat (apply elem_of_cons in H as [[= _ ->]|H]; [done|]).
  by apply elem_of_nil in H.
Qed.

Lemma aliasOf_lookup (key : string) : aliasOf key = NAME_ALIASES !! key.
Proof.
  unfold aliasOf. destruct (NAME_ALIASES !! key) as [alias|] eqn:E; [|done].
  apply NAME_ALIASES_nonempty in E.
  destruct (String.eqb_spec alias ""); done.
Qed.

(** Every alias has its mirror entry. *)
Lemma NAME_ALIASES_symmetric (a b : string) :
  NAME_ALIASES !! a = Some b -> NAME_ALIASES !! b = Some a.
Proof.
  intros H%elem_of_list_to_map_2.
  repeat (apply elem_of_cons in H as [[= -> ->]|H]; [by vm_compute|]).
  by apply elem_of_nil in H.
Qed.

(** ** The projection loader *)

Lemma pointsText_spec (row : Row.t) : pointsText row = spec_pointsText row.
Proof.
  destruct row as [p [f|] [g|] [h|] t]; unfold pointsText, spec_pointsText, orElse; simpl;
    repeat match goal with |- context [String.eqb ?s ""] => destruct (String.eqb s "") end;
    reflexivity.
Qed.

Lemma isNaN_false (a : jsnum) : isNaN a = false <-> a <> NaN.
Proof. destruct a; simpl; split; congruence. Qed.

(** C5, as the code has it. For every catalog row the points text is the
    first non-empty column among fantasy, FPTS and points, and "0" when
    there is none; the row is admitted exactly when its trimmed player name
    is not empty and the points text parses to a number, and then with that
    number; a row whose points text does not parse is dropped, a row with an
    empty player name is dropped, and a row without any points value is
    read as 0 points. *)
Theorem loader_admits_row (position : string) (records : list Projection.t) (row : Row.t) :
  let name := trimS (default "" (Row.player row)) in
  let value := parseFloat (chr (spec_pointsText row)) in
  let team := trimS (default "" (Row.team row)) in
  (name <> "" /\ value <> NaN ->
     onData position records row
     = mapSet name (Projection.mk name position value team) records)
  /\ (name = "" -> onData position records row = records)
  /\ (value = NaN -> onData position records row = records)
  /\ ((forall column, column ∈ [Row.fantasy row; Row.FPTS row; Row.points row] ->
         column = None \/ column = Some "") ->
      value = Fin 0).
Proof.
  assert (Hor : forall v, orElse v "" = default "" v).
  { intros [s|]; simpl; [|done]. by destruct (String.eqb_spec s "") as [->|]. }
  unfold onData. rewrite pointsText_spec, !Hor. cbv zeta.
  set (name := trimS _). set (value := parseFloat _).
  split; [|split; [|split]].
  - intros [Hn Hv]. apply isNaN_false in Hv. rewrite Hv.
    by destruct (String.eqb_spec name "").
  - intros ->. done.
  - intros Hv. rewrite Hv. simpl. by rewrite andb_false_r.
  - intros Hcols. subst value. unfold spec_pointsText.
    assert (Hf : Row.fantasy row = None \/ Row.fantasy row = Some "")
      by (apply Hcols; rewrite !elem_of_cons; auto).
    assert (Hg : Row.FPTS row = None \/ Row.FPTS row = Some "")
      by (apply Hcols; rewrite !elem_of_cons; auto).
    assert (Hh : Row.points row = None \/ Row.points row = Some "")
      by (apply Hcols; rewrite !elem_of_cons; auto).
    destruct Hf as [-> | ->], Hg as [-> | ->], Hh as [-> | ->]; reflexivity.
Qed.

Lemma loader_admits_row_witness :
  onData "WR" [] (Row.mk (Some "Josh Palmer ") None (Some "12.4") None (Some "BUF"))
  = [Projection.mk "Josh Palmer" "WR" (num "12.4") "BUF"].
Proof.
  pose proof (loader_admits_row "WR" []
                (Row.mk (Some "Josh Palmer ") None (Some "12.4") None (Some "BUF")))
    as [H _].
  rewrite H; [vm_compute; reflexivity|].
  split; vm_compute; discriminate.
Defined.

(** C5, the counterexample to the claim as stated: a row that has a player
    name and no points value in any of the three columns is not dropped; it
    is admitted with 0 points. *)
Lemma loader_keeps_row_without_points :
  loadCsvProjections [Row.mk (Some "Josh Allen") None None None (Some "BUF")] "QB"
  = [Projection.mk "Josh Allen" "QB" (Fin 0) "BUF"]
  /\ loadCsvProjections [Row.mk (Some "Josh Allen") None None None (Some "BUF")] "QB" <> [].
Proof. split; [reflexivity|]. discriminate. Qed.

Example loader_drops_non_numeric :
  loadCsvProjections [Row.mk (Some "Josh Allen") (Some "n/a") None None None] "QB" = [].
Proof. reflexivity. Qed.

Example loader_column_priority :
  loadCsvProjections
    [Row.mk (Some " Josh Allen ") (Some "") (Some "21.5") (Some "3") (Some "BUF")] "QB"
  = [Projection.mk "Josh Allen" "QB" (num "21.5") "BUF"].
Proof. reflexivity. Qed.

Example loader_last_write_wins :
  map Projection.fantasy
    (loadCsvProjections
       [Row.mk (Some "A") (Some "1") None None None;
        Row.mk (Some "B") (Some "2") None None None;
        Row.mk (Some "A") (Some "3") None None None] "QB")
  = [num "3"; num "2"].
Proof. reflexivity. Qed.

(** ** Resolving the league identifier *)

(** In the handlers that compute in place the query parameter comes first,
    then the environment, then the built-in default. *)
Lemma resolveLeagueId_precedence (query env : option string) :
  resolveLeagueId query env
  = Proceed
      (if bool_decide (trimS (default "" query) <> "") then trimS (default "" query)
       else if bool_decide (trimS (default "" env) <> "") then trimS (default "" env)
       else DEFAULT_LEAGUE_ID).
Proof.
  assert (Hor : forall v, orElse v "" = default "" v).
  { intros [s|]; simpl; [|done]. by destruct (String.eqb_spec s "") as [->|]. }
  unfold resolveLeagueId. rewrite !Hor. unfold orElse.
  destruct (String.eqb_spec (trimS (default "" query)) "") as [Eq|Nq].
  - rewrite Eq. simpl.
    destruct (String.eqb_spec (trimS (default "" env)) "") as [Ee|Ne].
    + rewrite Ee. reflexivity.
    + rewrite bool_decide_eq_true_2 by done.
      by destruct (String.eqb_spec (trimS (default "" env)) "").
  - rewrite bool_decide_eq_true_2 by done.
    by destruct (String.eqb_spec (trimS (default "" query)) "").
Qed.

(** C4, where the code departs from the claim: the handler that delegates
    to [computeRankings] reads the environment first, so a request that names
    league "B" while the process is configured with league "A" is answered
    for "A"; the handlers that compute in place answer it for "B". *)
Theorem delegating_handler_prefers_environment :
  resolveLeagueId_delegating (Some "B") (Some "A") = Proceed "A"
  /\ resolveLeagueId (Some "B") (Some "A") = Proceed "B".
Proof. split; reflexivity. Qed.

Example delegating_handler_missing :
  resolveLeagueId_delegating None None = Status400 "Missing LEAGUE_ID".
Proof. reflexivity. Qed.

(** ** The name index *)

Lemma candidates_pushCandidate (c : Candidate.t) (index : NameIndex) (k k' : string) :
  candidates (pushCandidate c index k') k
  = candidates index k ++ (if bool_decide (k' = k) then [c] else []).
Proof.
  unfold pushCandidate, candidates at 1. rewrite lookup_insert.
  case_decide as E; case_bool_decide; try done; simpl.
  - by subst.
  - by rewrite app_nil_r.
Qed.

Lemma candidates_push_keys (c : Candidate.t) (keys : list string) (index : NameIndex)
  (k : string) :
  candidates (fold_left (pushCandidate c) keys index) k
  = candidates index k
    ++ flat_map (fun k' => if bool_decide (k' = k) then [c] else []) keys.
Proof.
  revert index. induction keys as [|k' keys IH]; intros index; simpl.
  - by rewrite app_nil_r.
  - by rewrite IH, candidates_pushCandidate, <- app_assoc.
Qed.

Lemma candidates_indexRecords (records : list Projection.t) (index : NameIndex)
  (k : string) :
  candidates (fold_left indexRecord records index) k
  = candidates index k ++ flat_map (contributes k) records.
Proof.
  revert index. induction records as [|p records IH]; intros index; simpl.
  - by rewrite app_nil_r.
  - rewrite IH. unfold indexRecord. rewrite candidates_push_keys.
    by rewrite <- app_assoc.
Qed.

(** The candidates under a key are the records that carry it as a name
    form, in catalog load order. *)
Lemma buildNameIndex_candidates (projectionsMaps : list (list Projection.t)) (k : string) :
  candidates (buildNameIndex projectionsMaps) k
  = flat_map (contributes k) (concat projectionsMaps).
Proof.
  unfold buildNameIndex.
  assert (forall index : NameIndex,
    candidates
      (fold_left (fun index map => fold_left indexRecord map index) projectionsMaps index) k
    = candidates index k ++ flat_map (contributes k) (concat projectionsMaps)) as H.
  { induction projectionsMaps as [|m ms IH]; intros index; simpl.
    - by rewrite app_nil_r.
    - by rewrite IH, candidates_indexRecords, flat_map_app, <- app_assoc. }
  by rewrite H.
Qed.

(** ** The matching engine *)

Lemma findByPosition_spec (cands : list Candidate.t) (position : string) :
  findByPosition cands position
  = List.find (fun m => bool_decide (Candidate.position m = position)) cands.
Proof.
  unfold findByPosition. induction cands as [|m cands IH]; simpl; [done|].
  rewrite IH. destruct (String.eqb_spec (Candidate.position m) position).
  - by rewrite bool_decide_eq_true_2.
  - by rewrite bool_decide_eq_false_2.
Qed.

Lemma resolveMatch_spec (nameIndex : NameIndex) (entry : Entry.t) :
  resolveMatch nameIndex entry = spec_resolve nameIndex entry.
Proof.
  unfold resolveMatch, spec_resolve, spec_step1, spec_step2, spec_step3.
  rewrite !findByPosition_spec, aliasOf_lookup. simpl.
  destruct (List.find _ (candidates nameIndex (normalizeName _))); [done|].
  assert (match nameIndex !! normalizeName (Entry.name entry) with
          | Some (first :: _) => Some first
          | _ => None
          end = head (candidates nameIndex (normalizeName (Entry.name entry)))) as ->.
  { unfold candidates. by destruct (nameIndex !! _) as [[|]|]. }
  destruct (NAME_ALIASES !! _); rewrite ?findByPosition_spec;
    repeat match goal with |- context [match ?x with _ => _ end] => destruct x end;
    reflexivity.
Qed.

(** C2. For every roster entry the engine follows the ordered policy: the
    first candidate under the normalized name whose position is the entry's;
    else the first such candidate under the alias of that key, if it has one;
    else the first candidate under the original key whatever its position.
    A step is tried only when the ones before found nothing, and the first
    success is the match whose points the entry gets. *)
Theorem matching_policy (nameIndex : NameIndex) (dstMap : list Projection.t)
  (entry : Entry.t) (total : jsnum) (details : list Matched.t) :
  resolveMatch nameIndex entry
  = firstSuccess
      [spec_step1 nameIndex entry; spec_step2 nameIndex entry; spec_step3 nameIndex entry]
  /\ (forall m : Candidate.t,
        firstSuccess
          [spec_step1 nameIndex entry; spec_step2 nameIndex entry;
           spec_step3 nameIndex entry] = Some m ->
        estimateEntry nameIndex dstMap (total, details) entry
        = (jsnum_add total (Candidate.fantasy m),
           details ++ [matched entry (Candidate.fantasy m)])).
Proof.
  split; [apply resolveMatch_spec|].
  intros m Hm. unfold estimateEntry. rewrite resolveMatch_spec.
  unfold spec_resolve. by rewrite Hm.
Qed.

Lemma matching_policy_witness :
  resolveMatch (buildNameIndex (allMaps sampleCatalog))
    (Entry.mk "1" "Joshua Palmer" "WR" true)
  = Some (Candidate.mk "Josh Palmer" "WR" (num "12.4"))
  /\ estimateEntry (buildNameIndex (allMaps sampleCatalog)) (Projections.dsts sampleCatalog)
       (Fin 0, []) (Entry.mk "1" "Joshua Palmer" "WR" true)
     = (num "12.4", [Matched.mk "Joshua Palmer" "WR" (num "12.4") true]).
Proof.
  pose proof (matching_policy (buildNameIndex (allMaps sampleCatalog))
                (Projections.dsts sampleCatalog)
                (Entry.mk "1" "Joshua Palmer" "WR" true) (Fin 0) []) as [H1 H2].
  split.
  - rewrite H1. vm_compute. reflexivity.
  - rewrite (H2 (Candidate.mk "Josh Palmer" "WR" (num "12.4"))).
    + vm_compute. reflexivity.
    + vm_compute. reflexivity.
Defined.

(** C10. An entry resolved through the position-agnostic fallback (no
    candidate of its position under its key or under the alias, some
    candidate under its key) is reported with its own display name and its
    own position, and with the points of the first candidate under its key,
    whatever that candidate's position and name. *)
Theorem fallback_reports_entry (nameIndex : NameIndex) (dstMap : list Projection.t)
  (entry : Entry.t) (total : jsnum) (details : list Matched.t)
  (first : Candidate.t) (others : list Candidate.t) :
  spec_step1 nameIndex entry = None ->
  spec_step2 nameIndex entry = None ->
  candidates nameIndex (normalizeName (Entry.name entry)) = first :: others ->
  estimateEntry nameIndex dstMap (total, details) entry
  = (jsnum_add total (Candidate.fantasy first),
     details
     ++ [Matched.mk (Entry.name entry) (Entry.position entry)
           (Candidate.fantasy first) (Entry.isStarter entry)]).
Proof.
  intros H1 H2 H3. unfold estimateEntry. rewrite resolveMatch_spec.
  unfold spec_resolve, spec_step3. rewrite H1, H2, H3. reflexivity.
Qed.

Lemma fallback_reports_entry_witness :
  findByPosition
    (candidates (buildNameIndex (allMaps sampleCatalog)) "john doe") "WR" = None
  /\ estimateEntry (buildNameIndex (allMaps sampleCatalog)) (Projections.dsts sampleCatalog)
       (Fin 0, []) (Entry.mk "9" "John Doe" "WR" true)
     = (jsnum_add (Fin 0) (num "9.5"),
        [] ++ [Matched.mk "John Doe" "WR" (num "9.5") true]).
Proof.
  split; [vm_compute; reflexivity|].
  apply (fallback_reports_entry (buildNameIndex (allMaps sampleCatalog))
           (Projections.dsts sampleCatalog) (Entry.mk "9" "John Doe" "WR" true)
           (Fin 0) [] (Candidate.mk "John Doe" "RB" (num "9.5")) []);
    vm_compute; reflexivity.
Defined.

(** A non-defense entry always yields one player, with 0 points when nothing
    was resolved. *)
Lemma estimateEntry_other_positions (nameIndex : NameIndex) (dstMap : list Projection.t)
  (entry : Entry.t) (total : jsnum) (details : list Matched.t) :
  isDefense (Entry.position entry) = false ->
  exists projected : jsnum,
    estimateEntry nameIndex dstMap (total, details) entry
    = (jsnum_add total projected, details ++ [matched entry projected])
    \/ (resolveMatch nameIndex entry = None /\ projected = Fin 0
        /\ estimateEntry nameIndex dstMap (total, details) entry
           = (total, details ++ [matched entry projected])).
Proof.
  intros Hd. unfold estimateEntry. rewrite Hd.
  destruct (resolveMatch nameIndex entry) as [m|]; eauto.
Qed.

(** C1, where the code departs from the claim: a defense entry that no step
    matches, not even the scan of the defense records, yields no player at
    all, while an unmatched entry of another position yields one with 0
    points. *)
Theorem unmatched_defense_entry_is_dropped :
  estimateTeamPoints
    (Roster.mk "7" "Team 7"
       [Entry.mk "DAL" "Dallas Cowboys" "DST" true;
        Entry.mk "4034" "Random Backup" "WR" false])
    (buildNameIndex (allMaps sampleCatalog)) (Projections.dsts sampleCatalog)
  = (Fin 0, [Matched.mk "Random Backup" "WR" (Fin 0) false]).
Proof. vm_compute. reflexivity. Qed.

(** The end-to-end scenario of the alias: "Joshua Palmer" on a roster gets
    the points the catalog lists under "Josh Palmer". *)
Example alias_scenario :
  estimateTeamPoints (Roster.mk "7" "Team 7" [Entry.mk "1" "Joshua Palmer" "WR" true])
    (buildNameIndex (allMaps sampleCatalog)) (Projections.dsts sampleCatalog)
  = (num "12.4", [Matched.mk "Joshua Palmer" "WR" (num "12.4") true]).
Proof. vm_compute. reflexivity. Qed.

(** ** Where every entry does yield one player *)

(** On a roster without an unmatched defense entry the details list the
    entries one for one, in roster order. *)
Lemma estimateTeamPoints_one_each (roster : Roster.t) (nameIndex : NameIndex)
  (dstMap : list Projection.t) :
  (forall e, e ∈ Roster.entries roster ->
     isDefense (Entry.position e) = true ->
     resolveMatch nameIndex e = None -> dstScan e dstMap <> None) ->
  map matchedFacts (estimateTeamPoints roster nameIndex dstMap).2
  = map entryFacts (Roster.entries roster).
Proof.
  unfold estimateTeamPoints.
  assert (forall entries acc,
            (forall e, e ∈ entries -> isDefense (Entry.position e) = true ->
               resolveMatch nameIndex e = None -> dstScan e dstMap <> None) ->
            map matchedFacts (fold_left (estimateEntry nameIndex dstMap) entries acc).2
            = map matchedFacts acc.2 ++ map entryFacts entries) as H.
  { induction entries as [|e entries IH]; intros [total details] Hall; cbn [fold_left].
    - by rewrite app_nil_r.
    - rewrite IH by (intros e' He'; apply Hall; by constructor).
      cbn [map]. rewrite (cons_middle (entryFacts e)), app_assoc. f_equal.
      unfold estimateEntry.
      destruct (resolveMatch nameIndex e) eqn:Em; cbn [snd]; [by rewrite map_app|].
      destruct (isDefense (Entry.position e)) eqn:Ed; cbn [snd]; [|by rewrite map_app].
      destruct (dstScan e dstMap) eqn:Es; cbn [snd]; [by rewrite map_app|].
      by destruct (Hall e (list_elem_of_here _ _) Ed Em). }
  intros Hall. by rewrite H.
Qed.

(** ** Substrings and the text before a separator *)

Lemma stripPrefix_self (t : chars) : stripPrefix t t = Some [].
Proof. rewrite <- (app_nil_r t) at 2. apply stripPrefix_app. Qed.

Lemma includes_unfold (hay needle : chars) :
  includes hay needle
  = match stripPrefix needle hay with
    | Some _ => true
    | None => match hay with [] => false | _ :: h' => includes h' needle end
    end.
Proof. by destruct hay. Qed.

(** [includes] finds exactly the texts that occur. *)
Lemma includes_occursIn (hay needle : chars) :
  includes hay needle = true <-> occursIn needle hay.
Proof.
  split.
  - induction hay as [|c hay IH]; rewrite includes_unfold;
      destruct (stripPrefix needle _) as [r|] eqn:E.
    + intros _. exists [], r. by apply stripPrefix_Some in E.
    + done.
    + intros _. exists [], r. by apply stripPrefix_Some in E.
    + intros (before & after & ->)%IH. by exists (c :: before), after.
  - intros (before & after & ->).
    induction before as [|c before IH]; rewrite includes_unfold.
    + cbn [app]. by rewrite stripPrefix_app.
    + cbn [app]. by destruct (stripPrefix needle _).
Qed.

Lemma lower_small (s : string) : lower s = small s.
Proof.
  unfold lower, small, toLowerCase. symmetry. apply map_ext, spec_lowerChar_toLowerChar.
Qed.

Lemma toLowerCase_small (s : chars) : toLowerCase s = map spec_lowerChar s.
Proof. unfold toLowerCase. symmetry. apply map_ext, spec_lowerChar_toLowerChar. Qed.

(** [splitHead] gives the text before the first separator. *)
Lemma splitHead_textBefore (sep s : chars) : textBefore sep s (splitHead sep s).
Proof.
  induction s as [|c s IH].
  - cbn [splitHead]. destruct (stripPrefix sep []) as [r|] eqn:E.
    + left. exists r. split; [by apply stripPrefix_Some in E|]. intros. cbn. lia.
    + right. split; [|done]. intros (before & after & H).
      symmetry in H. apply app_eq_nil in H as [-> H]. apply app_eq_nil in H as [-> ->].
      done.
  - cbn [splitHead]. destruct (stripPrefix sep (c :: s)) as [r|] eqn:E.
    + left. exists r. split; [by apply stripPrefix_Some in E|]. intros. cbn. lia.
    + assert (forall after, c :: s <> sep ++ after) as Hnot.
      { intros after H. rewrite H, stripPrefix_app in E. done. }
      destruct IH as [(rest & Hs & Hmin)|[Hno Ht]].
      * left. exists rest. split; [cbn [app]; by rewrite <- Hs|].
        intros [|x before] after H; [by destruct (Hnot after)|].
        injection H as _ H. cbn [length]. apply le_n_S. by apply (Hmin before after).
      * right. rewrite Ht. split; [|done].
        intros ([|x before] & after & H); [by destruct (Hnot after)|].
        injection H as _ H. apply Hno. by exists before, after.
Qed.

Lemma textBefore_unique (sep s t t' : chars) :
  textBefore sep s t -> textBefore sep s t' -> t = t'.
Proof.
  intros [(rest & E & Hmin)|[Hno ->]] [(rest' & E' & Hmin')|[Hno' ->]]; try done.
  - pose proof (Hmin _ _ E'). pose proof (Hmin' _ _ E).
    rewrite E' in E. apply app_inj_1 in E as [E _]; [done|lia].
  - destruct Hno'. by exists t, rest.
  - destruct Hno. by exists t', rest'.
Qed.

Lemma textBefore_splitHead (sep s t : chars) : textBefore sep s t <-> t = splitHead sep s.
Proof.
  split.
  - intros H. apply (textBefore_unique sep s); [done|apply splitHead_textBefore].
  - intros ->. apply splitHead_textBefore.
Qed.

(** ** The defense scan *)











(** The split at " D/ST" is case-sensitive in the matching engine and not in
    the availability check: for a record spelled "Denver d/st" the two
    disagree. *)
Example defense_suffix_case :
  dstScan (Entry.mk "DEN" "Denver Broncos" "DST" true)
    [Projection.mk "Denver d/st" "DST" (num "7") ""] = None
  /\ isDstRostered [lower "Denver Broncos"] "Denver d/st" "" = true.
Proof. split; vm_compute; reflexivity. Qed.

(** ** The stable sort *)

Section StableSort.
Context {A : Type} (cmp : A -> A -> comparison).

Lemma insertBy_perm (x : A) (l : list A) : insertBy cmp x l ≡ₚ x :: l.
Proof.
  induction l as [|y l IH]; simpl; [done|].
  destruct (cmp x y); try done.
  rewrite IH. apply Permutation_swap.
Qed.

Lemma sortBy_perm (l : list A) : sortBy cmp l ≡ₚ l.
Proof.
  induction l as [|x l IH]; simpl; [done|].
  by rewrite insertBy_perm, IH.
Qed.

(** [ok] delimits the elements on which the comparator is an ordering, and
    [before x y] says that [x] may stand before [y]. *)
Context (ok : A -> Prop) (before : A -> A -> Prop).
Hypothesis before_trans : forall x y z, before x y -> before y z -> before x z.
Hypothesis cmp_keeps : forall x y, ok x -> ok y -> cmp x y <> Gt -> before x y.
Hypothesis cmp_swaps : forall x y, ok x -> ok y -> cmp x y = Gt -> before y x.

Lemma insertBy_sorted (x : A) (l : list A) :
  ok x -> Forall ok l ->
  StronglySorted before l -> StronglySorted before (insertBy cmp x l).
Proof using before_trans cmp_keeps cmp_swaps.
  intros Hx Hl Hs. induction Hs as [|y l Hs IH Hy]; simpl.
  - repeat constructor.
  - inversion Hl as [|? ? Hoky Hokl]; subst.
    destruct (cmp x y) eqn:E.
    + assert (before x y) by (apply cmp_keeps; [done|done|congruence]).
      constructor; [by constructor|]. constructor; [done|].
      eapply Forall_impl; [exact Hy|]. eauto.
    + assert (before x y) by (apply cmp_keeps; [done|done|congruence]).
      constructor; [by constructor|]. constructor; [done|].
      eapply Forall_impl; [exact Hy|]. eauto.
    + constructor; [by apply IH|].
      rewrite insertBy_perm. constructor; [by apply cmp_swaps|done].
Qed.

Lemma sortBy_sorted (l : list A) :
  Forall ok l -> StronglySorted before (sortBy cmp l).
Proof using before_trans cmp_keeps cmp_swaps.
  induction 1 as [|x l Hx Hl IH]; simpl; [constructor|].
  apply insertBy_sorted; [done| |done].
  by rewrite sortBy_perm.
Qed.

(** [same] picks a class of elements the comparator does not tell apart. *)
Context (same : A -> bool).
Hypothesis same_kept :
  forall x y, ok x -> ok y -> same x = true -> same y = true -> cmp x y <> Gt.

Lemma insertBy_filter (x : A) (l : list A) :
  ok x -> Forall ok l ->
  List.filter same (insertBy cmp x l) = List.filter same (x :: l).
Proof using same_kept.
  intros Hx Hl. induction Hl as [|y l Hy Hl IH]; [done|].
  cbn [insertBy]. destruct (cmp x y) eqn:E; [done|done|].
  cbn [List.filter] in *. rewrite IH.
  destruct (same x) eqn:Sx, (same y) eqn:Sy; try done.
  by destruct (same_kept x y).
Qed.

Lemma sortBy_filter (l : list A) :
  Forall ok l -> List.filter same (sortBy cmp l) = List.filter same l.
Proof using same_kept.
  induction 1 as [|x l Hx Hl IH]; [done|].
  cbn [sortBy foldr]. fold (sortBy cmp l).
  rewrite insertBy_filter; [|done|by rewrite sortBy_perm].
  cbn [List.filter]. by rewrite IH.
Qed.

End StableSort.

Lemma StronglySorted_lookup {A : Type} (R : A -> A -> Prop) (l : list A)
  (i j : nat) (a b : A) :
  StronglySorted R l -> i < j -> l !! i = Some a -> l !! j = Some b -> R a b.
Proof.
  intros Hs. revert i j. induction Hs as [|x l Hs IH Hx]; intros i j Hij Hi Hj; [done|].
  destruct j as [|j]; [lia|]. simpl in Hj.
  destruct i as [|i]; simpl in Hi.
  - injection Hi as ->. rewrite Forall_forall in Hx. apply Hx.
    by eapply list_elem_of_lookup_2.
  - apply (IH i j); [lia|done|done].
Qed.

(** ** Rounding to the nearest double *)

Section Rounding.
Local Open Scope Z_scope.

Lemma nearestEven_bounds (n d : Z) :
  n / d <= nearestEven n d <= n / d + 1.
Proof.
  unfold nearestEven. destruct (2 * (n mod d) ?= d); [destruct (Z.even (n / d))| |]; lia.
Qed.

Lemma nearestEven_exact (q d : Z) : 0 < d -> nearestEven (q * d) d = q.
Proof.
  intros Hd. unfold nearestEven. rewrite Z.mod_mul, Z.div_mul by lia.
  by destruct (Z.compare_spec (2 * 0) d); [lia| |lia].
Qed.

Lemma spacing_nonneg (x : Z) : 0 <= spacing x.
Proof. unfold spacing. lia. Qed.

Lemma spacing_le (x : Z) : 0 < x -> 2 ^ spacing x <= x.
Proof.
  intros Hx. unfold spacing.
  pose proof (Z.log2_nonneg x). pose proof (Z.log2_spec x Hx) as [Hlo _].
  etrans; [|exact Hlo]. apply Z.pow_le_mono_r; lia.
Qed.

Lemma roundMagnitude_units (n : Z) :
  roundMagnitude n 1 = nearestEven n (2 ^ spacing n) * 2 ^ spacing n.
Proof. unfold roundMagnitude. by rewrite Z.div_1_r, Z.mul_1_l. Qed.

Lemma roundMagnitude_nonneg (n : Z) : 0 <= n -> 0 <= roundMagnitude n 1.
Proof.
  intros Hn. rewrite roundMagnitude_units.
  pose proof (spacing_nonneg n).
  assert (0 < 2 ^ spacing n) by (apply Z.pow_pos_nonneg; lia).
  pose proof (nearestEven_bounds n (2 ^ spacing n)) as [Hq _].
  assert (0 <= n / 2 ^ spacing n) by (apply Z.div_pos; lia).
  nia.
Qed.

Lemma roundMagnitude_pos (n : Z) : 0 < n -> 0 < roundMagnitude n 1.
Proof.
  intros Hn. rewrite roundMagnitude_units.
  pose proof (spacing_nonneg n). pose proof (spacing_le n Hn).
  assert (0 < 2 ^ spacing n) by (apply Z.pow_pos_nonneg; lia).
  pose proof (nearestEven_bounds n (2 ^ spacing n)) as [Hq _].
  assert (0 < n / 2 ^ spacing n) by (apply Z.div_str_pos; lia).
  nia.
Qed.

Lemma overflowAt_pos : 0 < overflowAt.
Proof. unfold overflowAt. by apply Z.pow_pos_nonneg. Qed.

(** The sign of a rounded whole number of units is the sign of the
    number: a difference of two doubles that is not zero does not round to
    zero. *)
Lemma sortSign_roundDouble (k : Z) : sortSign (roundDouble k 1) = (k ?= 0).
Proof.
  unfold roundDouble, signedDouble. pose proof overflowAt_pos.
  destruct (Z.compare_spec k 0) as [->|Hk|Hk].
  - rewrite roundMagnitude_units. change (spacing (Z.abs 0)) with 0.
    change (Z.abs 0) with (0 * 2 ^ 0). rewrite nearestEven_exact by done.
    cbn [Z.mul]. destruct (Z.leb_spec overflowAt 0); [lia|done].
  - pose proof (roundMagnitude_pos (Z.abs k)).
    assert ((k <? 0) = true) as -> by (apply Z.ltb_lt; lia).
    destruct (overflowAt <=? _); cbn [sortSign]; [done|]. apply Z.compare_lt_iff. lia.
  - pose proof (roundMagnitude_pos (Z.abs k)).
    assert ((k <? 0) = false) as -> by (apply Z.ltb_ge; lia).
    destruct (overflowAt <=? _); cbn [sortSign]; [done|]. apply Z.compare_gt_iff. lia.
Qed.

Lemma sortSign_difference (p q : Z) :
  sortSign (jsnum_sub (Fin q) (Fin p)) = (q ?= p).
Proof.
  cbn [jsnum_sub jsnum_neg jsnum_add]. rewrite sortSign_roundDouble.
  rewrite <- Z.sub_opp_r, Z.opp_involutive. symmetry. apply Z.compare_sub.
Qed.

Lemma nearestEven_one (n : Z) : nearestEven n 1 = n.
Proof. rewrite <- (Z.mul_1_r n) at 1. by apply nearestEven_exact. Qed.

Lemma spacing_small (n : Z) : Z.log2 n <= 52 -> spacing n = 0.
Proof. unfold spacing. lia. Qed.

Lemma roundMagnitude_exact (q s : Z) :
  0 <= s -> spacing (q * 2 ^ s) = s -> roundMagnitude (q * 2 ^ s) 1 = q * 2 ^ s.
Proof.
  intros Hs E. rewrite roundMagnitude_units, E.
  rewrite nearestEven_exact; [done|]. by apply Z.pow_pos_nonneg.
Qed.

(** Rounding gives a double, which rounding leaves as it is. *)
Lemma roundMagnitude_idem (n : Z) :
  0 <= n -> roundMagnitude (roundMagnitude n 1) 1 = roundMagnitude n 1.
Proof.
  intros Hn. rewrite (roundMagnitude_units n).
  destruct (Z.le_gt_cases (Z.log2 n) 52) as [Hsmall|Hbig].
  - rewrite (spacing_small n Hsmall). change (2 ^ 0) with 1.
    rewrite nearestEven_one, Z.mul_1_r, roundMagnitude_units, (spacing_small n Hsmall).
    change (2 ^ 0) with 1. by rewrite nearestEven_one, Z.mul_1_r.
  - assert (0 < n) as Hpos.
    { destruct (Z.eq_dec n 0) as [->|]; [|lia]. by cbn in Hbig. }
    set (s := spacing n).
    assert (Z.log2 n = 52 + s) as Hlog by (unfold s, spacing; lia).
    assert (0 < s) as Hs by lia.
    pose proof (Z.log2_spec n Hpos) as [Hlo Hhi]. rewrite Hlog in Hlo, Hhi.
    set (P := 2 ^ s). assert (0 < P) as HP by (apply Z.pow_pos_nonneg; lia).
    assert (2 ^ (52 + s) = 2 ^ 52 * P) as E52 by (apply Z.pow_add_r; lia).
    assert (2 ^ Z.succ (52 + s) = 2 ^ 53 * P) as E53.
    { replace (Z.succ (52 + s)) with (53 + s) by lia. apply Z.pow_add_r; lia. }
    rewrite E52 in Hlo. rewrite E53 in Hhi.
    pose proof (nearestEven_bounds n P) as [Hq1 Hq2].
    assert (2 ^ 52 <= n / P) as Hd1 by (apply Z.div_le_lower_bound; lia).
    assert (n / P < 2 ^ 53) as Hd2 by (apply Z.div_lt_upper_bound; lia).
    set (q := nearestEven n P) in *.
    destruct (Z.eq_dec q (2 ^ 53)) as [Eq|Nq].
    + rewrite Eq. replace (2 ^ 53 * P) with (2 ^ 52 * 2 ^ (s + 1)).
      * apply roundMagnitude_exact; [lia|].
        rewrite <- Z.pow_add_r by lia. unfold spacing. rewrite Z.log2_pow2 by lia. lia.
      * rewrite (Z.pow_add_r 2 s 1) by lia. change (2 ^ 1) with 2.
        change (2 ^ 53) with (2 ^ 52 * 2). unfold P. ring.
    + apply roundMagnitude_exact; [lia|].
      unfold spacing. fold P.
      rewrite (Z.log2_unique (q * P) (52 + s)); [lia|lia|].
      rewrite E52, E53. split; nia.
Qed.

Lemma roundDouble_idem (k k' : Z) : roundDouble k 1 = Fin k' -> roundDouble k' 1 = Fin k'.
Proof.
  unfold roundDouble, signedDouble.
  pose proof (roundMagnitude_idem (Z.abs k) (Z.abs_nonneg k)) as Hidem.
  pose proof (roundMagnitude_nonneg (Z.abs k) (Z.abs_nonneg k)) as Hnn.
  set (M := roundMagnitude (Z.abs k) 1) in *.
  destruct (overflowAt <=? M) eqn:Ho; [done|].
  intros [= <-].
  destruct (k <? 0).
  - rewrite Z.abs_opp, (Z.abs_eq M), Hidem, Ho by done.
    destruct (Z.ltb_spec (- M) 0); [done|]. f_equal. lia.
  - rewrite (Z.abs_eq M), Hidem, Ho by done.
    destruct (Z.ltb_spec M 0); [lia|done].
Qed.


Lemma jsnum_add_nonnegative (a b : jsnum) :
  nonnegative a = true -> nonnegative b = true -> nonnegative (jsnum_add a b) = true.
Proof.
  unfold nonnegative.
  destruct a as [|[]|p], b as [|[]|q]; cbn [jsnum_add jsnum_geb Bool.eqb]; try done.
  intros Hp%Z.leb_le Hq%Z.leb_le. unfold roundDouble, signedDouble.
  assert ((p + q <? 0) = false) as -> by (apply Z.ltb_ge; lia).
  pose proof (roundMagnitude_nonneg (Z.abs (p + q)) (Z.abs_nonneg _)).
  destruct (overflowAt <=? _); [done|]. cbn [jsnum_geb]. by apply Z.leb_le.
Qed.

End Rounding.

(** The rounding at work: 12.4 is no double and is read as its nearest
    one; 0.1 + 0.2 is not 0.3; decimals that differ in the seventeenth digit
    are one double; a tie goes to the even neighbour; a sum beyond the
    largest double is an infinity; what is below half the smallest double
    is 0. *)
Example num_rounds :
  num "12.4" = Fin (6980579422424269 * 2 ^ 1025)
  /\ jsnum_add (num "0.1") (num "0.2") = num "0.30000000000000004"
  /\ jsnum_add (num "0.1") (num "0.2") <> num "0.3"
  /\ num "0.30000000000000001" = num "0.3"
  /\ num "9007199254740993" = num "9007199254740992"
  /\ jsnum_add (num "-1e308") (num "-1e308") = Inf true
  /\ num "1e400" = Inf false
  /\ num "5e-324" = Fin 1
  /\ num "2e-324" = Fin 0.
Proof. vm_compute. repeat split. intros [=]. Qed.

(** On these numbers the sum, the difference and the reading of a decimal
    are those of the Standard Library's binary64 operations. *)
Example rounding_agrees_with_SpecFloat :
  SFadd 53 1024 (toSpecFloat (num "0.1")) (toSpecFloat (num "0.2"))
  = toSpecFloat (jsnum_add (num "0.1") (num "0.2"))
  /\ SFsub 53 1024 (toSpecFloat (num "0.3")) (toSpecFloat (num "0.1"))
     = toSpecFloat (jsnum_sub (num "0.3") (num "0.1"))
  /\ SFadd 53 1024 (toSpecFloat (num "-1e308")) (toSpecFloat (num "-1e308"))
     = toSpecFloat (jsnum_add (num "-1e308") (num "-1e308"))
  /\ SFadd 53 1024 (toSpecFloat (num "9007199254740992")) (toSpecFloat (num "1"))
     = toSpecFloat (jsnum_add (num "9007199254740992") (num "1"))
  /\ SFdiv 53 1024 (S754_finite false 124 0) (S754_finite false 10 0)
     = toSpecFloat (num "12.4")
  /\ SFdiv 53 1024 (S754_finite false 1 0) (S754_finite false 10 0)
     = toSpecFloat (num "0.1").
Proof. vm_compute. repeat split. Qed.

Lemma nonnegative_not_NaN (a : jsnum) : nonnegative a = true -> a <> NaN.
Proof. by destruct a. Qed.

(** ** The order of JavaScript numbers *)

Lemma jsnum_geb_trans (a b c : jsnum) :
  jsnum_geb a b = true -> jsnum_geb b c = true -> jsnum_geb a c = true.
Proof.
  destruct a as [|[]|p], b as [|[]|q], c as [|[]|r]; simpl; try done.
  rewrite !Z.leb_le. lia.
Qed.

Lemma descending_keeps (a b : jsnum) :
  a <> NaN -> b <> NaN ->
  sortSign (jsnum_sub b a) <> Gt -> jsnum_geb a b = true.
Proof.
  destruct a as [|[]|p], b as [|[]|q]; try done.
  intros _ _. rewrite sortSign_difference. intros H.
  apply Z.leb_le. by apply Z.compare_le_iff.
Qed.

Lemma descending_swaps (a b : jsnum) :
  a <> NaN -> b <> NaN ->
  sortSign (jsnum_sub b a) = Gt -> jsnum_geb b a = true.
Proof.
  destruct a as [|[]|p], b as [|[]|q]; try done.
  intros _ _. rewrite sortSign_difference. intros H%Z.compare_gt_iff.
  apply Z.leb_le. lia.
Qed.

Lemma descending_ties (a b v : jsnum) :
  jsnum_eqb a v = true -> jsnum_eqb b v = true -> sortSign (jsnum_sub b a) <> Gt.
Proof.
  destruct a as [|[]|p], b as [|[]|q], v as [|[]|r]; try done.
  simpl jsnum_eqb. rewrite !Z.eqb_eq. intros -> ->.
  by rewrite sortSign_difference, Z.compare_refl.
Qed.

(** ** The ranking aggregator *)

Lemma unrank_withRank (results : list TeamResult.t) :
  map unrank (withRank results) = results.
Proof.
  unfold withRank. change (map unrank) with (fmap (M:=list) unrank).
  rewrite fmap_imap.
  rewrite (imap_ext _ (fun _ r => r)); [|by intros i [? ? ?] _].
  induction results as [|r l IH]; [done|].
  rewrite imap_cons. f_equal. exact IH.
Qed.

Lemma rank_withRank (results : list TeamResult.t) :
  map Ranked.rank (withRank results) = seq 1 (length results).
Proof.
  unfold withRank. change (map Ranked.rank) with (fmap (M:=list) Ranked.rank).
  rewrite fmap_imap.
  rewrite (imap_ext _ (fun j _ => S j)); [|intros i r _; simpl; lia].
  rewrite imap_seq_0. apply fmap_S_seq.
Qed.

(** Whenever the team totals are numbers, the teams stand in descending
    order of their total, teams with equal totals keep the order in which
    their rosters came, and the ranks are the integers 1 to N in that
    order. *)
Lemma rankings_order_of_numbers (projections : Projections.t) (rosters : list Roster.t) :
  let results :=
    map (teamResult (buildNameIndex (allMaps projections)) (Projections.dsts projections))
      rosters in
  let ranked := rankings projections rosters in
  Forall (fun r => TeamResult.totalProjected r <> NaN) results ->
  (forall (i j : nat) (a b : Ranked.t),
      i < j -> ranked !! i = Some a -> ranked !! j = Some b ->
      jsnum_geb (Ranked.totalProjected a) (Ranked.totalProjected b) = true)
  /\ (forall total : jsnum,
        List.filter (fun r => jsnum_eqb (TeamResult.totalProjected r) total)
          (map unrank ranked)
        = List.filter (fun r => jsnum_eqb (TeamResult.totalProjected r) total) results)
  /\ map unrank ranked ≡ₚ results
  /\ map Ranked.rank ranked = seq 1 (length rosters).
Proof.
  intros results ranked Hok.
  assert (Hun : map unrank ranked = sortBy byTotalDescending results)
    by apply unrank_withRank.
  split; [|split; [|split]].
  - intros i j a b Hij Ha Hb.
    assert (StronglySorted
              (fun x y => jsnum_geb (TeamResult.totalProjected x)
                            (TeamResult.totalProjected y) = true)
              (sortBy byTotalDescending results)) as Hs.
    { apply (sortBy_sorted _ (fun r => TeamResult.totalProjected r <> NaN)); [| | |done].
      - intros x y z. apply jsnum_geb_trans.
      - intros x y. apply descending_keeps.
      - intros x y. apply descending_swaps. }
    rewrite <- Hun in Hs.
    apply (StronglySorted_lookup _ _ i j (unrank a) (unrank b) Hs Hij).
    + change (map unrank ranked) with (unrank <$> ranked).
      by rewrite list_lookup_fmap, Ha.
    + change (map unrank ranked) with (unrank <$> ranked).
      by rewrite list_lookup_fmap, Hb.
  - intros total. rewrite Hun.
    apply (sortBy_filter _ (fun r => TeamResult.totalProjected r <> NaN)); [|done].
    intros x y _ _. apply descending_ties.
  - rewrite Hun. apply sortBy_perm.
  - unfold ranked, rankings. rewrite rank_withRank.
    f_equal. rewrite (Permutation_length (sortBy_perm _ _)). apply length_map.
Qed.

(** ** Totals are numbers when the catalog's points are *)

Lemma candidates_from_catalog (projectionsMaps : list (list Projection.t))
  (k : string) (m : Candidate.t) :
  m ∈ candidates (buildNameIndex projectionsMaps) k ->
  exists p, p ∈ concat projectionsMaps /\ Candidate.fantasy m = Projection.fantasy p.
Proof.
  rewrite buildNameIndex_candidates, list_elem_of_In, in_flat_map.
  intros (p & Hp & Hm). exists p. split; [by apply list_elem_of_In|].
  unfold contributes in Hm. apply in_flat_map in Hm as (k' & _ & Hm).
  destruct (bool_decide (k' = k)); [|done].
  by destruct Hm as [<-|[]].
Qed.

Lemma resolveMatch_candidate (nameIndex : NameIndex) (entry : Entry.t) (m : Candidate.t) :
  resolveMatch nameIndex entry = Some m -> exists k, m ∈ candidates nameIndex k.
Proof.
  rewrite resolveMatch_spec. unfold spec_resolve, spec_step1, spec_step2, spec_step3.
  cbn [firstSuccess].
  destruct (List.find _ (candidates nameIndex (normalizeName _))) as [m1|] eqn:E1.
  { intros [= <-]. apply find_some in E1 as [E1 _]. eexists. by apply list_elem_of_In. }
  destruct (NAME_ALIASES !! _) as [alias|].
  - destruct (List.find _ (candidates nameIndex alias)) as [m2|] eqn:E2.
    { intros [= <-]. apply find_some in E2 as [E2 _]. eexists. by apply list_elem_of_In. }
    destruct (candidates nameIndex (normalizeName (Entry.name entry))) as [|c cs] eqn:E3;
      [done|]. intros [= <-]. eexists. rewrite E3. constructor.
  - destruct (candidates nameIndex (normalizeName (Entry.name entry))) as [|c cs] eqn:E3;
      [done|]. intros [= <-]. eexists. rewrite E3. constructor.
Qed.

(** A team total is a sum of points of the catalog: it has every property
    that 0 has, that the catalog's points have and that sums preserve. *)
Lemma estimateTeamPoints_total (P : jsnum -> Prop) (projections : Projections.t)
  (roster : Roster.t) :
  P (Fin 0) ->
  (forall a b, P a -> P b -> P (jsnum_add a b)) ->
  (forall p, p ∈ concat (allMaps projections) -> P (Projection.fantasy p)) ->
  P (estimateTeamPoints roster (buildNameIndex (allMaps projections))
       (Projections.dsts projections)).1.
Proof.
  intros H0 Hadd Hcat. unfold estimateTeamPoints.
  assert (forall entries acc, P acc.1 ->
            P (fold_left
                 (estimateEntry (buildNameIndex (allMaps projections))
                    (Projections.dsts projections)) entries acc).1) as H.
  { induction entries as [|e entries IH]; intros [total details] Hacc; [done|].
    cbn [fold_left]. apply IH. unfold estimateEntry.
    destruct (resolveMatch _ e) as [m|] eqn:Em.
    - apply resolveMatch_candidate in Em as [k Hk].
      apply candidates_from_catalog in Hk as (p & Hp & ->).
      apply Hadd; [done|by apply Hcat].
    - destruct (isDefense (Entry.position e)); [|done].
      destruct (dstScan e (Projections.dsts projections)) as [d|] eqn:Ed; [|done].
      apply find_some in Ed as [Ed _].
      apply Hadd; [done|]. apply Hcat.
      unfold allMaps. cbn [concat]. rewrite !elem_of_app.
      do 5 right. left. by apply list_elem_of_In. }
  by apply H.
Qed.

Lemma totals_not_NaN (P : jsnum -> Prop) (projections : Projections.t)
  (rosters : list Roster.t) :
  P (Fin 0) ->
  (forall a b, P a -> P b -> P (jsnum_add a b)) ->
  (forall a, P a -> a <> NaN) ->
  (forall p, p ∈ concat (allMaps projections) -> P (Projection.fantasy p)) ->
  Forall (fun r => TeamResult.totalProjected r <> NaN)
    (map (teamResult (buildNameIndex (allMaps projections)) (Projections.dsts projections))
       rosters).
Proof.
  intros H0 Hadd Hnan Hcat. apply Forall_forall. intros r Hr.
  apply list_elem_of_In, in_map_iff in Hr as (roster & <- & _).
  pose proof (estimateTeamPoints_total P projections roster H0 Hadd Hcat) as H.
  unfold teamResult. destruct (estimateTeamPoints _ _ _) as [total details].
  by apply Hnan.
Qed.

(** C7, as the code has it. The rank fields of every rankings output are
    the integers 1 to N in order, and the output holds the teams of the
    rosters.  Whenever no team total is NaN, the teams stand in descending
    order of totalProjected and teams with equal totals keep the order in
    which their rosters were fetched.  No team total is NaN when every
    projection of the catalog is at least 0, as in the data model. *)
Theorem rankings_order (projections : Projections.t) (rosters : list Roster.t) :
  let results :=
    map (teamResult (buildNameIndex (allMaps projections)) (Projections.dsts projections))
      rosters in
  let ranked := rankings projections rosters in
  map Ranked.rank ranked = seq 1 (length rosters)
  /\ map unrank ranked ≡ₚ results
  /\ (Forall (fun r => TeamResult.totalProjected r <> NaN) results ->
      (forall (i j : nat) (a b : Ranked.t),
          i < j -> ranked !! i = Some a -> ranked !! j = Some b ->
          jsnum_geb (Ranked.totalProjected a) (Ranked.totalProjected b) = true)
      /\ (forall total : jsnum,
            List.filter (fun r => jsnum_eqb (TeamResult.totalProjected r) total)
              (map unrank ranked)
            = List.filter (fun r => jsnum_eqb (TeamResult.totalProjected r) total) results))
  /\ ((forall p, p ∈ concat (allMaps projections) ->
         nonnegative (Projection.fantasy p) = true) ->
      Forall (fun r => TeamResult.totalProjected r <> NaN) results).
Proof.
  intros results ranked. split; [|split; [|split]].
  - unfold ranked, rankings. rewrite rank_withRank.
    f_equal. rewrite (Permutation_length (sortBy_perm _ _)). apply length_map.
  - unfold ranked, rankings. rewrite unrank_withRank. apply sortBy_perm.
  - intros Hok.
    destruct (rankings_order_of_numbers projections rosters Hok) as (H1 & H2 & _).
    by split.
  - intros Hcat.
    apply (totals_not_NaN (fun a => nonnegative a = true)); [done| | |done].
    + apply jsnum_add_nonnegative.
    + apply nonnegative_not_NaN.
Qed.

Lemma rankings_order_witness :
  map Ranked.teamName (rankings sampleCatalog sampleRosters)
  = ["Team 2"; "Team 1"; "Team 3"]
  /\ forall (i j : nat) (a b : Ranked.t),
       i < j ->
       rankings sampleCatalog sampleRosters !! i = Some a ->
       rankings sampleCatalog sampleRosters !! j = Some b ->
       jsnum_geb (Ranked.totalProjected a) (Ranked.totalProjected b) = true.
Proof.
  split; [vm_compute; reflexivity|].
  destruct (rankings_order sampleCatalog sampleRosters) as (_ & _ & Hsorted & Hnum).
  apply Hsorted, Hnum.
  intros p Hp. vm_compute in Hp.
  repeat (apply elem_of_cons in Hp as [->|Hp]; [vm_compute; reflexivity|]).
  by apply elem_of_nil in Hp.
Defined.

(** C7, the counterexample to the claim as stated: a catalog read from
    files that hold the points "Infinity" and "-Infinity", and a team that
    has both players.  The total of that team is NaN, which is neither at
    least nor at most any number: the output is not in descending order,
    and no arrangement of its two teams would be. *)
Lemma nan_total_breaks_order :
  let files :=
    CsvFiles.mk []
      [Row.mk (Some "Up") (Some "Infinity") None None None;
       Row.mk (Some "Down") (Some "-Infinity") None None None;
       Row.mk (Some "Five") (Some "5") None None None] [] [] [] [] in
  let rosters :=
    [Roster.mk "1" "Team 1" [Entry.mk "1" "Up" "RB" true; Entry.mk "2" "Down" "RB" true];
     Roster.mk "2" "Team 2" [Entry.mk "3" "Five" "RB" true]] in
  let ranked := rankings (loadAllProjections files) rosters in
  map (fun r => (Ranked.rank r, Ranked.teamName r, Ranked.totalProjected r)) ranked
  = [(1, "Team 1", NaN); (2, "Team 2", num "5")]
  /\ (forall other : list Ranked.t,
        other ≡ₚ ranked ->
        exists a b, other !! 0 = Some a /\ other !! 1 = Some b
          /\ jsnum_geb (Ranked.totalProjected a) (Ranked.totalProjected b) = false).
Proof.
  cbv zeta. split; [vm_compute; reflexivity|].
  intros other Hperm.
  assert (rankings
            (loadAllProjections
               (CsvFiles.mk []
                  [Row.mk (Some "Up") (Some "Infinity") None None None;
                   Row.mk (Some "Down") (Some "-Infinity") None None None;
                   Row.mk (Some "Five") (Some "5") None None None] [] [] [] []))
            [Roster.mk "1" "Team 1"
               [Entry.mk "1" "Up" "RB" true; Entry.mk "2" "Down" "RB" true];
             Roster.mk "2" "Team 2" [Entry.mk "3" "Five" "RB" true]]
          = [Ranked.mk 1 "Team 1" NaN
               [Matched.mk "Up" "RB" (Inf false) true; Matched.mk "Down" "RB" (Inf true) true];
             Ranked.mk 2 "Team 2" (num "5") [Matched.mk "Five" "RB" (num "5") true]]) as E
    by (vm_compute; reflexivity).
  rewrite E in Hperm. symmetry in Hperm.
  apply Permutation_length_2_inv in Hperm as [-> | ->]; do 2 eexists;
    (split; [reflexivity|split; [reflexivity|reflexivity]]).
Qed.

(** The rounding of the sums decides the order: 0.1 + 0.2 is more than
    0.3, so the team with the two players comes first. *)
Example rounding_decides_rank :
  map Ranked.teamName
    (rankings
       (loadAllProjections
          (CsvFiles.mk []
             [Row.mk (Some "A") (Some "0.1") None None None;
              Row.mk (Some "B") (Some "0.2") None None None;
              Row.mk (Some "C") (Some "0.3") None None None] [] [] [] []))
       [Roster.mk "1" "Team 1" [Entry.mk "3" "C" "RB" true];
        Roster.mk "2" "Team 2" [Entry.mk "1" "A" "RB" true; Entry.mk "2" "B" "RB" true]])
  = ["Team 2"; "Team 1"].
Proof. vm_compute. reflexivity. Qed.

(** ** The availability aggregator *)

Lemma rosteredNames_noteEntry (acc : Rostered.t) (entry : Entry.t) (pos k : string) :
  k ∈ rosteredNames (noteEntry acc entry) pos
  <-> k ∈ rosteredNames acc pos
      \/ (Entry.position entry = pos /\ k ∈ nameForms (Entry.name entry)).
Proof.
  unfold rosteredNames, noteEntry, nameForms. cbn [Rostered.rosteredByPos].
  rewrite lookup_insert. case_decide as E.
  - subst pos. unfold default at 1. cbn [from_option id].
    destruct (aliasOf (normalizeName (Entry.name entry))) as [alias|];
      rewrite ?elem_of_union, ?elem_of_singleton, ?elem_of_cons, ?elem_of_nil; tauto.
  - tauto.
Qed.

Lemma dstTeams_noteEntry (acc : Rostered.t) (entry : Entry.t) (n : chars) :
  n ∈ Rostered.rosteredDstTeams (noteEntry acc entry)
  <-> n ∈ Rostered.rosteredDstTeams acc
      \/ ((Entry.position entry = "DST" \/ Entry.position entry = "DEF")
          /\ n = lower (Entry.name entry)).
Proof.
  unfold noteEntry. cbn [Rostered.rosteredDstTeams].
  destruct (String.eqb_spec (Entry.position entry) "DST") as [E1|E1];
    destruct (String.eqb_spec (Entry.position entry) "DEF") as [E2|E2]; cbn [orb];
    rewrite ?elem_of_app, ?list_elem_of_singleton; tauto.
Qed.

Lemma noteEntries_spec (entries : list Entry.t) (acc : Rostered.t) :
  (forall pos k,
     k ∈ rosteredNames (fold_left noteEntry entries acc) pos
     <-> k ∈ rosteredNames acc pos
         \/ exists entry, entry ∈ entries /\ Entry.position entry = pos
                          /\ k ∈ nameForms (Entry.name entry))
  /\ (forall n,
        n ∈ Rostered.rosteredDstTeams (fold_left noteEntry entries acc)
        <-> n ∈ Rostered.rosteredDstTeams acc
            \/ exists entry, entry ∈ entries
                 /\ (Entry.position entry = "DST" \/ Entry.position entry = "DEF")
                 /\ n = lower (Entry.name entry)).
Proof.
  revert acc. induction entries as [|e entries IH]; intros acc; cbn [fold_left].
  - split; intros; (split; [tauto|]); intros [H|(e & He & _)]; [done| |done|];
      by apply elem_of_nil in He.
  - destruct (IH (noteEntry acc e)) as [IH1 IH2]. split.
    + intros pos k. rewrite IH1, rosteredNames_noteEntry. split.
      * intros [[H|[H1 H2]]|(e' & He' & H)]; [by left| |].
        -- right. exists e. split; [constructor|done].
        -- right. exists e'. split; [by constructor|done].
      * intros [H|(e' & He' & H1 & H2)]; [by left; left|].
        apply elem_of_cons in He' as [->|He']; [by left; right|].
        right. by exists e'.
    + intros n. rewrite IH2, dstTeams_noteEntry. split.
      * intros [[H|[H1 H2]]|(e' & He' & H)]; [by left| |].
        -- right. exists e. split; [constructor|done].
        -- right. exists e'. split; [by constructor|done].
      * intros [H|(e' & He' & H1 & H2)]; [by left; left|].
        apply elem_of_cons in He' as [->|He']; [by left; right|].
        right. by exists e'.
Qed.

Lemma noteRosters_spec (rosters : list Roster.t) (acc : Rostered.t) :
  let acc' := fold_left (fun acc r => fold_left noteEntry (Roster.entries r) acc) rosters acc in
  (forall pos k,
     k ∈ rosteredNames acc' pos
     <-> k ∈ rosteredNames acc pos
         \/ exists r entry, r ∈ rosters /\ entry ∈ Roster.entries r
              /\ Entry.position entry = pos /\ k ∈ nameForms (Entry.name entry))
  /\ (forall n,
        n ∈ Rostered.rosteredDstTeams acc'
        <-> n ∈ Rostered.rosteredDstTeams acc
            \/ exists r entry, r ∈ rosters /\ entry ∈ Roster.entries r
                 /\ (Entry.position entry = "DST" \/ Entry.position entry = "DEF")
                 /\ n = lower (Entry.name entry)).
Proof.
  revert acc. induction rosters as [|r rosters IH]; intros acc; cbn [fold_left].
  - split; intros; (split; [tauto|]); intros [H|(r & e & Hr & _)]; [done| |done|];
      by apply elem_of_nil in Hr.
  - destruct (IH (fold_left noteEntry (Roster.entries r) acc)) as [IH1 IH2].
    destruct (noteEntries_spec (Roster.entries r) acc) as [E1 E2].
    cbv zeta in *. split.
    + intros pos k. rewrite IH1, E1. split.
      * intros [[H|(e & He & H)]|(r' & e & Hr' & H)]; [by left| |].
        -- right. exists r, e. split; [constructor|done].
        -- right. exists r', e. split; [by constructor|done].
      * intros [H|(r' & e & Hr' & He & H)]; [by left; left|].
        apply elem_of_cons in Hr' as [->|Hr']; [left; right; by exists e|].
        right. by exists r', e.
    + intros n. rewrite IH2, E2. split.
      * intros [[H|(e & He & H)]|(r' & e & Hr' & H)]; [by left| |].
        -- right. exists r, e. split; [constructor|done].
        -- right. exists r', e. split; [by constructor|done].
      * intros [H|(r' & e & Hr' & He & H)]; [by left; left|].
        apply elem_of_cons in Hr' as [->|Hr']; [left; right; by exists e|].
        right. by exists r', e.
Qed.

Lemma isTaken_names (acc : Rostered.t) (rec : Projection.t) :
  String.eqb (Projection.position rec) "DST" = false ->
  isTaken acc rec = true
  <-> exists form, form ∈ nameForms (Projection.player rec)
                   /\ form ∈ rosteredNames acc (Projection.position rec).
Proof.
  intros Hpos. unfold isTaken, rosteredNames, nameForms. rewrite Hpos.
  destruct (Rostered.rosteredByPos acc !! Projection.position rec) as [set|]; cbn [default].
  - rewrite orb_true_iff, bool_decide_eq_true.
    destruct (aliasOf (normalizeName (Projection.player rec))) as [alias|].
    + rewrite bool_decide_eq_true. split.
      * intros [H|H]; eexists; (split; [|exact H]); rewrite !elem_of_cons; auto.
      * intros (form & Hf & H). rewrite !elem_of_cons, elem_of_nil in Hf.
        destruct Hf as [->|[->|[]]]; auto.
    + split.
      * intros [H|H]; [|done]. eexists; (split; [|exact H]). constructor.
      * intros (form & Hf & H). rewrite !elem_of_cons, elem_of_nil in Hf.
        destruct Hf as [->|[]]; auto.
  - split; [done|]. intros (form & _ & H). by apply elem_of_empty in H.
Qed.

Lemma dstTeamName_textBefore (player : string) :
  textBefore (chr " d/st") (small player) (dstTeamName player).
Proof.
  unfold dstTeamName. cbv zeta. rewrite lower_small.
  destruct (includes (small player) (chr " d/st")) eqn:E.
  - apply splitHead_textBefore.
  - right. split; [|done]. intros H%includes_occursIn. congruence.
Qed.

Lemma isDstRostered_spec (teams : list chars) (player team : string) :
  isDstRostered teams player team = true
  <-> exists n, n ∈ teams
        /\ ((exists franchise,
                textBefore (chr " d/st") (small player) franchise /\ occursIn franchise n)
            \/ (team <> "" /\ occursIn (small team) n)).
Proof.
  unfold isDstRostered. rewrite existsb_exists. split.
  - intros (n & Hn & H). exists n. split; [by apply list_elem_of_In|].
    apply orb_true_iff in H as [H|[H1 H2]%andb_true_iff].
    + left. exists (dstTeamName player).
      split; [apply dstTeamName_textBefore|by apply includes_occursIn].
    + right. rewrite lower_small in H2.
      split; [|by apply includes_occursIn]. destruct (String.eqb_spec team ""); done.
  - intros (n & Hn & H). exists n. split; [by apply list_elem_of_In|].
    apply orb_true_iff. destruct H as [(f & Hf & H)|[H1 H2]]; [left|right].
    + rewrite (textBefore_unique _ _ _ _ (dstTeamName_textBefore player) Hf).
      by apply includes_occursIn.
    + rewrite lower_small. apply includes_occursIn in H2. rewrite H2.
      by destruct (String.eqb_spec team "").
Qed.

(** A record is taken exactly when a roster entry corresponds to it. *)
Lemma isTaken_rostered (rosters : list Roster.t) (rec : Projection.t) :
  isTaken (noteRosters rosters) rec = true <-> rostered rosters rec.
Proof.
  destruct (noteRosters_spec rosters (Rostered.mk ∅ [])) as [H1 H2]. cbv zeta in *.
  fold (noteRosters rosters) in H1, H2.
  unfold rostered, corresponds, isDefenseEntry, availabilityDefenseMatch, sharesNameForm.
  destruct (String.eqb (Projection.position rec) "DST") eqn:Hpos.
  - unfold isTaken. rewrite Hpos, isDstRostered_spec. split.
    + intros (n & Hn & H). apply H2 in Hn as [Hn|(r & e & Hr & He & Hp & ->)].
      { by apply elem_of_nil in Hn. }
      rewrite lower_small in H. exists r, e. repeat split; first [done | tauto].
    + intros (r & e & Hr & He & Hp & H). exists (small (Entry.name e)). split; [|done].
      apply H2. right. exists r, e. rewrite lower_small. repeat split; first [done | tauto].
  - rewrite isTaken_names by done. split.
    + intros (form & Hf & H). apply H1 in H as [H|(r & e & Hr & He & Hp & H)].
      { unfold rosteredNames in H. cbn in H. rewrite lookup_empty in H.
        by apply elem_of_empty in H. }
      exists r, e. repeat split; try done. by exists form.
    + intros (r & e & Hr & He & Hp & form & Hf1 & Hf2). exists form. split; [done|].
      apply H1. right. by exists r, e.
Qed.

Lemma available_elem (projections : Projections.t) (rosters : list Roster.t)
  (rec : Projection.t) :
  toAvailable rec ∈ available projections rosters
  <-> rec ∈ concat (allMaps projections) /\ isTaken (noteRosters rosters) rec = false.
Proof.
  unfold available. rewrite sortBy_perm.
  rewrite list_elem_of_In, in_map_iff. split.
  - intros (rec' & E & [Hin Ht]%filter_In).
    assert (rec' = rec) as ->.
    { destruct rec', rec. by injection E as -> -> -> ->. }
    split; [by apply list_elem_of_In|]. by apply negb_true_iff.
  - intros [Hin Ht]. exists rec. split; [done|]. apply filter_In.
    split; [by apply list_elem_of_In|]. by apply negb_true_iff.
Qed.

Lemma corresponds_spec (entry : Entry.t) (rec : Projection.t) :
  Projection.position rec <> "DST" -> corresponds entry rec -> spec_corresponds entry rec.
Proof.
  unfold corresponds, spec_corresponds.
  destruct (String.eqb_spec (Projection.position rec) "DST"); [done|tauto].
Qed.

(** The text before the first occurrence of a separator that starts with
    three distinct code units, the third of which the text does not
    contain. *)
Lemma splitHead_suffix (a b c : ascii) (rest f : chars) :
  a <> b -> a <> c -> c ∉ f ->
  splitHead (a :: b :: c :: rest) (f ++ a :: b :: c :: rest) = f.
Proof.
  intros Hab Hac. induction f as [|x f IH]; intros Hno.
  - cbn [app splitHead]. by rewrite stripPrefix_self.
  - apply not_elem_of_cons in Hno as [Hx Hf]. cbn [app splitHead].
    assert (stripPrefix (a :: b :: c :: rest) (x :: f ++ a :: b :: c :: rest) = None) as ->.
    { cbn [stripPrefix]. destruct (Ascii.eqb a x); [|done].
      destruct f as [|y f]; cbn [app stripPrefix].
      { by destruct (Ascii.eqb_spec b a); [congruence|]. }
      destruct (Ascii.eqb b y); [|done].
      destruct f as [|z f]; cbn [app stripPrefix].
      { by destruct (Ascii.eqb_spec c a); [congruence|]. }
      apply not_elem_of_cons in Hf as [_ Hf]. apply not_elem_of_cons in Hf as [Hz _].
      by destruct (Ascii.eqb_spec c z). }
    f_equal. by apply IH.
Qed.

(** The franchise name of the specification, in small letters, for a name
    that ends in " D/ST" in whatever case. *)
Lemma spec_franchise_lower (player : string) (franchise : chars) :
  lower player = franchise ++ chr " d/st" ->
  toLowerCase (spec_franchise player) = franchise.
Proof.
  intros E. unfold spec_franchise. fold (lower player).
  rewrite E, rev_app_distr, stripPrefix_app.
  assert (length (chr player) = length franchise + 5) as Hlen.
  { unfold lower, toLowerCase in E. apply (f_equal length) in E.
    by rewrite length_map, length_app in E. }
  rewrite Hlen, Nat.add_sub.
  unfold lower, toLowerCase in E.
  rewrite <- (take_drop (length franchise) (chr player)), map_app in E.
  apply app_inj_1 in E as [E _]; [done|].
  rewrite length_map, length_take. lia.
Qed.

(** For a defense name of the usual form, in whatever case its suffix is
    written, the defense test of the availability check is the one of the
    specification. *)
Lemma availabilityDefenseMatch_usual (displayName : string) (rec : Projection.t) :
  usualDefenseName (Projection.player rec) ->
  availabilityDefenseMatch displayName rec <-> spec_defenseMatch displayName rec.
Proof.
  intros (franchise & E & Hno).
  assert (textBefore (chr " d/st") (small (Projection.player rec)) franchise) as Hb.
  { apply textBefore_splitHead. rewrite E.
    symmetry. by apply (splitHead_suffix " " "d" "/" (chr "st")). }
  assert (map spec_lowerChar (spec_franchise (Projection.player rec)) = franchise) as Hf.
  { rewrite <- toLowerCase_small. apply spec_franchise_lower. by rewrite lower_small. }
  unfold availabilityDefenseMatch, spec_defenseMatch. rewrite Hf. split.
  - intros [(f & Hf' & H)|H]; [left|by right].
    by rewrite (textBefore_unique _ _ _ _ Hb Hf').
  - intros [H|H]; [left|by right]. by exists franchise.
Qed.

(** C6, as the code has it. For every record of the catalog: when no roster
    entry corresponds to it, it is in the available output, and when some
    roster entry does, it is not; where an entry corresponds to a record
    other than a defense when it has the record's position and the two
    share a name form under normalization and aliasing, and to a defense
    record (position "DST") when it is a defense entry ("DST" or "DEF") whose
    display name contains, case aside, the part of the record's name before
    its first " d/st", or the record's team code when it has one.  A record
    that no entry corresponds to as the specification has it, by name alone,
    is in the available output when it is no defense or a defense named in
    the usual form, a franchise name without a slash followed by " D/ST". *)
Theorem availability_complete (projections : Projections.t) (rosters : list Roster.t)
  (rec : Projection.t) :
  rec ∈ concat (allMaps projections) ->
  (~ rostered rosters rec -> toAvailable rec ∈ available projections rosters)
  /\ (rostered rosters rec -> toAvailable rec ∉ available projections rosters)
  /\ (Projection.position rec <> "DST" \/ usualDefenseName (Projection.player rec) ->
      ~ spec_rostered rosters rec -> toAvailable rec ∈ available projections rosters).
Proof.
  intros Hin. rewrite available_elem, <- isTaken_rostered. split; [|split].
  - intros H. split; [done|]. by destruct (isTaken _ rec).
  - intros H [_ H']. congruence.
  - intros Hkind H. split; [done|].
    destruct (isTaken _ rec) eqn:E; [|done].
    apply isTaken_rostered in E as (r & e & Hr & He & Hc).
    destruct H. exists r, e. split; [done|]. split; [done|].
    destruct Hkind as [Hk|Hk]; [by apply corresponds_spec|].
    unfold corresponds, spec_corresponds in *.
    destruct (String.eqb (Projection.position rec) "DST"); [|tauto].
    destruct Hc as [Hd Hc]. split; [done|]. by apply availabilityDefenseMatch_usual.
Qed.

Lemma availability_complete_witness :
  let rosters :=
    [Roster.mk "7" "Team 7"
       [Entry.mk "1" "Joshua Palmer" "WR" true;
        Entry.mk "DEN" "Denver Broncos" "DEF" true]] in
  (toAvailable (Projection.mk "John Doe" "RB" (num "9.5") "NYJ")
     ∈ available sampleCatalog rosters)
  /\ (toAvailable (Projection.mk "Denver D/ST" "DST" (num "7.5") "DEN")
        ∉ available sampleCatalog rosters)
  /\ (toAvailable (Projection.mk "Josh Palmer" "WR" (num "12.4") "BUF")
        ∉ available sampleCatalog rosters).
Proof.
  cbv zeta. split; [|split].
  - refine (proj1 (availability_complete sampleCatalog
                     [Roster.mk "7" "Team 7"
                        [Entry.mk "1" "Joshua Palmer" "WR" true;
                         Entry.mk "DEN" "Denver Broncos" "DEF" true]]
                     (Projection.mk "John Doe" "RB" (num "9.5") "NYJ") _) _).
    + vm_compute. repeat constructor.
    + intros (r & e & Hr & He & Hc).
      apply list_elem_of_singleton in Hr as ->.
      apply elem_of_cons in He as [->|He];
        [|apply list_elem_of_singleton in He as ->]; destruct Hc as [Hc _]; discriminate Hc.
  - refine (proj1 (proj2 (availability_complete sampleCatalog
                     [Roster.mk "7" "Team 7"
                        [Entry.mk "1" "Joshua Palmer" "WR" true;
                         Entry.mk "DEN" "Denver Broncos" "DEF" true]]
                     (Projection.mk "Denver D/ST" "DST" (num "7.5") "DEN") _)) _).
    + vm_compute. repeat constructor.
    + exists (Roster.mk "7" "Team 7"
                [Entry.mk "1" "Joshua Palmer" "WR" true;
                 Entry.mk "DEN" "Denver Broncos" "DEF" true]),
        (Entry.mk "DEN" "Denver Broncos" "DEF" true).
      split; [constructor|]. split; [repeat constructor|].
      split; [by right|]. left. exists (chr "denver"). split.
      * apply textBefore_splitHead. vm_compute. reflexivity.
      * by exists [], (chr " broncos").
  - refine (proj1 (proj2 (availability_complete sampleCatalog
                     [Roster.mk "7" "Team 7"
                        [Entry.mk "1" "Joshua Palmer" "WR" true;
                         Entry.mk "DEN" "Denver Broncos" "DEF" true]]
                     (Projection.mk "Josh Palmer" "WR" (num "12.4") "BUF") _)) _).
    + vm_compute. repeat constructor.
    + exists (Roster.mk "7" "Team 7"
                [Entry.mk "1" "Joshua Palmer" "WR" true;
                 Entry.mk "DEN" "Denver Broncos" "DEF" true]),
        (Entry.mk "1" "Joshua Palmer" "WR" true).
      split; [constructor|]. split; [constructor|].
      split; [reflexivity|]. exists "josh palmer".
      split; vm_compute; [constructor; constructor|constructor].
Defined.

(** C6, the counterexample to the claim as stated: "John Doe" is on a roster
    as a WR and in the catalog as an RB.  The entry corresponds to the
    record under normalization and aliasing, and the matching engine gives
    the entry the record's points, yet the record is in the available
    output. *)
Lemma rostered_under_other_position_is_available :
  spec_rostered [Roster.mk "7" "Team 7" [Entry.mk "9" "John Doe" "WR" true]]
    (Projection.mk "John Doe" "RB" (num "9.5") "NYJ")
  /\ resolveMatch (buildNameIndex (allMaps sampleCatalog))
       (Entry.mk "9" "John Doe" "WR" true)
     = Some (Candidate.mk "John Doe" "RB" (num "9.5"))
  /\ toAvailable (Projection.mk "John Doe" "RB" (num "9.5") "NYJ")
       ∈ available sampleCatalog
           [Roster.mk "7" "Team 7" [Entry.mk "9" "John Doe" "WR" true]].
Proof.
  split; [|split].
  - exists (Roster.mk "7" "Team 7" [Entry.mk "9" "John Doe" "WR" true]),
      (Entry.mk "9" "John Doe" "WR" true).
    split; [constructor|]. split; [constructor|].
    exists "john doe". split; vm_compute; constructor.
  - vm_compute. reflexivity.
  - vm_compute. apply list_elem_of_further, list_elem_of_here.
Qed.

(** For a defense record whose name goes on after " D/ST" the two tests
    part: the specification strips nothing and finds no entry, the
    availability check compares the part before " d/st" and leaves the
    record out. *)
Example defense_name_with_inner_suffix :
  let rec := Projection.mk "New York D/ST Jets" "DST" (num "6") "" in
  let rosters := [Roster.mk "7" "Team 7" [Entry.mk "NYG" "New York Giants" "DEF" true]] in
  ~ spec_rostered rosters rec
  /\ toAvailable rec ∉ available (Projections.mk [] [] [] [] [] [rec]) rosters.
Proof.
  cbv zeta. split.
  - intros (r & e & Hr & He & Hc).
    apply list_elem_of_singleton in Hr as ->. apply list_elem_of_singleton in He as ->.
    destruct Hc as [_ [H|[H _]]]; [|done].
    apply includes_occursIn in H. vm_compute in H. discriminate H.
  - vm_compute. apply not_elem_of_nil.
Qed.

(** ** The franchise name of the availability check *)

Lemma includes_suffix (f sep : chars) : includes (f ++ sep) sep = true.
Proof.
  induction f as [|c f IH]; rewrite includes_unfold; cbn [app].
  - by rewrite stripPrefix_self.
  - by destruct (stripPrefix sep (c :: f ++ sep)).
Qed.

(** For a defense name that ends in " D/ST", in whatever case, and has no
    other slash, the availability check compares the lower-cased name
    without that suffix. *)
Lemma dstTeamName_suffix (player : string) (franchise : chars) :
  lower player = franchise ++ chr " d/st" -> "/"%char ∉ franchise ->
  dstTeamName player = franchise
  /\ toLowerCase (spec_franchise player) = franchise.
Proof.
  intros E Hno. split.
  - unfold dstTeamName. rewrite E, includes_suffix.
    by apply (splitHead_suffix " " "d" "/" (chr "st")).
  - by apply spec_franchise_lower.
Qed.

(** * Further properties of the code *)

(** ** The normalizer *)

Lemma chr_normalizeName (name : string) : chr (normalizeName name) = normalizeChars (chr name).
Proof. apply chr_str. Qed.

Lemma spacedOnce_spaces (s : chars) (b : bool) (c : ascii) :
  spacedOnce b s = true -> c ∈ s -> isSpaceChar c = true -> c = space.
Proof.
  revert b. induction s as [|x s IH]; intros b Hs Hc Hsp; [by apply elem_of_nil in Hc|].
  simpl in Hs. apply elem_of_cons in Hc as [->|Hc].
  - rewrite Hsp in Hs. apply andb_prop in Hs as [[Hx _]%andb_prop _].
    by apply Ascii.eqb_eq.
  - destruct (isSpaceChar x); [apply andb_prop in Hs as [_ Hs]|]; eauto.
Qed.

Lemma settled_not_capital (c : ascii) : settled c = true -> isUpperChar c = false.
Proof. each_code c; vm_compute; congruence. Qed.

Lemma trimEnd_last (s : chars) (c : ascii) :
  last (trimEnd s) = Some c -> isSpaceChar c = false.
Proof.
  induction s as [|x s IH]; [done|]. rewrite trimEnd_cons.
  destruct (trimEnd s) as [|y t] eqn:E.
  - destruct (isSpaceChar x) eqn:Hx; [done|]. by intros [= <-].
  - rewrite last_cons_cons. exact IH.
Qed.

(** The key the normalizer returns holds no period, apostrophe or hyphen
    and no capital letter; its only white space is the space, and no two
    spaces are neighbours; it neither starts nor ends with white space; and
    none of its words is a suffix token. *)
Theorem normalizeName_shape (name : string) :
  let key := chr (normalizeName name) in
  (forall c, c ∈ key ->
     c <> "."%char /\ c <> "'"%char /\ c <> "-"%char /\ isUpperChar c = false
     /\ (isSpaceChar c = true -> c = space))
  /\ spacedOnce false key = true
  /\ (forall c, head key = Some c \/ last key = Some c -> isSpaceChar c = false)
  /\ suffixFree [] key = true.
Proof.
  cbv zeta. rewrite chr_normalizeName.
  destruct (normalizeChars_normal (chr name)) as (H1 & H2 & H3 & H4).
  split; [|split; [|split]]; [|done| |done].
  - intros c Hc. rewrite Forall_forall in H1. specialize (H1 c Hc).
    repeat split.
    + intros ->. discriminate H1.
    + intros ->. discriminate H1.
    + intros ->. discriminate H1.
    + by apply settled_not_capital.
    + by apply (spacedOnce_spaces (normalizeChars (chr name)) false).
  - intros c [Hc|Hc].
    + assert (startsTrimmed (normalizeChars (chr name)) = true) as Hst
        by apply trimEnd_starts, trimStart_starts.
      destruct (normalizeChars (chr name)) as [|x y]; [done|].
      injection Hc as ->. by apply negb_true_iff.
    + rewrite <- H4 in Hc. by apply trimEnd_last in Hc.
Qed.

Lemma earlyStages_app (s t : chars) :
  earlyStages (s ++ t) = earlyStages s ++ earlyStages t.
Proof.
  unfold earlyStages, replaceChar, removeChar, toLowerCase.
  by rewrite map_app, !List.filter_app, map_app.
Qed.

Lemma earlyStages_each (f : chars -> chars) (s : chars) :
  f [] = [] ->
  (forall c r, f (c :: r) = f [c] ++ f r) ->
  (forall c, earlyStages (f [c]) = earlyStages [c]) ->
  earlyStages (f s) = earlyStages s.
Proof.
  intros Hnil Hcons Hc. induction s as [|c s IH]; [by rewrite Hnil|].
  rewrite Hcons, earlyStages_app, Hc, IH.
  by rewrite <- earlyStages_app.
Qed.

Lemma normalizeChars_early (s t : chars) :
  earlyStages s = earlyStages t -> normalizeChars s = normalizeChars t.
Proof. unfold normalizeChars, earlyStages. by intros ->. Qed.

(** Letter case, periods and apostrophes do not change the key, and a
    hyphen counts as a space: a name and the same name lower-cased, without
    its periods, without its apostrophes, or with spaces for its hyphens
    all get one key. *)
Theorem normalizeName_insensitive (name : string) :
  normalizeName (str (toLowerCase (chr name))) = normalizeName name
  /\ normalizeName (str (removeChar "."%char (chr name))) = normalizeName name
  /\ normalizeName (str (removeChar "'"%char (chr name))) = normalizeName name
  /\ normalizeName (str (replaceChar "-"%char space (chr name))) = normalizeName name.
Proof.
  unfold normalizeName. rewrite !chr_str.
  repeat split; f_equal; apply normalizeChars_early, earlyStages_each;
    try done; intros c; each_code c; reflexivity.
Qed.

(** ** The alias table *)

Lemma aliasOf_symmetric (a b : string) : aliasOf a = Some b -> aliasOf b = Some a.
Proof. rewrite !aliasOf_lookup. apply NAME_ALIASES_symmetric. Qed.

Lemma aliasOf_irreflexive (a : string) : aliasOf a <> Some a.
Proof.
  rewrite aliasOf_lookup. intros H%elem_of_list_to_map_2.
  repeat (apply elem_of_cons in H as [[= E1 E2]|H]; [congruence|]).
  by apply elem_of_nil in H.
Qed.

(** The alias table pairs normalized keys: the alias of a key has the key
    as its own alias, differs from it, and both are keys the normalizer
    leaves as they are. *)
Theorem NAME_ALIASES_pairs (a b : string) :
  NAME_ALIASES !! a = Some b ->
  NAME_ALIASES !! b = Some a
  /\ a <> b
  /\ normalizeName a = a
  /\ normalizeName b = b.
Proof.
  intros H%elem_of_list_to_map_2.
  repeat (apply elem_of_cons in H as [[= -> ->]|H];
          [by repeat split; vm_compute|]).
  by apply elem_of_nil in H.
Qed.

Lemma NAME_ALIASES_pairs_witness :
  NAME_ALIASES !! "marquise brown" = Some "hollywood brown"
  /\ normalizeName "hollywood brown" = "hollywood brown".
Proof.
  destruct (NAME_ALIASES_pairs "hollywood brown" "marquise brown") as (H1 & _ & H3 & _).
  - vm_compute. reflexivity.
  - split; [exact H1 | exact H3].
Defined.

(** ** The projection loader *)

Lemma trimS_idem (s : string) : trimS (trimS s) = trimS s.
Proof. unfold trimS. by rewrite chr_str, trim_idem. Qed.

Lemma orElse_empty (v : option string) : orElse v "" = default "" v.
Proof. destruct v as [s|]; simpl; [|done]. by destruct (String.eqb_spec s "") as [->|]. Qed.

Lemma mapSet_elem (key : string) (v r : Projection.t) (records : list Projection.t) :
  r ∈ mapSet key v records -> r = v \/ r ∈ records.
Proof.
  induction records as [|x records IH]; simpl.
  - intros ->%list_elem_of_singleton. by left.
  - destruct (String.eqb (Projection.player x) key).
    + intros [->|H]%elem_of_cons; [by left|right; by constructor].
    + intros [->|H]%elem_of_cons; [right; constructor|].
      destruct (IH H) as [->|H']; [by left|right; by constructor].
Qed.

Lemma mapSet_players (key : string) (v : Projection.t) (records : list Projection.t) :
  Projection.player v = key ->
  map Projection.player (mapSet key v records)
  = if bool_decide (key ∈ map Projection.player records)
    then map Projection.player records
    else map Projection.player records ++ [key].
Proof.
  intros Hv. induction records as [|x records IH]; cbn [mapSet map].
  - case_bool_decide as Hin; [by apply elem_of_nil in Hin|by rewrite Hv].
  - destruct (String.eqb_spec (Projection.player x) key) as [E|E]; cbn [map].
    + rewrite bool_decide_eq_true_2; [by rewrite Hv, E|]. rewrite E. constructor.
    + rewrite IH. case_bool_decide as Hin.
      * rewrite bool_decide_eq_true_2; [done|]. by constructor.
      * rewrite bool_decide_eq_false_2; [done|].
        intros [?|?]%elem_of_cons; congruence.
Qed.

Lemma mapGet_mapSet (key : string) (v : Projection.t) (records : list Projection.t) :
  Projection.player v = key -> mapGet key (mapSet key v records) = Some v.
Proof.
  intros Hv. unfold mapGet. induction records as [|x records IH]; simpl.
  - by rewrite Hv, String.eqb_refl.
  - destruct (String.eqb (Projection.player x) key) eqn:E; simpl.
    + by rewrite Hv, String.eqb_refl.
    + by rewrite E.
Qed.

Lemma mapGet_mapSet_other (key k : string) (v : Projection.t) (records : list Projection.t) :
  Projection.player v = key -> k <> key ->
  mapGet k (mapSet key v records) = mapGet k records.
Proof.
  intros Hv Hk. unfold mapGet. induction records as [|x records IH]; simpl.
  - rewrite Hv. by destruct (String.eqb_spec key k); [congruence|].
  - destruct (String.eqb_spec (Projection.player x) key) as [E|E]; simpl.
    + rewrite Hv, E. by destruct (String.eqb_spec key k); [congruence|].
    + by rewrite IH.
Qed.

Lemma onData_keeps (position : string) (records : list Projection.t) (row : Row.t) :
  NoDup (map Projection.player records) /\ Forall (wellLoaded position) records ->
  NoDup (map Projection.player (onData position records row))
  /\ Forall (wellLoaded position) (onData position records row).
Proof.
  intros [Hnd Hall]. unfold onData.
  set (name := trimS (orElse (Row.player row) "")).
  set (value := parseFloat (chr (pointsText row))).
  destruct (String.eqb_spec name "") as [En|En]; [done|].
  destruct (isNaN value) eqn:Ev; [done|]. cbn [negb andb]. split.
  - rewrite mapSet_players by done. case_bool_decide as Hin; [done|].
    apply NoDup_app. split; [done|]. split; [|apply NoDup_singleton].
    intros k Hk ->%list_elem_of_singleton. done.
  - apply Forall_forall. intros r [->|Hr]%mapSet_elem.
    + repeat split; cbn; try done.
      * apply trimS_idem.
      * by apply isNaN_false.
      * apply trimS_idem.
    + rewrite Forall_forall in Hall. by apply Hall.
Qed.

Lemma loadCsvProjections_keeps (rows : list Row.t) (position : string) :
  NoDup (map Projection.player (loadCsvProjections rows position))
  /\ Forall (wellLoaded position) (loadCsvProjections rows position).
Proof.
  unfold loadCsvProjections.
  assert (forall records,
            NoDup (map Projection.player records) /\ Forall (wellLoaded position) records ->
            NoDup (map Projection.player (fold_left (onData position) rows records))
            /\ Forall (wellLoaded position) (fold_left (onData position) rows records)) as H.
  { induction rows as [|row rows IH]; intros records Hinv; [done|].
    cbn [fold_left]. by apply IH, onData_keeps. }
  apply H. split; constructor.
Qed.

(** Whatever the rows of a file, the records loaded from it have distinct
    player names, and each has a name that is trimmed and not empty, the
    position of the file, points that are a number, and a trimmed team
    code. *)
Theorem loadCsvProjections_records (rows : list Row.t) (position : string) :
  NoDup (map Projection.player (loadCsvProjections rows position))
  /\ (forall r, r ∈ loadCsvProjections rows position ->
        Projection.player r <> ""
        /\ trimS (Projection.player r) = Projection.player r
        /\ Projection.position r = position
        /\ Projection.fantasy r <> NaN
        /\ trimS (Projection.team r) = Projection.team r).
Proof.
  destruct (loadCsvProjections_keeps rows position) as [H1 H2].
  split; [done|]. by apply Forall_forall.
Qed.

(** A later row for a player replaces the record of that player and leaves
    the record in its place: after a row that is admitted, the player's
    record is the one of this row, the records of the other players are
    what they were, and the order of the names is the order of their first
    appearance. *)
Theorem loader_last_row_wins (rows : list Row.t) (row : Row.t) (position : string) :
  let before := loadCsvProjections rows position in
  let after := loadCsvProjections (rows ++ [row]) position in
  let name := trimS (default "" (Row.player row)) in
  let value := parseFloat (chr (pointsText row)) in
  name <> "" -> value <> NaN ->
  mapGet name after
  = Some (Projection.mk name position value (trimS (default "" (Row.team row))))
  /\ (forall k, k <> name -> mapGet k after = mapGet k before)
  /\ map Projection.player after
     = if bool_decide (name ∈ map Projection.player before)
       then map Projection.player before
       else map Projection.player before ++ [name].
Proof.
  intros before after name value Hn Hv.
  assert (after
          = mapSet name
              (Projection.mk name position value (trimS (default "" (Row.team row))))
              before) as ->.
  { unfold after, loadCsvProjections. rewrite fold_left_app. cbn [fold_left].
    unfold onData. rewrite !orElse_empty. fold name value.
    apply isNaN_false in Hv. rewrite Hv.
    by destruct (String.eqb_spec name ""). }
  split; [by apply mapGet_mapSet|]. split.
  - intros k Hk. by apply mapGet_mapSet_other.
  - by apply mapSet_players.
Qed.

Lemma loader_last_row_wins_witness :
  mapGet "A"
    (loadCsvProjections
       ([Row.mk (Some "A") (Some "1") None None None;
         Row.mk (Some "B") (Some "2") None None None]
        ++ [Row.mk (Some " A ") None (Some "3.5") None (Some "KC")]) "RB")
  = Some (Projection.mk "A" "RB" (num "3.5") "KC").
Proof.
  destruct (loader_last_row_wins
              [Row.mk (Some "A") (Some "1") None None None;
               Row.mk (Some "B") (Some "2") None None None]
              (Row.mk (Some " A ") None (Some "3.5") None (Some "KC")) "RB")
    as (H & _ & _).
  - vm_compute. discriminate.
  - vm_compute. discriminate.
  - exact H.
Defined.

(** In a catalog loaded from the six files every record carries the
    position of its file, so the records the availability check treats as
    defenses, those of position "DST", are exactly the records of the
    defense file. *)
Theorem loaded_defenses (files : CsvFiles.t) (p : Projection.t) :
  p ∈ concat (allMaps (loadAllProjections files)) ->
  Projection.position p ∈ ["QB"; "RB"; "WR"; "TE"; "K"; "DST"]
  /\ (Projection.position p = "DST"
      <-> p ∈ Projections.dsts (loadAllProjections files)).
Proof.
  unfold allMaps, loadAllProjections. cbn [concat Projections.qbs Projections.rbs
    Projections.wrs Projections.tes Projections.ks Projections.dsts].
  rewrite app_nil_r, !elem_of_app.
  assert (forall rows pos, p ∈ loadCsvProjections rows pos -> wellLoaded pos p) as H.
  { intros rows pos. apply Forall_forall, loadCsvProjections_keeps. }
  intros [Hp|[Hp|[Hp|[Hp|[Hp|Hp]]]]];
    destruct (H _ _ Hp) as (_ & _ & Hpos & _); rewrite Hpos;
    (split; [rewrite !elem_of_cons; tauto|]);
    (split; [try discriminate; done|]); try done; intros Hd;
    destruct (H _ _ Hd) as (_ & _ & Hpos' & _); congruence.
Qed.

Lemma loaded_defenses_witness :
  Projection.position (Projection.mk "Denver D/ST" "DST" (num "7.5") "DEN") = "DST"
  <-> Projection.mk "Denver D/ST" "DST" (num "7.5") "DEN"
        ∈ Projections.dsts
            (loadAllProjections
               (CsvFiles.mk [] [] [] [] []
                  [Row.mk (Some "Denver D/ST") (Some "7.5") None None (Some "DEN")])).
Proof.
  apply (loaded_defenses
           (CsvFiles.mk [] [] [] [] []
              [Row.mk (Some "Denver D/ST") (Some "7.5") None None (Some "DEN")])
           (Projection.mk "Denver D/ST" "DST" (num "7.5") "DEN")).
  vm_compute. constructor.
Defined.

(** ** The name index *)

Lemma contributes_nameForms (k : string) (p : Projection.t) :
  contributes k p
  = if bool_decide (k ∈ nameForms (Projection.player p)) then [candidateOf p] else [].
Proof.
  unfold contributes, nameForms. fold (candidateOf p).
  pose proof (aliasOf_irreflexive (normalizeName (Projection.player p))) as Hirr.
  destruct (aliasOf (normalizeName (Projection.player p))) as [a|]; cbn [flat_map app].
  - repeat case_bool_decide; subst; try done;
      rewrite ?elem_of_cons, ?elem_of_nil in *; try tauto; try congruence.
    all: exfalso; intuition congruence.
  - repeat case_bool_decide; subst; try done;
      rewrite ?elem_of_cons, ?elem_of_nil in *; try tauto; exfalso; intuition congruence.
Qed.

Lemma elem_of_built_candidates (projectionsMaps : list (list Projection.t))
  (k : string) (m : Candidate.t) :
  m ∈ candidates (buildNameIndex projectionsMaps) k
  <-> exists p, p ∈ concat projectionsMaps
        /\ k ∈ nameForms (Projection.player p) /\ m = candidateOf p.
Proof.
  rewrite buildNameIndex_candidates, list_elem_of_In, in_flat_map. split.
  - intros (p & Hp & Hm). exists p. rewrite contributes_nameForms in Hm.
    case_bool_decide; [|done]. destruct Hm as [<-|[]].
    split; [by apply list_elem_of_In|done].
  - intros (p & Hp & Hk & ->). exists p. split; [by apply list_elem_of_In|].
    rewrite contributes_nameForms, bool_decide_eq_true_2 by done. by left.
Qed.

(** The candidates under a key are the index entries of the catalog records
    that have the key as their normalized name or as its alias, in catalog
    load order, one entry for each such record. *)
Theorem nameIndex_lists_records (projectionsMaps : list (list Projection.t)) (k : string) :
  candidates (buildNameIndex projectionsMaps) k
  = map candidateOf
      (List.filter (fun p => bool_decide (k ∈ nameForms (Projection.player p)))
         (concat projectionsMaps)).
Proof.
  rewrite buildNameIndex_candidates.
  induction (concat projectionsMaps) as [|p l IH]; [done|].
  cbn [flat_map List.filter]. rewrite IH, contributes_nameForms.
  by destruct (bool_decide _).
Qed.

(** Every record of the catalog can be looked up: its index entry is among
    the candidates under its normalized name, and under the alias of that
    name when it has one. *)
Theorem nameIndex_finds_record (projectionsMaps : list (list Projection.t))
  (p : Projection.t) :
  p ∈ concat projectionsMaps ->
  candidateOf p
    ∈ candidates (buildNameIndex projectionsMaps) (normalizeName (Projection.player p))
  /\ (forall alias, NAME_ALIASES !! normalizeName (Projection.player p) = Some alias ->
        candidateOf p ∈ candidates (buildNameIndex projectionsMaps) alias).
Proof.
  intros Hp. split.
  - apply elem_of_built_candidates. exists p. repeat split; [done|]. constructor.
  - intros alias Ha. apply elem_of_built_candidates. exists p. repeat split; [done|].
    unfold nameForms. rewrite aliasOf_lookup, Ha. rewrite !elem_of_cons. auto.
Qed.

Lemma nameIndex_finds_record_witness :
  Candidate.mk "Josh Palmer" "WR" (num "12.4")
    ∈ candidates (buildNameIndex (allMaps sampleCatalog)) "joshua palmer".
Proof.
  apply (proj2 (nameIndex_finds_record (allMaps sampleCatalog)
                  (Projection.mk "Josh Palmer" "WR" (num "12.4") "BUF")
                  ltac:(vm_compute; repeat constructor))
           "joshua palmer").
  vm_compute. reflexivity.
Defined.

Lemma pushCandidate_nonempty (c : Candidate.t) (index : NameIndex) (k : string) :
  (forall k' l, index !! k' = Some l -> l <> []) ->
  forall k' l, pushCandidate c index k !! k' = Some l -> l <> [].
Proof.
  intros H k' l. unfold pushCandidate. rewrite lookup_insert. case_decide.
  - intros [= <-]. by destruct (candidates index k).
  - apply H.
Qed.

Lemma indexRecord_nonempty (index : NameIndex) (p : Projection.t) :
  (forall k l, index !! k = Some l -> l <> []) ->
  forall k l, indexRecord index p !! k = Some l -> l <> [].
Proof.
  unfold indexRecord. generalize (candidateOf p). fold (candidateOf p).
  intros c. generalize
    (normalizeName (Projection.player p)
     :: match aliasOf (normalizeName (Projection.player p)) with
        | Some alias => [alias]
        | None => []
        end).
  intros keys. revert index.
  induction keys as [|k keys IH]; intros index H; [done|].
  cbn [fold_left]. apply IH. by apply pushCandidate_nonempty.
Qed.

(** No key of the index has an empty list of candidates: a key is present
    only once a record has been pushed under it. *)
Theorem nameIndex_no_empty_entry (projectionsMaps : list (list Projection.t))
  (k : string) (l : list Candidate.t) :
  buildNameIndex projectionsMaps !! k = Some l -> l <> [].
Proof.
  revert k l. unfold buildNameIndex.
  assert (forall index : NameIndex,
            (forall k l, index !! k = Some l -> l <> []) ->
            forall k l,
              fold_left (fun index map => fold_left indexRecord map index)
                projectionsMaps index !! k = Some l -> l <> []) as H.
  { induction projectionsMaps as [|m ms IH]; intros index Hi; [done|].
    cbn [fold_left]. apply IH. clear IH. revert index Hi.
    induction m as [|p m IHm]; intros index Hi; [done|].
    cbn [fold_left]. apply IHm. by apply indexRecord_nonempty. }
  apply H. intros k l. by rewrite lookup_empty.
Qed.

Lemma nameIndex_no_empty_entry_witness :
  buildNameIndex (allMaps sampleCatalog) !! "john doe"
  = Some [Candidate.mk "John Doe" "RB" (num "9.5")]
  /\ [Candidate.mk "John Doe" "RB" (num "9.5")] <> [].
Proof.
  assert (buildNameIndex (allMaps sampleCatalog) !! "john doe"
          = Some [Candidate.mk "John Doe" "RB" (num "9.5")]) as H
    by (vm_compute; reflexivity).
  split; [exact H|].
  exact (nameIndex_no_empty_entry (allMaps sampleCatalog) "john doe" _ H).
Defined.

(** ** The matching engine on an index built from the catalog *)

Lemma nameForms_alias (ke a : string) (p : Projection.t) :
  aliasOf ke = Some a ->
  a ∈ nameForms (Projection.player p) <-> ke ∈ nameForms (Projection.player p).
Proof.
  intros Ha. pose proof (aliasOf_symmetric _ _ Ha) as Ha'.
  unfold nameForms. set (kp := normalizeName (Projection.player p)).
  destruct (aliasOf kp) as [b|] eqn:Eb;
    rewrite ?elem_of_cons, ?elem_of_nil; split.
  - intros [->|[->|[]]].
    + right. left. congruence.
    + left. apply aliasOf_symmetric in Eb. congruence.
  - intros [->|[->|[]]].
    + right. left. congruence.
    + left. apply aliasOf_symmetric in Eb. congruence.
  - intros [->|[]]. congruence.
  - intros [->|[]]. congruence.
Qed.

Lemma built_alias_candidates (projectionsMaps : list (list Projection.t)) (ke a : string) :
  aliasOf ke = Some a ->
  candidates (buildNameIndex projectionsMaps) a
  = candidates (buildNameIndex projectionsMaps) ke.
Proof.
  intros Ha. rewrite !buildNameIndex_candidates.
  induction (concat projectionsMaps) as [|p l IH]; [done|].
  cbn [flat_map]. rewrite IH, !contributes_nameForms.
  by rewrite (bool_decide_ext _ _ (nameForms_alias ke a p Ha)).
Qed.

(** On an index built from the catalog the alias step adds nothing: a key
    and its alias have the same candidates, so an entry is matched to the
    first candidate of its position under its own key, and failing that to
    the first candidate under its key. *)
Theorem alias_step_adds_nothing (projectionsMaps : list (list Projection.t))
  (entry : Entry.t) :
  let nameIndex := buildNameIndex projectionsMaps in
  let cands := candidates nameIndex (normalizeName (Entry.name entry)) in
  (forall alias, NAME_ALIASES !! normalizeName (Entry.name entry) = Some alias ->
     candidates nameIndex alias = cands)
  /\ resolveMatch nameIndex entry
     = match findByPosition cands (Entry.position entry) with
       | Some m => Some m
       | None => head cands
       end.
Proof.
  cbv zeta. split.
  - intros alias Ha. apply built_alias_candidates. by rewrite aliasOf_lookup.
  - unfold resolveMatch.
    destruct (findByPosition _ (Entry.position entry)) as [m|] eqn:E1; [done|].
    destruct (aliasOf (normalizeName (Entry.name entry))) as [a|] eqn:Ea.
    + rewrite (built_alias_candidates _ _ _ Ea), E1.
      unfold candidates. by destruct (_ !! _) as [[|]|].
    + unfold candidates. by destruct (_ !! _) as [[|]|].
Qed.

(** An entry whose normalized name is a name form of a catalog record of
    the entry's position is always matched, and to a candidate of its
    position. *)
Theorem same_position_record_is_matched (projectionsMaps : list (list Projection.t))
  (entry : Entry.t) (p : Projection.t) :
  p ∈ concat projectionsMaps ->
  normalizeName (Entry.name entry) ∈ nameForms (Projection.player p) ->
  Projection.position p = Entry.position entry ->
  exists m, resolveMatch (buildNameIndex projectionsMaps) entry = Some m
            /\ Candidate.position m = Entry.position entry.
Proof.
  intros Hp Hk Hpos. unfold resolveMatch.
  destruct (findByPosition _ (Entry.position entry)) as [m|] eqn:E1.
  - exists m. split; [done|]. apply find_some in E1 as [_ E1].
    by apply String.eqb_eq.
  - exfalso. unfold findByPosition in E1.
    assert (In (candidateOf p)
              (candidates (buildNameIndex projectionsMaps)
                 (normalizeName (Entry.name entry)))) as Hin.
    { apply list_elem_of_In, elem_of_built_candidates. by exists p. }
    pose proof (find_none _ _ E1 _ Hin) as Hf. cbn in Hf.
    by rewrite Hpos, String.eqb_refl in Hf.
Qed.

Lemma same_position_record_is_matched_witness :
  exists m,
    resolveMatch (buildNameIndex (allMaps sampleCatalog))
      (Entry.mk "1" "Joshua Palmer" "WR" true) = Some m
    /\ Candidate.position m = "WR".
Proof.
  apply (same_position_record_is_matched (allMaps sampleCatalog)
           (Entry.mk "1" "Joshua Palmer" "WR" true)
           (Projection.mk "Josh Palmer" "WR" (num "12.4") "BUF")).
  - vm_compute. repeat constructor.
  - vm_compute. repeat constructor.
  - reflexivity.
Defined.

Lemma resolveMatch_built (projectionsMaps : list (list Projection.t))
  (entry : Entry.t) (m : Candidate.t) :
  resolveMatch (buildNameIndex projectionsMaps) entry = Some m ->
  exists p, p ∈ concat projectionsMaps
    /\ normalizeName (Entry.name entry) ∈ nameForms (Projection.player p)
    /\ m = candidateOf p.
Proof.
  intros H. apply elem_of_built_candidates.
  revert H. unfold resolveMatch.
  set (cands := candidates _ (normalizeName (Entry.name entry))).
  destruct (findByPosition cands _) as [m1|] eqn:E1.
  { intros [= <-]. apply find_some in E1 as [E1 _]. by apply list_elem_of_In. }
  destruct (aliasOf (normalizeName (Entry.name entry))) as [a|] eqn:Ea.
  - rewrite (built_alias_candidates _ _ _ Ea). fold cands. rewrite E1.
    unfold cands, candidates. destruct (_ !! _) as [[|c cs]|]; try done.
    intros [= <-]. constructor.
  - unfold cands, candidates. destruct (_ !! _) as [[|c cs]|]; try done.
    intros [= <-]. constructor.
Qed.

(** The engine credits no points but the catalog's: a match is the index
    entry of a catalog record that has the entry's normalized name as a
    name form, and the entry is given that record's points. *)
Theorem match_comes_from_catalog (projectionsMaps : list (list Projection.t))
  (dstMap : list Projection.t) (entry : Entry.t) (m : Candidate.t)
  (total : jsnum) (details : list Matched.t) :
  resolveMatch (buildNameIndex projectionsMaps) entry = Some m ->
  exists p, p ∈ concat projectionsMaps
    /\ normalizeName (Entry.name entry) ∈ nameForms (Projection.player p)
    /\ m = candidateOf p
    /\ estimateEntry (buildNameIndex projectionsMaps) dstMap (total, details) entry
       = (jsnum_add total (Projection.fantasy p),
          details ++ [matched entry (Projection.fantasy p)]).
Proof.
  intros H. destruct (resolveMatch_built _ _ _ H) as (p & Hp & Hk & ->).
  exists p. repeat split; try done.
  unfold estimateEntry. by rewrite H.
Qed.

Lemma match_comes_from_catalog_witness :
  exists p, p ∈ concat (allMaps sampleCatalog)
    /\ normalizeName "John Doe" ∈ nameForms (Projection.player p)
    /\ Candidate.mk "John Doe" "RB" (num "9.5") = candidateOf p
    /\ estimateEntry (buildNameIndex (allMaps sampleCatalog)) [] (Fin 0, [])
         (Entry.mk "9" "John Doe" "WR" true)
       = (jsnum_add (Fin 0) (Projection.fantasy p),
          [] ++ [matched (Entry.mk "9" "John Doe" "WR" true) (Projection.fantasy p)]).
Proof.
  apply (match_comes_from_catalog (allMaps sampleCatalog) []
           (Entry.mk "9" "John Doe" "WR" true)).
  vm_compute. reflexivity.
Defined.

(** ** The totals and the details of a team *)

Lemma canonical_add_zero (t : jsnum) :
  canonical t -> jsnum_add t (Fin 0) = t.
Proof.
  destruct t as [| |k]; cbn [canonical jsnum_add]; try done.
  by rewrite Z.add_0_r.
Qed.

Lemma canonical_add (a b : jsnum) : canonical (jsnum_add a b).
Proof.
  destruct a as [|[]|p], b as [|[]|q]; cbn [jsnum_add canonical Bool.eqb]; try done.
  destruct (roundDouble (p + q) 1) as [| |k] eqn:E; [done|done|].
  by apply (roundDouble_idem (p + q)).
Qed.

Lemma estimateEntry_step (nameIndex : NameIndex) (dstMap : list Projection.t)
  (entry : Entry.t) (total : jsnum) (details : list Matched.t) :
  canonical total ->
  estimateEntry nameIndex dstMap (total, details) entry
  = if isDropped nameIndex dstMap entry then (total, details)
    else (jsnum_add total (pointsFor nameIndex dstMap entry),
          details ++ [matched entry (pointsFor nameIndex dstMap entry)]).
Proof.
  intros Hc. unfold estimateEntry, isDropped, pointsFor.
  destruct (resolveMatch nameIndex entry) as [m|]; [done|].
  destruct (isDefense (Entry.position entry)); cbn [andb].
  - by destruct (dstScan entry dstMap).
  - by rewrite canonical_add_zero.
Qed.

Lemma estimate_fold (nameIndex : NameIndex) (dstMap : list Projection.t)
  (entries : list Entry.t) (total : jsnum) (details : list Matched.t) :
  canonical total ->
  let kept :=
    map (fun e => matched e (pointsFor nameIndex dstMap e))
      (List.filter (fun e => negb (isDropped nameIndex dstMap e)) entries) in
  fold_left (estimateEntry nameIndex dstMap) entries (total, details)
  = (fold_left jsnum_add (map Matched.projected kept) total, details ++ kept).
Proof.
  cbv zeta. revert total details.
  induction entries as [|e entries IH]; intros total details Hc.
  - cbn. by rewrite app_nil_r.
  - cbn [fold_left List.filter]. rewrite estimateEntry_step by done.
    destruct (isDropped nameIndex dstMap e); cbn [negb].
    + by apply IH.
    + rewrite IH by apply canonical_add. cbn [map fold_left Matched.projected matched].
      by rewrite <- app_assoc.
Qed.

(** The total of a team is the sum of the points of the players in its
    details, added in order from 0, the zero-valued players included. *)
Theorem total_is_sum_of_details (roster : Roster.t) (nameIndex : NameIndex)
  (dstMap : list Projection.t) :
  (estimateTeamPoints roster nameIndex dstMap).1
  = fold_left jsnum_add
      (map Matched.projected (estimateTeamPoints roster nameIndex dstMap).2) (Fin 0).
Proof.
  unfold estimateTeamPoints. by rewrite estimate_fold.
Qed.

(** The details of a team are its entries in roster order, less the
    defense entries that nothing matched, each with the name, position and
    starter flag of its entry and with points that depend on that entry
    alone. *)
Theorem details_follow_entries (roster : Roster.t) (nameIndex : NameIndex)
  (dstMap : list Projection.t) :
  (estimateTeamPoints roster nameIndex dstMap).2
  = map (fun e => matched e (pointsFor nameIndex dstMap e))
      (List.filter (fun e => negb (isDropped nameIndex dstMap e)) (Roster.entries roster))
  /\ length (estimateTeamPoints roster nameIndex dstMap).2 <= length (Roster.entries roster).
Proof.
  unfold estimateTeamPoints. rewrite estimate_fold by done. cbn [snd app].
  split; [done|]. rewrite length_map. apply filter_length_le.
Qed.

(** ** The order and the extent of the available list *)

Lemma available_unfold (projections : Projections.t) (rosters : list Roster.t) :
  available projections rosters
  = sortBy byProjectedDescending
      (map toAvailable
         (List.filter (fun rec => negb (isTaken (noteRosters rosters) rec))
            (concat (allMaps projections)))).
Proof. reflexivity. Qed.

Lemma loaded_not_NaN (files : CsvFiles.t) (p : Projection.t) :
  p ∈ concat (allMaps (loadAllProjections files)) -> Projection.fantasy p <> NaN.
Proof.
  unfold allMaps, loadAllProjections. cbn [concat Projections.qbs Projections.rbs
    Projections.wrs Projections.tes Projections.ks Projections.dsts].
  rewrite app_nil_r, !elem_of_app.
  assert (forall rows pos, p ∈ loadCsvProjections rows pos -> Projection.fantasy p <> NaN)
    as H.
  { intros rows pos Hp. pose proof (proj2 (loadCsvProjections_keeps rows pos)) as Hall.
    rewrite Forall_forall in Hall. by destruct (Hall p Hp) as (_ & _ & _ & ? & _). }
  intros [Hp|[Hp|[Hp|[Hp|[Hp|Hp]]]]]; by apply (H _ _ Hp).
Qed.

(** For a catalog loaded from the files the available list is in descending
    order of projected points, and records with equal points stay in catalog
    order. *)
Theorem available_order (files : CsvFiles.t) (rosters : list Roster.t) :
  let out := available (loadAllProjections files) rosters in
  let unsorted :=
    map toAvailable
      (List.filter (fun rec => negb (isTaken (noteRosters rosters) rec))
         (concat (allMaps (loadAllProjections files)))) in
  (forall (i j : nat) (a b : Available.t),
      i < j -> out !! i = Some a -> out !! j = Some b ->
      jsnum_geb (Available.projected a) (Available.projected b) = true)
  /\ (forall v : jsnum,
        List.filter (fun a => jsnum_eqb (Available.projected a) v) out
        = List.filter (fun a => jsnum_eqb (Available.projected a) v) unsorted).
Proof.
  intros out unsorted. subst out. rewrite available_unfold. fold unsorted.
  assert (Forall (fun a => Available.projected a <> NaN) unsorted) as Hok.
  { apply Forall_forall. intros a Ha.
    apply list_elem_of_In, in_map_iff in Ha as (p & <- & [Hp _]%filter_In).
    apply (loaded_not_NaN files). by apply list_elem_of_In. }
  split.
  - intros i j a b.
    apply (StronglySorted_lookup
             (fun x y => jsnum_geb (Available.projected x) (Available.projected y) = true)).
    apply (sortBy_sorted _ (fun a => Available.projected a <> NaN)); [| | |done].
    + intros x y z. apply jsnum_geb_trans.
    + intros x y. apply descending_keeps.
    + intros x y. apply descending_swaps.
  - intros v.
    apply (sortBy_filter _ (fun a => Available.projected a <> NaN)); [|done].
    intros x y _ _. apply descending_ties.
Qed.

(** Points that are one double after rounding are a tie, and keep their
    catalog order. *)
Example available_ties_after_rounding :
  map Available.player
    (available
       (loadAllProjections
          (CsvFiles.mk []
             [Row.mk (Some "P") (Some "0.3") None None None;
              Row.mk (Some "Q") (Some "0.30000000000000001") None None None;
              Row.mk (Some "R") (Some "0.29999999999999999") None None None;
              Row.mk (Some "S") (Some "0.3000000000000001") None None None] [] [] [] []))
       [])
  = ["S"; "P"; "Q"; "R"].
Proof. vm_compute. reflexivity. Qed.

Lemma available_elem_of (projections : Projections.t) (rosters : list Roster.t)
  (a : Available.t) :
  a ∈ available projections rosters
  <-> exists rec, rec ∈ concat (allMaps projections)
        /\ isTaken (noteRosters rosters) rec = false /\ toAvailable rec = a.
Proof.
  rewrite available_unfold, sortBy_perm, list_elem_of_In, in_map_iff. split.
  - intros (rec & E & [Hin Ht]%filter_In). exists rec.
    split; [by apply list_elem_of_In|]. split; [by apply negb_true_iff|done].
  - intros (rec & Hin & Ht & E). exists rec. split; [done|]. apply filter_In.
    split; [by apply list_elem_of_In|]. by apply negb_true_iff.
Qed.

Lemma isTaken_iff (rosters rosters' : list Roster.t) (rec : Projection.t) :
  (rostered rosters rec -> rostered rosters' rec) ->
  isTaken (noteRosters rosters) rec = true -> isTaken (noteRosters rosters') rec = true.
Proof. rewrite !isTaken_rostered. auto. Qed.

(** Every item of the available list is a record of the catalog, and with
    no roster at all the list is the whole catalog. *)
Theorem available_within_catalog (projections : Projections.t) (rosters : list Roster.t) :
  (forall a, a ∈ available projections rosters ->
     exists rec, rec ∈ concat (allMaps projections) /\ toAvailable rec = a)
  /\ length (available projections rosters) <= length (concat (allMaps projections))
  /\ available projections [] ≡ₚ map toAvailable (concat (allMaps projections)).
Proof.
  split; [|split].
  - intros a (rec & Hin & _ & E)%available_elem_of. by exists rec.
  - rewrite available_unfold, (Permutation_length (sortBy_perm _ _)), length_map.
    apply filter_length_le.
  - rewrite available_unfold, sortBy_perm.
    induction (concat (allMaps projections)) as [|p l IH]; [done|].
    cbn [List.filter].
    assert (isTaken (noteRosters []) p = false) as ->.
    { unfold isTaken, noteRosters. cbn [fold_left Rostered.rosteredByPos
        Rostered.rosteredDstTeams]. rewrite lookup_empty.
      by destruct (String.eqb _ "DST"). }
    cbn [negb map]. by rewrite IH.
Qed.

(** Rostering more never frees a player: every item available against a
    larger set of rosters is available against a smaller one. *)
Theorem available_shrinks (projections : Projections.t) (rosters rosters' : list Roster.t) :
  (forall r, r ∈ rosters -> r ∈ rosters') ->
  forall a, a ∈ available projections rosters' -> a ∈ available projections rosters.
Proof.
  intros Hsub a (rec & Hin & Ht & E)%available_elem_of.
  apply available_elem_of. exists rec. split; [done|]. split; [|done].
  destruct (isTaken (noteRosters rosters) rec) eqn:E'; [|done].
  rewrite (isTaken_iff rosters rosters') in Ht; [done| |done].
  intros (r & e & Hr & He). exists r, e. auto.
Qed.

Lemma available_shrinks_witness :
  toAvailable (Projection.mk "John Doe" "RB" (num "9.5") "NYJ")
    ∈ available sampleCatalog [].
Proof.
  apply (available_shrinks sampleCatalog []
           [Roster.mk "7" "Team 7" [Entry.mk "1" "Joshua Palmer" "WR" true]]).
  - intros r Hr. by apply elem_of_nil in Hr.
  - vm_compute. repeat constructor.
Defined.

(** The available list does not depend on the order of the rosters. *)
Theorem available_ignores_roster_order (projections : Projections.t)
  (rosters rosters' : list Roster.t) :
  rosters ≡ₚ rosters' -> available projections rosters = available projections rosters'.
Proof.
  intros Hperm. rewrite !available_unfold. do 2 f_equal.
  apply filter_ext. intros rec. f_equal.
  assert (forall r1 r2 : list Roster.t, r1 ≡ₚ r2 -> rostered r1 rec -> rostered r2 rec) as H.
  { intros r1 r2 Hp (r & e & Hr & He). exists r, e. by rewrite <- Hp. }
  destruct (isTaken (noteRosters rosters) rec) eqn:E1,
           (isTaken (noteRosters rosters') rec) eqn:E2; try done.
  - rewrite (isTaken_iff rosters rosters') in E2; [done|by apply H|done].
  - rewrite (isTaken_iff rosters' rosters) in E1; [done|by apply H|done].
Qed.

Lemma available_ignores_roster_order_witness :
  available sampleCatalog (rev sampleRosters) = available sampleCatalog sampleRosters.
Proof.
  apply (available_ignores_roster_order sampleCatalog (rev sampleRosters) sampleRosters).
  symmetry. apply Permutation_rev.
Defined.

(** The two aggregators agree on position matches: a record whose points
    the engine gives to a roster entry of the record's own position, other
    than a defense, is not on the available list. *)
Theorem credited_record_is_not_available (projections : Projections.t)
  (rosters : list Roster.t) (roster : Roster.t) (entry : Entry.t) (m : Candidate.t) :
  roster ∈ rosters -> entry ∈ Roster.entries roster ->
  resolveMatch (buildNameIndex (allMaps projections)) entry = Some m ->
  Candidate.position m = Entry.position entry ->
  Entry.position entry <> "DST" ->
  exists p, p ∈ concat (allMaps projections) /\ candidateOf p = m
            /\ toAvailable p ∉ available projections rosters.
Proof.
  intros Hr He Hm Hpos Hdst.
  destruct (resolveMatch_built _ _ _ Hm) as (p & Hp & Hk & ->).
  exists p. split; [done|]. split; [done|].
  rewrite available_elem. intros [_ Ht].
  assert (isTaken (noteRosters rosters) p = true) as Ht'; [|congruence].
  apply isTaken_rostered. exists roster, entry. split; [done|]. split; [done|].
  unfold corresponds. cbn in Hpos.
  destruct (String.eqb_spec (Projection.position p) "DST"); [congruence|].
  split; [done|]. exists (normalizeName (Entry.name entry)).
  split; [constructor|done].
Qed.

Lemma credited_record_is_not_available_witness :
  exists p, p ∈ concat (allMaps sampleCatalog)
    /\ candidateOf p = Candidate.mk "Josh Palmer" "WR" (num "12.4")
    /\ toAvailable p ∉ available sampleCatalog sampleRosters.
Proof.
  apply (credited_record_is_not_available sampleCatalog sampleRosters
           (Roster.mk "2" "Team 2"
              [Entry.mk "2" "Joshua Palmer" "WR" true;
               Entry.mk "DEN" "Denver Broncos" "DST" true])
           (Entry.mk "2" "Joshua Palmer" "WR" true)).
  - unfold sampleRosters. repeat constructor.
  - repeat constructor.
  - vm_compute. reflexivity.
  - reflexivity.
  - discriminate.
Defined.

(** ** Resolving the league identifier, handler by handler *)

(** The handlers that compute in place never answer 400: whatever the query
    and the environment hold, they go on with an identifier that is not
    empty, the built-in one when neither gives one. *)
Theorem resolveLeagueId_always_proceeds (query env : option string) :
  exists leagueId,
    resolveLeagueId query env = Proceed leagueId
    /\ leagueId <> ""
    /\ (trimS (default "" query) = "" -> trimS (default "" env) = "" ->
        leagueId = DEFAULT_LEAGUE_ID).
Proof.
  rewrite resolveLeagueId_precedence. eexists. split; [done|]. split.
  - repeat case_bool_decide; done.
  - intros -> ->. by rewrite !bool_decide_eq_false_2 by (intros []; done).
Qed.

(** The handlers that delegate answer 400 exactly when the environment
    holds nothing and the query parameter is blank; an environment value
    wins as it is, untrimmed, and only without one is the trimmed query
    parameter used. *)
Theorem resolveLeagueId_delegating_cases (query env : option string) :
  (resolveLeagueId_delegating query env = Status400 "Missing LEAGUE_ID"
   <-> (env = None \/ env = Some "") /\ trimS (default "" query) = "")
  /\ (forall e, env = Some e -> e <> "" ->
        resolveLeagueId_delegating query env = Proceed e)
  /\ (env = None \/ env = Some "" -> trimS (default "" query) <> "" ->
      resolveLeagueId_delegating query env = Proceed (trimS (default "" query))).
Proof.
  unfold resolveLeagueId_delegating. rewrite orElse_empty.
  set (q := trimS (default "" query)).
  split; [|split].
  - destruct env as [e|]; cbn [orElse];
      [destruct (String.eqb_spec e "") as [->|Hne]|];
      repeat match goal with
             | |- context [String.eqb ?s ""] => destruct (String.eqb_spec s "")
             end;
      split; intros; intuition (try congruence; try discriminate).
  - intros e -> Hne. cbn [orElse].
    destruct (String.eqb_spec e ""); [done|]. by destruct (String.eqb_spec e "").
  - intros He Hq.
    assert (orElse env q = q) as ->.
    { destruct He as [-> | ->]; reflexivity. }
    by destruct (String.eqb_spec q "").
Qed.

(** ** Rosters from the provider's answers *)

Lemma orElse_nonempty (v : option string) (d : string) : d <> "" -> orElse v d <> "".
Proof.
  intros Hd. destruct v as [s|]; simpl; [|done].
  by destruct (String.eqb_spec s "").
Qed.

Lemma entryPosition_cases (p : Player.t) :
  entryPosition p <> "" /\ entryPosition p <> "DEF".
Proof.
  unfold entryPosition. destruct (Player.position p) as [pos|]; [|done].
  destruct (String.eqb_spec pos "DEF") as [->|Hdef]; [done|].
  cbn [orElse]. destruct (String.eqb_spec pos ""); done.
Qed.

Lemma elem_of_rosterEntries (directory : gmap string (option Player.t))
  (r : SleeperRoster.t) (e : Entry.t) :
  e ∈ rosterEntries directory r ->
  exists p, directoryGet directory (Entry.id e) = Some p
    /\ Entry.id e ∈ default [] (SleeperRoster.players r)
    /\ Entry.name e = fullName p (Entry.id e)
    /\ Entry.position e = entryPosition p
    /\ Entry.isStarter e
       = bool_decide (Entry.id e ∈ default [] (SleeperRoster.starters r)).
Proof.
  unfold rosterEntries. rewrite list_elem_of_omap. intros (pid & Hpid & He).
  destruct (directoryGet directory pid) as [p|] eqn:Ep; [|done]. injection He as <-.
  exists p. cbn. repeat split; try done.
  apply bool_decide_ext, elem_of_list_to_set.
Qed.

(** A fetched entry never has the position "DEF" nor an empty position:
    "DEF" is turned into "DST" and a missing position into "FLEX"; and its
    name is not empty unless its identifier is. *)
Theorem fetched_entry_position (data : Sleeper.t) (roster : Roster.t) (entry : Entry.t) :
  roster ∈ fetchSleeperLeagueRosters data ->
  entry ∈ Roster.entries roster ->
  Entry.position entry <> "DEF"
  /\ Entry.position entry <> ""
  /\ (isDefense (Entry.position entry) = true <-> Entry.position entry = "DST")
  /\ (Entry.id entry <> "" -> Entry.name entry <> "").
Proof.
  unfold fetchSleeperLeagueRosters.
  intros (r & <- & _)%list_elem_of_In%in_map_iff He%elem_of_rosterEntries.
  destruct He as (p & _ & _ & Hname & Hpos & _).
  destruct (entryPosition_cases p) as [H1 H2]. rewrite Hpos, Hname.
  split; [done|]. split; [done|]. split.
  - unfold isDefense. rewrite orb_true_iff, !String.eqb_eq. intuition congruence.
  - intros Hid. unfold fullName. by do 3 apply orElse_nonempty.
Qed.

Lemma fetched_entry_position_witness :
  Entry.position (Entry.mk "DEN" "Denver Broncos" "DST" true) <> "DEF".
Proof.
  apply (fetched_entry_position
           (Sleeper.mk [] [SleeperRoster.mk "1" "u1" (Some ["DEN"; "404"]) (Some ["DEN"])]
              {["DEN" := Some (Player.mk (Some "Denver") (Some "Broncos") None (Some "DEF"))]})
           (Roster.mk "1" "Team 1" [Entry.mk "DEN" "Denver Broncos" "DST" true])
           (Entry.mk "DEN" "Denver Broncos" "DST" true)).
  - vm_compute. repeat constructor.
  - repeat constructor.
Defined.

Lemma yieldsEntry_directoryGet (directory : gmap string (option Player.t)) (pid : string) :
  yieldsEntry directory pid = bool_decide (is_Some (directoryGet directory pid)).
Proof.
  unfold yieldsEntry, directoryGet.
  destruct (directory !! pid) as [[p|]|].
  - by rewrite bool_decide_eq_true_2 by (by eexists).
  - by rewrite bool_decide_eq_false_2 by (by intros [? ?]).
  - case_bool_decide.
    + by rewrite bool_decide_eq_true_2 by (by eexists).
    + by rewrite bool_decide_eq_false_2 by (by intros [? ?]).
Qed.

Lemma omap_ids (directory : gmap string (option Player.t)) (starters : gset string)
  (ids : list string) :
  map Entry.id
    (omap
       (fun pid =>
          match directoryGet directory pid with
          | Some p =>
              Some (Entry.mk pid (fullName p pid) (entryPosition p)
                      (bool_decide (pid ∈ starters)))
          | None => None
          end) ids)
  = List.filter (yieldsEntry directory) ids.
Proof.
  induction ids as [|pid ids IH]; [done|]. cbn [omap list_omap List.filter].
  rewrite yieldsEntry_directoryGet.
  destruct (directoryGet directory pid) as [p|] eqn:Ep.
  - rewrite (bool_decide_eq_true_2 (is_Some (Some p))) by (by eexists).
    cbn [map Entry.id]. by rewrite IH.
  - rewrite (bool_decide_eq_false_2 (is_Some None)) by (by intros [? ?]). exact IH.
Qed.

(** The rosters come out one for each roster of the provider, in order and
    under its identifier.  The entries of each are, in the roster's order,
    the identifiers of the roster for which the directory gives an entry:
    those that are a property of the directory holding a player, and those
    that are no property of it but a name of [Object.prototype]
    ("constructor", "toString" and the like); every other identifier is
    passed over.  An entry is a starter exactly when its identifier is
    among the roster's starters, and an entry that is not a property of
    the directory has its identifier for a name and the position "FLEX". *)
Theorem fetched_rosters_follow_provider (data : Sleeper.t) :
  map Roster.rosterId (fetchSleeperLeagueRosters data)
  = map SleeperRoster.roster_id (Sleeper.rosters data)
  /\ (forall i r, Sleeper.rosters data !! i = Some r ->
        exists roster,
          fetchSleeperLeagueRosters data !! i = Some roster
          /\ map Entry.id (Roster.entries roster)
             = List.filter (yieldsEntry (Sleeper.players data))
                 (default [] (SleeperRoster.players r))
          /\ (forall e, e ∈ Roster.entries roster ->
                (Entry.isStarter e = true
                 <-> Entry.id e ∈ default [] (SleeperRoster.starters r))
                /\ (Sleeper.players data !! Entry.id e = None ->
                    Entry.name e = Entry.id e /\ Entry.position e = "FLEX"))).
Proof.
  unfold fetchSleeperLeagueRosters. split.
  - rewrite map_map. done.
  - intros i r Hr. eexists. split.
    + change (map ?f ?l) with (f <$> l). by rewrite list_lookup_fmap, Hr.
    + cbn [Roster.entries]. split; [apply omap_ids|].
      intros e (p & Hp & _ & Hname & Hpos & ->)%elem_of_rosterEntries.
      split; [apply bool_decide_eq_true|].
      intros Hnone. unfold directoryGet in Hp. rewrite Hnone in Hp.
      case_bool_decide; [|done]. injection Hp as <-.
      rewrite Hname, Hpos. split; [|done].
      unfold fullName. cbn. by destruct (Entry.id e).
Qed.

Example fetched_inherited_member :
  map Roster.entries
    (fetchSleeperLeagueRosters
       (Sleeper.mk []
          [SleeperRoster.mk "1" "u1" (Some ["constructor"; "404"; "7"; "DEN"]) None]
          {["DEN" := Some (Player.mk (Some "Denver") (Some "Broncos") None (Some "DEF"));
            "7" := None]}))
  = [[Entry.mk "constructor" "constructor" "FLEX" false;
      Entry.mk "DEN" "Denver Broncos" "DST" false]].
Proof. vm_compute. reflexivity. Qed.

Lemma usersById_last (users : list User.t) (id : string) :
  usersById users !! id
  = last (List.filter (fun u => String.eqb (User.user_id u) id) users).
Proof.
  unfold usersById.
  assert (forall byId : gmap string User.t,
            fold_left (fun byId u => <[User.user_id u := u]> byId) users byId !! id
            = match last (List.filter (fun u => String.eqb (User.user_id u) id) users) with
              | Some u => Some u
              | None => byId !! id
              end) as H.
  { induction users as [|u users IH]; intros byId; [done|].
    cbn [fold_left List.filter]. rewrite IH.
    destruct (String.eqb_spec (User.user_id u) id) as [E|E].
    - destruct (List.filter _ users) as [|v vs] eqn:Ef.
      + cbn. by rewrite E, lookup_insert_eq.
      + rewrite last_cons_cons. destruct (last (v :: vs)) eqn:El; [done|].
        by apply last_None in El.
    - destruct (last _); [done|]. by rewrite lookup_insert_ne. }
  rewrite H, lookup_empty. by destruct (last _).
Qed.

(** The name of a team is never empty.  Its owner is the last member of
    the provider's list with the roster's owner identifier; the name is the
    owner's team name when it has one that is not empty, else the owner's
    display name when it is not empty, else "Team" followed by the roster's
    identifier, which is also the name when no member is the owner. *)
Theorem fetched_team_name (data : Sleeper.t) (i : nat) (r : SleeperRoster.t) :
  Sleeper.rosters data !! i = Some r ->
  let owner :=
    last (List.filter
            (fun u => String.eqb (User.user_id u) (SleeperRoster.owner_id r))
            (Sleeper.users data)) in
  exists roster,
    fetchSleeperLeagueRosters data !! i = Some roster
    /\ Roster.teamName roster <> ""
    /\ Roster.teamName roster
       = match owner with
         | Some (User.mk _ (Some team) _) =>
             if bool_decide (team <> "") then team
             else match owner ≫= User.display_name with
                  | Some display =>
                      if bool_decide (display <> "") then display
                      else String.append "Team " (SleeperRoster.roster_id r)
                  | None => String.append "Team " (SleeperRoster.roster_id r)
                  end
         | Some (User.mk _ None (Some display)) =>
             if bool_decide (display <> "") then display
             else String.append "Team " (SleeperRoster.roster_id r)
         | _ => String.append "Team " (SleeperRoster.roster_id r)
         end.
Proof.
  intros Hr owner. unfold fetchSleeperLeagueRosters. eexists. split.
  { change (map ?f ?l) with (f <$> l). by rewrite list_lookup_fmap, Hr. }
  cbn [Roster.teamName]. unfold rosterTeamName. rewrite usersById_last. fold owner.
  split.
  - by do 2 apply orElse_nonempty.
  - destruct owner as [[uid [team|] [display|]]|]; cbn;
      repeat match goal with
             | |- context [String.eqb ?s ""] => destruct (String.eqb_spec s "")
             end;
      repeat case_bool_decide; try done; congruence.
Qed.

Lemma fetched_team_name_witness :
  exists roster,
    fetchSleeperLeagueRosters
      (Sleeper.mk
         [User.mk "u1" None (Some "old"); User.mk "u1" (Some "") (Some "Pat")]
         [SleeperRoster.mk "4" "u1" None None] ∅) !! 0 = Some roster
    /\ Roster.teamName roster = "Pat".
Proof.
  destruct (fetched_team_name
              (Sleeper.mk
                 [User.mk "u1" None (Some "old"); User.mk "u1" (Some "") (Some "Pat")]
                 [SleeperRoster.mk "4" "u1" None None] ∅)
              0 (SleeperRoster.mk "4" "u1" None None) eq_refl)
    as (roster & H1 & _ & H3).
  exists roster. split; [exact H1|]. rewrite H3. vm_compute. reflexivity.
Defined.

Lemma dstTeamName_suffix_witness :
  dstTeamName "Green Bay d/St" = chr "green bay"
  /\ toLowerCase (spec_franchise "Green Bay d/St") = chr "green bay".
Proof.
  apply (dstTeamName_suffix "Green Bay d/St" (chr "green bay")).
  - reflexivity.
  - vm_compute. repeat (apply not_elem_of_cons; split; [discriminate|]).
    apply not_elem_of_nil.
Defined.
